(** * Weak references of the Kotlin/Native runtime (runtime/src/main/cpp/Weak.cpp)

    The three entry points of Weak.cpp, [Konan_getWeakReferenceImpl],
    [Konan_WeakReferenceCounter_get] and [WeakReferenceCounterClear], and
    the spin lock they share, as a small-step interleaving semantics:

    - memory is a finite map from locations to 32-bit words (an LP64
      target: pointers are 8 bytes, lock words are [int32_t]);
    - the [__sync_*] primitives are one atomic step each;
    - a plain (non-atomic) pointer load or store is two steps, one per
      word, so that a reader racing with a writer can observe a torn
      pointer unless something excludes the writer;
    - a thread is a control point inside one of the three functions, and
      a schedule (a list of thread indices) picks who moves next.

    Running one thread alone gives the sequential reading of each
    function ([call]). Interleavings are sequentially consistent. *)

From Stdlib Require Import ZArith Lia.
From stdpp Require Import gmap list.

Local Open Scope Z_scope.

(** ** Object references and memory *)

(** [ObjHeader*]: an address, [nullptr] is 0. *)
Abbreviation ObjRef := Z (only parsing).

Definition nullptr : Z := 0.

(** Where a word lives: in the meta-object of an object
    ([meta->counter_], [meta->associatedObject_]) or in the object's body,
    that is in [reinterpret_cast<char*>(obj + 1)]. *)
Inductive Field : Type :=
  | counter_
  | associatedObject_
  | body.

#[global] Instance Field_eq_dec : EqDecision Field.
Proof. solve_decision. Defined.

Definition Field_code (f : Field) : nat :=
  match f with counter_ => 0%nat | associatedObject_ => 1%nat | body => 2%nat end.

Definition Field_decode (n : nat) : Field :=
  match n with 0%nat => counter_ | 1%nat => associatedObject_ | _ => body end.

#[global] Instance Field_countable : Countable Field.
Proof.
  apply (inj_countable' Field_code Field_decode).
  intros []; reflexivity.
Defined.

(** A location: the object, the region and the byte offset in it. *)
Abbreviation Loc := (Z * Field * Z)%type (only parsing).

(** The upper word of a pointer stored at [l]. *)
Definition upper (l : Loc) : Loc :=
  let '(obj, f, off) := l in (obj, f, off + 4).

Definition lo_word (p : Z) : Z := p mod 2 ^ 32.
Definition hi_word (p : Z) : Z := p / 2 ^ 32.
Definition combine (lo hi : Z) : Z := lo + 2 ^ 32 * hi.

(** Memory not written yet reads as zero. *)
Definition load (m : gmap Loc Z) (l : Loc) : Z := default 0 (m !! l).
Definition store (l : Loc) (v : Z) (m : gmap Loc Z) : gmap Loc Z := <[l := v]> m.

(** A pointer read or written as a whole (by an atomic primitive, by the
    allocator on an object nobody else can see yet, and in statements). *)
Definition load_ptr (m : gmap Loc Z) (l : Loc) : Z :=
  combine (load m l) (load m (upper l)).
Definition store_ptr (l : Loc) (p : Z) (m : gmap Loc Z) : gmap Loc Z :=
  store (upper l) (hi_word p) (store l (lo_word p) m).

(** [referredOffset = 0] and [lockOffset], the size of a pointer (l.22-23). *)
Definition sizeof_voidp : Z := 8.
Definition referredOffset : Z := 0.
Definition lockOffset : Z := sizeof_voidp.

(** [reinterpret_cast<char*>(counter + 1) + referredOffset] and
    [... + lockOffset] (l.67, l.71, l.81, l.86). *)
Definition referredAddress (counter : ObjRef) : Loc := (counter, body, referredOffset).
Definition lockAddress (counter : ObjRef) : Loc := (counter, body, lockOffset).

(** [&meta->counter_] and [&meta->associatedObject_] for
    [meta = referred->meta_object()] (l.48); an object and its meta-object
    go by the same address here. *)
Definition counterCacheAddress (referred : ObjRef) : Loc := (referred, counter_, 0).
Definition associatedObjectAddress (referred : ObjRef) : Loc := (referred, associatedObject_, 0).

(** The heap: its memory and the address the allocator hands out next. *)
Record Shared : Type := mkShared { mem : gmap Loc Z; next : Z }.

Definition set_mem (sh : Shared) (m : gmap Loc Z) : Shared :=
  {| mem := m; next := next sh |}.

(** ** Build flags and collaborators *)

(** The two preprocessor flags, the classification
    [IsInstance(referred, theObjCObjectWrapperTypeInfo)] (the type of an
    object never changes) and the foreign adapter
    [makeObjCWeakReferenceImpl], which is external to Weak.cpp and touches
    none of the locations above. *)
Record Runtime : Type := mkRuntime {
  KONAN_NO_THREADS : bool;
  KONAN_OBJC_INTEROP : bool;
  IsInstance_theObjCObjectWrapperTypeInfo : Z -> bool;
  makeObjCWeakReferenceImpl : Z -> Z
}.

Definition with_no_threads (b : bool) (rt : Runtime) : Runtime :=
  {| KONAN_NO_THREADS := b;
     KONAN_OBJC_INTEROP := KONAN_OBJC_INTEROP rt;
     IsInstance_theObjCObjectWrapperTypeInfo := IsInstance_theObjCObjectWrapperTypeInfo rt;
     makeObjCWeakReferenceImpl := makeObjCWeakReferenceImpl rt |}.

(** ** Control points, events *)

Inductive Call : Type :=
  | call_getWeakReferenceImpl (referred : ObjRef)
  | call_get (counter : ObjRef)
  | call_clear (counter : ObjRef).

Inductive Result : Type :=
  | RObj (obj : ObjRef)
  | RVoid.

(** What a step does to the world outside the thread. *)
Inductive Event : Type :=
  | EvInvoke (c : Call)
  | EvReturn (c : Call) (r : Result)
  | EvLoad (l : Loc) (v : Z)
  | EvStore (l : Loc) (v : Z)
  | EvCAS (l : Loc) (oldval newval seen : Z)
  | EvIsInstance (referred : Z) (answer : bool)
  | EvUpdateRefIfNull (location : Loc) (object seen : Z)
  | EvMakeCounter (referred counter : Z)
  | EvMakeObjC (handle result : Z).

(** What a function body does after a step: go on at a control point,
    return, or stop for good on a failed assertion. *)
Inductive Next (P : Type) : Type :=
  | Goto (p : P)
  | Return (r : Result)
  | Abort.
Arguments Goto {P} p.
Arguments Return {P} r.
Arguments Abort {P}.

(** ** Primitives *)

(** [__sync_val_compare_and_swap(address, oldval, newval)] on an
    [int32_t]: the value seen, and the memory after. *)
Definition sync_val_compare_and_swap
    (m : gmap Loc Z) (address : Loc) (oldval newval : Z) : Z * gmap Loc Z :=
  let seen := load m address in
  (seen, if seen =? oldval then store address newval m else m).

(** One turn of [while (__sync_val_compare_and_swap(address, 0, 1) == 1);]
    (l.28): the value seen, whether the loop goes round again, the memory
    after. *)
Definition lock_iteration (m : gmap Loc Z) (address : Loc) : Z * bool * gmap Loc Z :=
  let '(seen, m') := sync_val_compare_and_swap m address 0 1 in
  (seen, seen =? 1, m').

(** [lock] (l.27-29): the whole loop, run by one thread with nobody else
    touching the word; [None] when the fuel is used up with the loop
    still spinning. *)
Fixpoint lock (fuel : nat) (m : gmap Loc Z) (address : Loc) : option (gmap Loc Z) :=
  match fuel with
  | O => None
  | S fuel' =>
      let '(_, again, m') := lock_iteration m address in
      if again then lock fuel' m' address else Some m'
  end.

(** Modelled from the spec: [RuntimeAssert], the fatal-assertion facility
    (not part of Weak.cpp). When the condition fails the thread stops for
    good; otherwise it goes on with [rest]. *)
Definition RuntimeAssert {P : Type} (condition : bool) (rest : Next P) : Next P :=
  if condition then rest else Abort.

(** [unlock] (l.31-34), followed by [rest] in the caller: the value seen
    by the compare-and-swap, what happens next, the memory after. *)
Definition unlock {P : Type} (m : gmap Loc Z) (address : Loc) (rest : Next P)
    : Z * Next P * gmap Loc Z :=
  let '(old, m') := sync_val_compare_and_swap m address 1 0 in
  (old, RuntimeAssert (old =? 1) rest, m').

(** Modelled from the spec: [UpdateRefIfNull] (Memory.cpp, not part of
    Weak.cpp), the atomic "install if currently null" on a pointer-sized
    location. One atomic step; gives the value seen. *)
Definition UpdateRefIfNull
    (m : gmap Loc Z) (location : Loc) (object : ObjRef) : Z * gmap Loc Z :=
  let old := load_ptr m location in
  (old, if old =? nullptr then store_ptr location object m else m).

(** Modelled from the spec: [makeWeakReferenceCounter] (Weak.kt, not part
    of Weak.cpp) allocates a candidate Counter bound to the referent: a
    fresh object whose slot holds [referred] and whose lock word is free. *)
Definition makeWeakReferenceCounter (referred : ObjRef) (sh : Shared) : Z * Shared :=
  let counter := next sh in
  (counter,
   {| mem := store (lockAddress counter) 0
               (store_ptr (referredAddress counter) referred (mem sh));
      next := counter + 1 |}).

(** ** The three functions, one step at a time *)

(** Control points of [Konan_getWeakReferenceImpl]. *)
Inductive ImplPC : Type :=
  | impl_classify                (* l.51: IsInstance(referred, theObjCObjectWrapperTypeInfo) *)
  | impl_objc_lo                 (* l.52: meta->associatedObject_, lower word *)
  | impl_objc_hi (lo : Z)        (* l.52: upper word *)
  | impl_objc_call (handle : Z)  (* l.52: makeObjCWeakReferenceImpl(handle) *)
  | impl_check_lo                (* l.56: meta->counter_ == nullptr, lower word *)
  | impl_check_hi (lo : Z)       (* l.56: upper word, and the test *)
  | impl_make                    (* l.59: makeWeakReferenceCounter(referred) *)
  | impl_install (counter : Z)   (* l.60: UpdateRefIfNull(&meta->counter_, counter) *)
  | impl_return_lo               (* l.62: RETURN_OBJ(meta->counter_), lower word *)
  | impl_return_hi (lo : Z).     (* l.62: upper word, and the return *)

(** Control points of [Konan_WeakReferenceCounter_get]; [holder] is the
    [ObjHolder] of l.74. *)
Inductive GetPC : Type :=
  | get_lock                     (* l.73 *)
  | get_read_lo                  (* l.74 (l.69 without threads), lower word *)
  | get_read_hi (lo : Z)         (* upper word *)
  | get_unlock (holder : Z).     (* l.75, then l.76 *)

(** Control points of [WeakReferenceCounterClear]. *)
Inductive ClearPC : Type :=
  | clear_lock                   (* l.88 *)
  | clear_write_lo               (* l.89 (l.84 without threads), lower word *)
  | clear_write_hi               (* upper word *)
  | clear_unlock.                (* l.90 *)

Definition Konan_getWeakReferenceImpl
    (rt : Runtime) (referred : ObjRef) (p : ImplPC) (sh : Shared)
    : Event * Next ImplPC * Shared :=
  match p with
  | impl_classify =>
      let answer := IsInstance_theObjCObjectWrapperTypeInfo rt referred in
      (EvIsInstance referred answer,
       Goto (if answer then impl_objc_lo else impl_check_lo), sh)
  | impl_objc_lo =>
      let l := associatedObjectAddress referred in
      let v := load (mem sh) l in
      (EvLoad l v, Goto (impl_objc_hi v), sh)
  | impl_objc_hi lo =>
      let l := upper (associatedObjectAddress referred) in
      let v := load (mem sh) l in
      (EvLoad l v, Goto (impl_objc_call (combine lo v)), sh)
  | impl_objc_call handle =>
      let obj := makeObjCWeakReferenceImpl rt handle in
      (EvMakeObjC handle obj, Return (RObj obj), sh)
  | impl_check_lo =>
      let l := counterCacheAddress referred in
      let v := load (mem sh) l in
      (EvLoad l v, Goto (impl_check_hi v), sh)
  | impl_check_hi lo =>
      let l := upper (counterCacheAddress referred) in
      let v := load (mem sh) l in
      (EvLoad l v,
       Goto (if combine lo v =? nullptr then impl_make else impl_return_lo),
       sh)
  | impl_make =>
      let '(counter, sh') := makeWeakReferenceCounter referred sh in
      (EvMakeCounter referred counter, Goto (impl_install counter), sh')
  | impl_install counter =>
      let '(seen, m') :=
        UpdateRefIfNull (mem sh) (counterCacheAddress referred) counter in
      (EvUpdateRefIfNull (counterCacheAddress referred) counter seen,
       Goto impl_return_lo, set_mem sh m')
  | impl_return_lo =>
      let l := counterCacheAddress referred in
      let v := load (mem sh) l in
      (EvLoad l v, Goto (impl_return_hi v), sh)
  | impl_return_hi lo =>
      let l := upper (counterCacheAddress referred) in
      let v := load (mem sh) l in
      (EvLoad l v, Return (RObj (combine lo v)), sh)
  end.

Definition Konan_WeakReferenceCounter_get
    (rt : Runtime) (counter : ObjRef) (p : GetPC) (sh : Shared)
    : Event * Next GetPC * Shared :=
  match p with
  | get_lock =>
      let '(seen, again, m') := lock_iteration (mem sh) (lockAddress counter) in
      (EvCAS (lockAddress counter) 0 1 seen,
       Goto (if again then get_lock else get_read_lo), set_mem sh m')
  | get_read_lo =>
      let l := referredAddress counter in
      let v := load (mem sh) l in
      (EvLoad l v, Goto (get_read_hi v), sh)
  | get_read_hi lo =>
      let l := upper (referredAddress counter) in
      let v := load (mem sh) l in
      (EvLoad l v,
       if KONAN_NO_THREADS rt then Return (RObj (combine lo v))
       else Goto (get_unlock (combine lo v)),
       sh)
  | get_unlock holder =>
      let '(old, n, m') :=
        unlock (mem sh) (lockAddress counter) (Return (RObj holder)) in
      (EvCAS (lockAddress counter) 1 0 old, n, set_mem sh m')
  end.

Definition WeakReferenceCounterClear
    (rt : Runtime) (counter : ObjRef) (p : ClearPC) (sh : Shared)
    : Event * Next ClearPC * Shared :=
  match p with
  | clear_lock =>
      let '(seen, again, m') := lock_iteration (mem sh) (lockAddress counter) in
      (EvCAS (lockAddress counter) 0 1 seen,
       Goto (if again then clear_lock else clear_write_lo), set_mem sh m')
  | clear_write_lo =>
      let l := referredAddress counter in
      (EvStore l (lo_word nullptr), Goto clear_write_hi,
       set_mem sh (store l (lo_word nullptr) (mem sh)))
  | clear_write_hi =>
      let l := upper (referredAddress counter) in
      (EvStore l (hi_word nullptr),
       if KONAN_NO_THREADS rt then Return RVoid else Goto clear_unlock,
       set_mem sh (store l (hi_word nullptr) (mem sh)))
  | clear_unlock =>
      let '(old, n, m') := unlock (mem sh) (lockAddress counter) (Return RVoid) in
      (EvCAS (lockAddress counter) 1 0 old, n, set_mem sh m')
  end.

(** ** Threads *)

Inductive PC : Type :=
  | Idle
  | InImpl (referred : ObjRef) (p : ImplPC)
  | InGet (counter : ObjRef) (p : GetPC)
  | InClear (counter : ObjRef) (p : ClearPC)
  | Returning (c : Call) (r : Result)
  | Aborted (c : Call).

(** A thread: where it is, and the calls it still has to make. *)
Record Thread : Type := mkThread { pc : PC; todo : list Call }.

(** Entering a function: the [#if] branches are chosen here. *)
Definition entry (rt : Runtime) (c : Call) : PC :=
  match c with
  | call_getWeakReferenceImpl referred =>
      InImpl referred (if KONAN_OBJC_INTEROP rt then impl_classify else impl_check_lo)
  | call_get counter =>
      InGet counter (if KONAN_NO_THREADS rt then get_read_lo else get_lock)
  | call_clear counter =>
      InClear counter (if KONAN_NO_THREADS rt then clear_write_lo else clear_lock)
  end.

Definition continue {P : Type} (c : Call) (inside : P -> PC) (n : Next P) : PC :=
  match n with
  | Goto p => inside p
  | Return r => Returning c r
  | Abort => Aborted c
  end.

(** One step of a thread; [None] when it has nothing left to do or has
    aborted. *)
Definition thread_step (rt : Runtime) (t : Thread) (sh : Shared)
    : option (Event * Thread * Shared) :=
  match pc t with
  | Idle =>
      match todo t with
      | [] => None
      | c :: rest => Some (EvInvoke c, {| pc := entry rt c; todo := rest |}, sh)
      end
  | InImpl referred p =>
      let '(e, n, sh') := Konan_getWeakReferenceImpl rt referred p sh in
      Some (e, {| pc := continue (call_getWeakReferenceImpl referred) (InImpl referred) n;
                  todo := todo t |}, sh')
  | InGet counter p =>
      let '(e, n, sh') := Konan_WeakReferenceCounter_get rt counter p sh in
      Some (e, {| pc := continue (call_get counter) (InGet counter) n;
                  todo := todo t |}, sh')
  | InClear counter p =>
      let '(e, n, sh') := WeakReferenceCounterClear rt counter p sh in
      Some (e, {| pc := continue (call_clear counter) (InClear counter) n;
                  todo := todo t |}, sh')
  | Returning c r => Some (EvReturn c r, {| pc := Idle; todo := todo t |}, sh)
  | Aborted _ => None
  end.

(** ** One thread alone: the functions as sequential code *)

Inductive Outcome : Type :=
  | Returned (r : Result) (sh : Shared)
  | AssertFailed (sh : Shared)
  | OutOfFuel.

(** Run from control point [p] until the function returns or aborts. Only
    an idle or an aborted thread cannot step, so the last case is not
    reached from [entry]. *)
Fixpoint exec_call (rt : Runtime) (fuel : nat) (p : PC) (sh : Shared)
    : list Event * Outcome :=
  match fuel with
  | O => ([], OutOfFuel)
  | S fuel' =>
      match p with
      | Returning _ r => ([], Returned r sh)
      | Aborted _ => ([], AssertFailed sh)
      | _ =>
          match thread_step rt {| pc := p; todo := [] |} sh with
          | Some (e, t', sh') =>
              let '(es, o) := exec_call rt fuel' (pc t') sh' in (e :: es, o)
          | None => ([], OutOfFuel)
          end
      end
  end.

(** The outcome of calling [c] in [sh], and the accesses it makes. *)
Definition call (rt : Runtime) (fuel : nat) (c : Call) (sh : Shared) : Outcome :=
  snd (exec_call rt fuel (entry rt c) sh).
Definition call_events (rt : Runtime) (fuel : nat) (c : Call) (sh : Shared) : list Event :=
  fst (exec_call rt fuel (entry rt c) sh).

(** ** Many threads: interleavings *)

Record Config : Type := mkConfig { shared : Shared; threads : list Thread }.

Definition step (rt : Runtime) (i : nat) (cfg : Config) : option (Event * Config) :=
  match threads cfg !! i with
  | Some t =>
      match thread_step rt t (shared cfg) with
      | Some (e, t', sh') =>
          Some (e, {| shared := sh'; threads := <[i := t']> (threads cfg) |})
      | None => None
      end
  | None => None
  end.

(** Run a schedule; a thread that cannot move is skipped. Gives the events
    with the thread that made each, and the final configuration. *)
Fixpoint run (rt : Runtime) (sched : list nat) (cfg : Config)
    : list (nat * Event) * Config :=
  match sched with
  | [] => ([], cfg)
  | i :: sched' =>
      match step rt i cfg with
      | Some (e, cfg') =>
          let '(es, cfg'') := run rt sched' cfg' in ((i, e) :: es, cfg'')
      | None => run rt sched' cfg
      end
  end.

Definition trace (rt : Runtime) (sched : list nat) (cfg : Config) : list (nat * Event) :=
  fst (run rt sched cfg).
Definition final (rt : Runtime) (sched : list nat) (cfg : Config) : Config :=
  snd (run rt sched cfg).

(** ** What is said about states *)

(** What is in the slot of [counter], and its lock word. *)
Definition slot (sh : Shared) (counter : ObjRef) : Z :=
  load_ptr (mem sh) (referredAddress counter).
Definition flag (sh : Shared) (counter : ObjRef) : Z :=
  load (mem sh) (lockAddress counter).

(** [counter]'s slot holds the pointer [p], word for word. *)
Definition slot_holds (sh : Shared) (counter : ObjRef) (p : Z) : Prop :=
  load (mem sh) (referredAddress counter) = lo_word p /\
  load (mem sh) (upper (referredAddress counter)) = hi_word p.

(** Both words of [counter]'s slot are zero: the slot holds [nullptr]. *)
Definition slot_null (sh : Shared) (counter : ObjRef) : Prop :=
  load (mem sh) (referredAddress counter) = 0 /\
  load (mem sh) (upper (referredAddress counter)) = 0.

(** The memory with [counter]'s slot set to [nullptr]. *)
Definition cleared (counter : ObjRef) (m : gmap Loc Z) : gmap Loc Z :=
  store (upper (referredAddress counter)) (hi_word nullptr)
    (store (referredAddress counter) (lo_word nullptr) m).

(** The Counter Cache entry of [referred]: [meta->counter_]. *)
Definition cache (sh : Shared) (referred : ObjRef) : Z :=
  load_ptr (mem sh) (counterCacheAddress referred).

(** The referent is handed to the foreign adapter (l.50-54): the build has
    ObjC interop and the referent is an ObjC object wrapper. *)
Definition foreign (rt : Runtime) (referred : ObjRef) : bool :=
  KONAN_OBJC_INTEROP rt && IsInstance_theObjCObjectWrapperTypeInfo rt referred.

(** All threads are between calls. *)
Definition all_idle (cfg : Config) : Prop :=
  Forall (fun t => pc t = Idle) (threads cfg).

(** *** The accesses of a materialization and of a clear *)

(** A compare-and-swap on [c]'s lock word, or a load of a word of [c]'s
    slot. *)
Definition get_event (c : Z) (e : Event) : bool :=
  match e with
  | EvCAS l _ _ _ => bool_decide (l = lockAddress c)
  | EvLoad l _ =>
      bool_decide (l = referredAddress c) ||
      bool_decide (l = upper (referredAddress c))
  | _ => false
  end.

(** A compare-and-swap on [c]'s lock word, or a plain store of zero into
    a word of [c]'s slot. *)
Definition clear_event (c : Z) (e : Event) : bool :=
  match e with
  | EvCAS l _ _ _ => bool_decide (l = lockAddress c)
  | EvStore l v =>
      (bool_decide (l = referredAddress c) ||
       bool_decide (l = upper (referredAddress c))) && (v =? 0)
  | _ => false
  end.

(** *** The spin lock *)

(** Thread at [p] is between [lock] and [unlock] of [c]'s lock word. *)
Definition holds (c : Z) (p : PC) : bool :=
  match p with
  | InGet c' (get_read_lo | get_read_hi _ | get_unlock _) => c' =? c
  | InClear c' (clear_write_lo | clear_write_hi | clear_unlock) => c' =? c
  | _ => false
  end.

(** Thread at [p] failed the [RuntimeAssert] of an [unlock] on [c]. *)
Definition aborted (c : Z) (p : PC) : bool :=
  match p with
  | Aborted (call_get c') | Aborted (call_clear c') => c' =? c
  | _ => false
  end.

(** Mutual exclusion on the lock word of an allocated Counter [c]. *)
Record lock_inv (c : Z) (cfg : Config) : Prop := mk_lock_inv {
  li_alloc : c < next (shared cfg);
  li_flag : flag (shared cfg) c = 0 \/ flag (shared cfg) c = 1;
  li_held : forall i t,
    threads cfg !! i = Some t -> holds c (pc t) = true -> flag (shared cfg) c = 1;
  li_excl : forall i j ti tj,
    threads cfg !! i = Some ti -> threads cfg !! j = Some tj ->
    holds c (pc ti) = true -> holds c (pc tj) = true -> i = j;
  li_owner : flag (shared cfg) c = 1 ->
    exists i t, threads cfg !! i = Some t /\ holds c (pc t) = true;
  li_ok : forall i t, threads cfg !! i = Some t -> aborted c (pc t) = false
}.

(** [n] rounds of [lock] then [unlock] on one lock word, by one thread
    and with nobody else touching the word: [Some (true, m)] when every
    [RuntimeAssert] held, [Some (false, m)] at the first that failed,
    [None] when a [lock] span until the fuel ran out. *)
Fixpoint lock_unlock_pairs (n fuel : nat) (m : gmap Loc Z) (address : Loc)
    : option (bool * gmap Loc Z) :=
  match n with
  | O => Some (true, m)
  | S n' =>
      match lock fuel m address with
      | None => None
      | Some m1 =>
          let '(_, after, m2) := unlock m1 address (Return RVoid : Next unit) in
          match after with
          | Abort => Some (false, m2)
          | _ => lock_unlock_pairs n' fuel m2 address
          end
      end
  end.

(** *** Invalidation *)

Definition is_null_result (r : Result) : bool :=
  match r with
  | RObj obj => obj =? nullptr
  | RVoid => false
  end.

(** Thread at [p] is inside a materialization of [c] and already carries
    something other than [nullptr] that it read from the slot. *)
Definition stale (c : Z) (p : PC) : bool :=
  match p with
  | InGet c' (get_read_hi lo) => (c' =? c) && negb (lo =? 0)
  | InGet c' (get_unlock holder) => (c' =? c) && negb (holder =? nullptr)
  | Returning (call_get c') r => (c' =? c) && negb (is_null_result r)
  | _ => false
  end.

(** How far a thread at [p] has got with clearing [c]'s slot. *)
Definition clear_progress (c : Z) (sh : Shared) (p : PC) : Prop :=
  match p with
  | InClear c' clear_write_hi =>
      c' = c -> load (mem sh) (referredAddress c) = 0
  | InClear c' clear_unlock => c' = c -> slot_null sh c
  | Returning (call_clear c') _ => c' = c -> slot_null sh c
  | _ => True
  end.

(** *** Torn reads *)

(** The slot holds the referent [R] or [nullptr], and not one word of each. *)
Definition consistent (c R : Z) (sh : Shared) : Prop :=
  slot_holds sh c R \/ slot_null sh c.

(** What a thread at [p] knows about [c]'s slot, when the slot started
    out holding [R]. *)
Definition tear_local (c R : Z) (sh : Shared) (p : PC) : Prop :=
  match p with
  | InGet c' get_read_lo => c' = c -> consistent c R sh
  | InGet c' (get_read_hi lo) =>
      c' = c -> lo = load (mem sh) (referredAddress c) /\ consistent c R sh
  | InGet c' (get_unlock holder) =>
      c' = c -> (holder = R \/ holder = nullptr) /\ consistent c R sh
  | InClear c' clear_write_lo => c' = c -> consistent c R sh
  | InClear c' clear_write_hi => c' = c -> load (mem sh) (referredAddress c) = 0
  | InClear c' clear_unlock => c' = c -> consistent c R sh
  | Returning (call_get c') r => c' = c -> r = RObj R \/ r = RObj nullptr
  | _ => True
  end.

Record tear_inv (c R : Z) (cfg : Config) : Prop := mk_tear_inv {
  ti_lock : lock_inv c cfg;
  ti_free : flag (shared cfg) c = 0 -> consistent c R (shared cfg);
  ti_local : forall i t,
    threads cfg !! i = Some t -> tear_local c R (shared cfg) (pc t)
}.

(** *** The Counter Cache *)

(** What a thread at [p] knows about the Cache entry of the native
    referent [r]. *)
Definition cache_local (rt : Runtime) (r : Z) (sh : Shared) (p : PC) : Prop :=
  match p with
  | InImpl r' impl_classify => r' = r -> KONAN_OBJC_INTEROP rt = true
  | InImpl r' impl_objc_lo => r' ≠ r
  | InImpl r' (impl_objc_hi _) => r' ≠ r
  | InImpl r' (impl_objc_call _) => r' ≠ r
  | InImpl r' (impl_check_hi lo) =>
      r' = r -> cache sh r = nullptr -> lo = load (mem sh) (counterCacheAddress r)
  | InImpl r' (impl_install counter) => r' = r -> counter ≠ nullptr
  | InImpl r' impl_return_lo => r' = r -> cache sh r ≠ nullptr
  | InImpl r' (impl_return_hi lo) =>
      r' = r -> cache sh r ≠ nullptr /\ lo = load (mem sh) (counterCacheAddress r)
  | Returning (call_getWeakReferenceImpl r') res =>
      r' = r -> cache sh r ≠ nullptr /\ res = RObj (cache sh r)
  | _ => True
  end.

Record cache_inv (rt : Runtime) (r : Z) (cfg : Config) : Prop := mk_cache_inv {
  ci_alloc : 0 < next (shared cfg);
  ci_local : forall i t,
    threads cfg !! i = Some t -> cache_local rt r (shared cfg) (pc t)
}.

(** The event is an [UpdateRefIfNull] on the Cache entry of [r] that found
    it null, and so wrote it. *)
Definition installs (r : Z) (e : Event) : bool :=
  match e with
  | EvUpdateRefIfNull location _ seen =>
      bool_decide (location = counterCacheAddress r) && (seen =? nullptr)
  | _ => false
  end.

Definition count_installs (r : Z) (tr : list (nat * Event)) : nat :=
  length (filter (fun ie => installs r (snd ie) = true) tr).

(** *** Foreign referents *)

(** What a thread at [p] knows when [r] is a foreign referent whose
    wrapped handle is stored as the words [a], [b]: it is nowhere on the
    native path for [r], and what it has read of the handle is the
    handle. *)
Definition foreign_local (rt : Runtime) (r a b : Z) (p : PC) : Prop :=
  match p with
  | InImpl r' impl_classify => True
  | InImpl r' impl_objc_lo => True
  | InImpl r' (impl_objc_hi lo) => r' = r -> lo = a
  | InImpl r' (impl_objc_call handle) => r' = r -> handle = combine a b
  | InImpl r' _ => r' ≠ r
  | Returning (call_getWeakReferenceImpl r') res =>
      r' = r -> res = RObj (makeObjCWeakReferenceImpl rt (combine a b))
  | _ => True
  end.

Record foreign_inv (rt : Runtime) (r a b : Z) (cfg : Config) : Prop := mk_foreign_inv {
  fi_lo : load (mem (shared cfg)) (associatedObjectAddress r) = a;
  fi_hi : load (mem (shared cfg)) (upper (associatedObjectAddress r)) = b;
  fi_local : forall i t, threads cfg !! i = Some t -> foreign_local rt r a b (pc t)
}.

(** The event reads or writes the Cache entry of [r], or makes a Counter
    for [r]. *)
Definition touches_cache (r : Z) (e : Event) : bool :=
  match e with
  | EvLoad l _ | EvStore l _ | EvCAS l _ _ _ | EvUpdateRefIfNull l _ _ =>
      bool_decide (l = counterCacheAddress r) ||
      bool_decide (l = upper (counterCacheAddress r))
  | EvMakeCounter referred _ => referred =? r
  | _ => false
  end.

(** ** A small heap to run things on *)

(** Threads on, ObjC interop on; object 7 wraps a foreign object. *)
Definition example_runtime : Runtime :=
  {| KONAN_NO_THREADS := false;
     KONAN_OBJC_INTEROP := true;
     IsInstance_theObjCObjectWrapperTypeInfo := fun obj => obj =? 7;
     makeObjCWeakReferenceImpl := fun handle => handle + 1000 |}.

(** Referent 5 has Counter 100 installed; Counter 100 points at 5 and its
    lock word is free. Object 7 wraps the foreign handle 77. Object 6 has
    no Counter yet. *)
Definition example_memory : gmap Loc Z :=
  store_ptr (counterCacheAddress 5) 100
    (store_ptr (referredAddress 100) 5
       (store (lockAddress 100) 0
          (store_ptr (associatedObjectAddress 7) 77 ∅))).

Definition example_heap : Shared := {| mem := example_memory; next := 101 |}.

(** One thread clears Counter 100, two others materialize it. *)
Definition example_config : Config :=
  {| shared := example_heap;
     threads := [ {| pc := Idle; todo := [call_clear 100] |};
                  {| pc := Idle; todo := [call_get 100; call_get 100; call_get 100] |};
                  {| pc := Idle; todo := [call_get 100] |} ] |}.

Definition example_schedule : list nat :=
  [1; 0; 1; 2; 1; 0; 1; 2; 1; 0; 0; 1; 0; 2; 0; 2; 0; 1; 2; 1; 2; 1; 2; 1; 2; 1; 1; 1; 1]%nat.

(** Three threads ask for a weak reference to object 6, which has no
    Counter yet; the first two both find the Cache entry null and both
    make a candidate. *)
Definition acquire_config : Config :=
  {| shared := example_heap;
     threads := [ {| pc := Idle; todo := [call_getWeakReferenceImpl 6] |};
                  {| pc := Idle; todo := [call_getWeakReferenceImpl 6] |};
                  {| pc := Idle; todo := [call_getWeakReferenceImpl 6] |} ] |}.

Definition acquire_schedule : list nat :=
  [0; 1; 0; 1; 0; 1; 0; 1; 0; 1; 1; 0; 2; 2; 0; 2; 0; 2; 0; 1; 2; 1; 2; 1; 2]%nat.

(** Two threads ask for a weak reference to the wrapper 7, a third for
    one to the native object 6. *)
Definition foreign_config : Config :=
  {| shared := example_heap;
     threads := [ {| pc := Idle; todo := [call_getWeakReferenceImpl 7] |};
                  {| pc := Idle; todo := [call_getWeakReferenceImpl 6] |};
                  {| pc := Idle; todo := [call_getWeakReferenceImpl 7] |} ] |}.

Definition foreign_schedule : list nat :=
  [0; 1; 2; 0; 1; 2; 0; 1; 2; 0; 1; 2; 0; 1; 2; 0; 1; 2; 1; 1; 1; 1]%nat.

(** Counter 200 points at an object above the 4 GB line, so that both
    words of its slot are non-zero; one thread materializes it and one
    clears it. *)
Definition racy_heap : Shared :=
  {| mem := store_ptr (referredAddress 200) (2 ^ 32 + 5) (store (lockAddress 200) 0 ∅);
     next := 201 |}.

Definition racy_config : Config :=
  {| shared := racy_heap;
     threads := [ {| pc := Idle; todo := [call_get 200] |};
                  {| pc := Idle; todo := [call_clear 200] |} ] |}.

(** The reader reads the lower word, the writer clears both, the reader
    reads the upper word. *)
Definition racy_schedule : list nat := [0; 1; 0; 1; 1; 0; 0]%nat.

(** ** Progress, and what a run never does *)

(** How often thread [i] is given a turn by a schedule. *)
Fixpoint turns (i : nat) (sched : list nat) : nat :=
  match sched with
  | [] => 0%nat
  | j :: sched' => ((if Nat.eqb j i then 1 else 0) + turns i sched')%nat
  end.

(** The call is a materialization or a clear of [c]. *)
Definition call_on (c : Z) (cl : Call) : bool :=
  match cl with
  | call_get c' | call_clear c' => c' =? c
  | call_getWeakReferenceImpl _ => false
  end.

(** Thread [t] is inside a materialization or a clear of [c], or still
    has one to make. *)
Definition uses (c : Z) (t : Thread) : bool :=
  match pc t with
  | InGet c' _ | InClear c' _ => c' =? c
  | _ => false
  end || existsb (call_on c) (todo t).

(** Thread at [p] is in the loop of [lock] on [c]'s lock word. *)
Definition waits (c : Z) (p : PC) : bool :=
  match p with
  | InGet c' get_lock | InClear c' clear_lock => c' =? c
  | _ => false
  end.

(** The steps a thread between [lock] and [unlock] has left up to and
    with the compare-and-swap of its [unlock]. *)
Definition section_left (p : PC) : nat :=
  match p with
  | InGet _ get_read_lo | InClear _ clear_write_lo => 3
  | InGet _ (get_read_hi _) | InClear _ clear_write_hi => 2
  | InGet _ (get_unlock _) | InClear _ clear_unlock => 1
  | _ => 0
  end.

(** The most steps [Konan_getWeakReferenceImpl] takes from a control
    point up to and with its return. *)
Definition impl_left (p : ImplPC) : nat :=
  match p with
  | impl_classify => 8
  | impl_check_lo => 7
  | impl_check_hi _ => 6
  | impl_make => 5
  | impl_install _ => 4
  | impl_return_lo => 3
  | impl_return_hi _ => 2
  | impl_objc_lo => 4
  | impl_objc_hi _ => 3
  | impl_objc_call _ => 2
  end.

(** Thread at [p] is inside the call [cl], or about to return from it. *)
Definition making (cl : Call) (p : PC) : Prop :=
  match p with
  | InImpl r _ => cl = call_getWeakReferenceImpl r
  | InGet c _ => cl = call_get c
  | InClear c _ => cl = call_clear c
  | Returning cl' _ => cl' = cl
  | _ => False
  end.

(** The most steps a call takes from a control point up to and with its
    return, when a [lock] on the way succeeds at its first turn. *)
Definition return_left (rt : Runtime) (p : PC) : nat :=
  match p with
  | InImpl _ ip => impl_left ip
  | InGet _ get_lock | InClear _ clear_lock => 5
  | InGet _ get_read_lo | InClear _ clear_write_lo =>
      if KONAN_NO_THREADS rt then 3 else 4
  | InGet _ (get_read_hi _) | InClear _ clear_write_hi =>
      if KONAN_NO_THREADS rt then 2 else 3
  | InGet _ (get_unlock _) | InClear _ clear_unlock => 2
  | Returning _ _ => 1
  | _ => 0
  end.

(** Thread at [p] is at a [lock] or an [unlock], or has failed the
    assertion of one. *)
Definition at_lock (p : PC) : bool :=
  match p with
  | InGet _ (get_lock | get_unlock _) | InClear _ (clear_lock | clear_unlock) => true
  | Aborted _ => true
  | _ => false
  end.

Definition is_cas (e : Event) : bool :=
  match e with
  | EvCAS _ _ _ _ => true
  | _ => false
  end.

(** What a materialization returns when the words of the slot are [lo0]
    and [hi0]; a clear returns nothing. *)
Definition expected (cl : Call) (lo0 hi0 : Z) : Result :=
  match cl with
  | call_get _ => RObj (combine lo0 hi0)
  | _ => RVoid
  end.

(** Thread at [p] is in a materialization or a clear of a Counter [c]
    that no other thread uses: the lock word is free while the thread is
    still to take it and held once it has, and a materialization finds
    the words [lo0] and [hi0] in the slot. *)
Definition alone_local (c lo0 hi0 : Z) (sh : Shared) (p : PC) : Prop :=
  match p with
  | InGet c' gp =>
      c' = c /\
      load (mem sh) (referredAddress c) = lo0 /\
      load (mem sh) (upper (referredAddress c)) = hi0 /\
      match gp with
      | get_lock => flag sh c = 0
      | get_read_lo => flag sh c = 1
      | get_read_hi lo => flag sh c = 1 /\ lo = lo0
      | get_unlock holder => flag sh c = 1 /\ holder = combine lo0 hi0
      end
  | InClear c' cp =>
      c' = c /\ flag sh c = (match cp with clear_lock => 0 | _ => 1 end)
  | Returning cl r => r = expected cl lo0 hi0
  | _ => False
  end.

(** The event makes a Counter for [r], or is an [UpdateRefIfNull] on the
    Cache entry of [r]. *)
Definition allocates_for (r : Z) (e : Event) : bool :=
  match e with
  | EvMakeCounter referred _ => referred =? r
  | EvUpdateRefIfNull location _ _ => bool_decide (location = counterCacheAddress r)
  | _ => false
  end.

(** What a thread at [p] knows about the Cache entry of [r] once it is
    set: it is not about to make or install a Counter for [r], and the
    word it has read is the one in memory. *)
Definition hit_local (r : Z) (sh : Shared) (p : PC) : Prop :=
  match p with
  | InImpl r' (impl_check_hi lo) =>
      r' = r -> lo = load (mem sh) (counterCacheAddress r)
  | InImpl r' impl_make => r' ≠ r
  | InImpl r' (impl_install _) => r' ≠ r
  | _ => True
  end.

(** The event belongs to the ObjC branch of l.50-54: the type test, a
    load of a word of [meta->associatedObject_], the call of the adapter. *)
Definition interop_event (e : Event) : bool :=
  match e with
  | EvIsInstance _ _ | EvMakeObjC _ _ => true
  | EvLoad (_, associatedObject_, _) _ => true
  | _ => false
  end.

(** Thread at [p] is in the ObjC branch of l.50-54. *)
Definition in_interop (p : PC) : bool :=
  match p with
  | InImpl _ (impl_classify | impl_objc_lo | impl_objc_hi _ | impl_objc_call _) => true
  | _ => false
  end.

(** Counter 300 points at object 8; its lock word holds 2, which neither
    [lock] nor [unlock] ever writes. *)
Definition corrupt_heap : Shared :=
  {| mem := store_ptr (referredAddress 300) 8 (store (lockAddress 300) 2 ∅);
     next := 301 |}.

(** Counter 100 with its lock word held by nobody who is running. *)
Definition held_heap : Shared :=
  {| mem := store (lockAddress 100) 1 example_memory; next := 101 |}.

(** One thread materializes Counter 100 while a second spins on the lock
    word of Counter 101, which is held by nobody who is running, and a
    third asks for a weak reference to object 6. *)
Definition busy_config : Config :=
  {| shared := {| mem := store (lockAddress 101) 1 example_memory; next := 102 |};
     threads := [ {| pc := InGet 100 get_lock; todo := [] |};
                  {| pc := InClear 101 clear_lock; todo := [] |};
                  {| pc := Idle; todo := [call_getWeakReferenceImpl 6] |} ] |}.

Definition busy_schedule : list nat :=
  [1; 0; 2; 0; 1; 0; 2; 0; 1; 0; 2]%nat.

(** Two threads ask, three times in all, for a weak reference to object
    5, whose Counter is installed. *)
Definition reuse_config : Config :=
  {| shared := example_heap;
     threads := [ {| pc := Idle;
                     todo := [call_getWeakReferenceImpl 5; call_getWeakReferenceImpl 5] |};
                  {| pc := Idle; todo := [call_getWeakReferenceImpl 5] |} ] |}.

Definition reuse_schedule : list nat :=
  [0; 1; 0; 1; 0; 1; 0; 1; 0; 1; 0; 1; 0; 1; 0; 1; 0; 0; 0; 0; 0; 0; 0]%nat.

(** The example runtime built without ObjC interop: object 7 is still an
    ObjC object wrapper for [IsInstance]. *)
Definition native_runtime : Runtime :=
  {| KONAN_NO_THREADS := false;
     KONAN_OBJC_INTEROP := false;
     IsInstance_theObjCObjectWrapperTypeInfo := fun obj => obj =? 7;
     makeObjCWeakReferenceImpl := fun handle => handle + 1000 |}.

(** The event makes a Counter for [r]. *)
Definition makes_for (r : Z) (e : Event) : bool :=
  match e with
  | EvMakeCounter referred _ => referred =? r
  | _ => false
  end.

(** How many Counters are made for [r] in a trace, by thread [i] and by
    all threads. *)
Definition count_makes_by (i : nat) (r : Z) (tr : list (nat * Event)) : nat :=
  length (filter (fun ie => fst ie = i /\ makes_for r (snd ie) = true) tr).

Definition count_makes (r : Z) (tr : list (nat * Event)) : nat :=
  length (filter (fun ie => makes_for r (snd ie) = true) tr).

(** What holds of a thread at [p] from the moment it has made a Counter
    for [r]: it is about to install it, or the Cache entry is set. *)
Definition made_local (r : Z) (sh : Shared) (p : PC) : Prop :=
  (exists counter, p = InImpl r (impl_install counter) /\ counter ≠ nullptr) \/
  (cache sh r ≠ nullptr /\ hit_local r sh p).

(** ** Words, locations, memory *)

Lemma load_store_eq (m : gmap Loc Z) (l : Loc) (v : Z) : load (store l v m) l = v.
Proof. unfold load, store. by rewrite lookup_insert_eq. Qed.

Lemma load_store_ne (m : gmap Loc Z) (l l' : Loc) (v : Z) :
  l ≠ l' -> load (store l v m) l' = load m l'.
Proof. intros Hne. unfold load, store. by rewrite lookup_insert_ne. Qed.

Lemma load_store (m : gmap Loc Z) (l l' : Loc) (v : Z) :
  load (store l v m) l' = if decide (l = l') then v else load m l'.
Proof.
  case_decide as Hl.
  - subst l'. apply load_store_eq.
  - by apply load_store_ne.
Qed.

Lemma combine_words (p : Z) : combine (lo_word p) (hi_word p) = p.
Proof.
  unfold combine, lo_word, hi_word.
  pose proof (Z.div_mod p (2 ^ 32)) as H. lia.
Qed.

Lemma lo_word_nullptr : lo_word nullptr = 0.
Proof. reflexivity. Qed.

Lemma hi_word_nullptr : hi_word nullptr = 0.
Proof. reflexivity. Qed.

Lemma upper_ne (l : Loc) : upper l ≠ l.
Proof. destruct l as [[obj f] off]. unfold upper. intros [=]. lia. Qed.

Lemma load_ptr_store_ptr (m : gmap Loc Z) (l : Loc) (p : Z) :
  load_ptr (store_ptr l p m) l = p.
Proof.
  unfold load_ptr, store_ptr.
  rewrite load_store_eq, load_store_ne by apply upper_ne.
  rewrite load_store_eq. apply combine_words.
Qed.

(** The lock word of a Counter is apart from the words of any slot. *)
Lemma lock_ne_referred (c c' : Z) : lockAddress c ≠ referredAddress c'.
Proof. unfold lockAddress, referredAddress. intros [=]. Qed.

Lemma lock_ne_upper_referred (c c' : Z) : lockAddress c ≠ upper (referredAddress c').
Proof. unfold lockAddress, referredAddress, upper. intros [=]. Qed.

Lemma referredAddress_inj (c c' : Z) : referredAddress c = referredAddress c' -> c = c'.
Proof. unfold referredAddress. by intros [=]. Qed.

Lemma upper_referredAddress_inj (c c' : Z) :
  upper (referredAddress c) = upper (referredAddress c') -> c = c'.
Proof. unfold referredAddress, upper. by intros [=]. Qed.

(** Decide that two locations built from the address functions differ,
    by their regions, their offsets, or the objects they belong to. *)
Ltac loc_neq :=
  solve [ unfold lockAddress, referredAddress, counterCacheAddress,
            associatedObjectAddress, upper, lockOffset, referredOffset,
            sizeof_voidp;
          let H := fresh in intros H; injection H; intros; lia
        | unfold lockAddress, referredAddress, counterCacheAddress,
            associatedObjectAddress, upper, lockOffset, referredOffset,
            sizeof_voidp;
          let H := fresh in intros H; discriminate H ].

Ltac mem_simpl :=
  repeat first
    [ rewrite load_store_eq
    | rewrite load_store_ne by loc_neq ].

Lemma cleared_idem (c : Z) (m : gmap Loc Z) : cleared c (cleared c m) = cleared c m.
Proof.
  apply map_eq. intros l. unfold cleared, store.
  repeat (rewrite lookup_insert; case_decide); done.
Qed.

Lemma locked_clear_idem (c : Z) (m : gmap Loc Z) :
  store (lockAddress c) 0
    (cleared c (store (lockAddress c) 1
       (store (lockAddress c) 0 (cleared c (store (lockAddress c) 1 m))))) =
  store (lockAddress c) 0 (cleared c (store (lockAddress c) 1 m)).
Proof.
  apply map_eq. intros l. unfold cleared, store.
  repeat (rewrite lookup_insert; case_decide); done.
Qed.

Lemma load_cleared (c : Z) (m : gmap Loc Z) (l : Loc) :
  load (cleared c m) l =
    if decide (l = referredAddress c \/ l = upper (referredAddress c)) then 0
    else load m l.
Proof.
  unfold cleared. rewrite hi_word_nullptr, lo_word_nullptr, !load_store.
  repeat case_decide; try done; exfalso; intuition congruence.
Qed.

Lemma load_unlocked_cleared (c : Z) (m : gmap Loc Z) (l : Loc) :
  load m (lockAddress c) = 0 ->
  load (store (lockAddress c) 0 (cleared c (store (lockAddress c) 1 m))) l =
  load (cleared c m) l.
Proof.
  intros Hfree. rewrite load_store. case_decide as Hl.
  - subst l. rewrite load_cleared. case_decide as Hs; [| done].
    destruct Hs as [Hs | Hs]; [by apply lock_ne_referred in Hs |
                               by apply lock_ne_upper_referred in Hs].
  - rewrite !load_cleared. case_decide; [done |]. by apply load_store_ne.
Qed.

Lemma load_relocked (c : Z) (m : gmap Loc Z) (l : Loc) :
  load m (lockAddress c) = 0 ->
  load (store (lockAddress c) 0 (store (lockAddress c) 1 m)) l = load m l.
Proof.
  intros Hfree. rewrite !load_store. by repeat case_decide; subst.
Qed.

Lemma slot_null_slot (sh : Shared) (c : Z) : slot_null sh c -> slot sh c = nullptr.
Proof. intros [Hlo Hhi]. unfold slot, load_ptr. by rewrite Hlo, Hhi. Qed.

Lemma slot_null_cleared (c : Z) (sh : Shared) (m : gmap Loc Z) :
  (forall l, load (mem sh) l = load (cleared c m) l) -> slot_null sh c.
Proof.
  intros H. unfold slot_null. rewrite !H, !load_cleared.
  split; case_decide; tauto.
Qed.

Lemma cache_frame (r : Z) (sh sh' : Shared) :
  load (mem sh') (counterCacheAddress r) = load (mem sh) (counterCacheAddress r) ->
  load (mem sh') (upper (counterCacheAddress r)) =
    load (mem sh) (upper (counterCacheAddress r)) ->
  cache sh' r = cache sh r.
Proof. unfold cache, load_ptr. by intros -> ->. Qed.

(** ** The primitives *)

Lemma lock_iteration_free (m : gmap Loc Z) (a : Loc) :
  load m a = 0 -> lock_iteration m a = (0, false, store a 1 m).
Proof.
  intros H. unfold lock_iteration, sync_val_compare_and_swap. by rewrite H.
Qed.

Lemma lock_iteration_held (m : gmap Loc Z) (a : Loc) :
  load m a = 1 -> lock_iteration m a = (1, true, m).
Proof.
  intros H. unfold lock_iteration, sync_val_compare_and_swap. by rewrite H.
Qed.

Lemma unlock_held {P : Type} (m : gmap Loc Z) (a : Loc) (rest : Next P) :
  load m a = 1 -> unlock m a rest = (1, rest, store a 0 m).
Proof.
  intros H. unfold unlock, sync_val_compare_and_swap. by rewrite H.
Qed.

Lemma unlock_not_held {P : Type} (m : gmap Loc Z) (a : Loc) (rest : Next P) :
  load m a ≠ 1 -> unlock m a rest = (load m a, Abort, m).
Proof.
  intros H. unfold unlock, sync_val_compare_and_swap, RuntimeAssert.
  by destruct (Z.eqb_spec (load m a) 1).
Qed.

Lemma lock_free (fuel : nat) (m : gmap Loc Z) (a : Loc) :
  load m a = 0 -> lock (S fuel) m a = Some (store a 1 m).
Proof. intros H. cbn [lock]. by rewrite lock_iteration_free. Qed.

(** Alone in front of a held lock, [lock] never comes back. *)
Lemma lock_held (fuel : nat) (m : gmap Loc Z) (a : Loc) :
  load m a = 1 -> lock fuel m a = None.
Proof.
  intros H. induction fuel as [| fuel IH]; [done |].
  cbn [lock]. by rewrite lock_iteration_held.
Qed.

Lemma lock_unlock_pairs_ok (n fuel : nat) (m : gmap Loc Z) (a : Loc) :
  load m a = 0 ->
  exists m', lock_unlock_pairs n (S fuel) m a = Some (true, m') /\ load m' a = 0.
Proof.
  revert m. induction n as [| n IH]; intros m Hfree.
  - by exists m.
  - cbn [lock_unlock_pairs]. rewrite lock_free by done.
    rewrite unlock_held by apply load_store_eq.
    apply IH, load_store_eq.
Qed.

Lemma UpdateRefIfNull_null (m : gmap Loc Z) (l : Loc) (obj : Z) :
  load_ptr m l = nullptr -> UpdateRefIfNull m l obj = (nullptr, store_ptr l obj m).
Proof. intros H. unfold UpdateRefIfNull. by rewrite H. Qed.

Lemma load_ptr_make_counter (m : gmap Loc Z) (n r r' : Z) :
  load_ptr (store (lockAddress n) 0 (store_ptr (referredAddress n) r m))
    (counterCacheAddress r') = load_ptr m (counterCacheAddress r').
Proof. unfold load_ptr, store_ptr. by mem_simpl. Qed.

(** ** One thread alone *)

#[local] Arguments lock_iteration : simpl never.
#[local] Arguments UpdateRefIfNull : simpl never.
#[local] Arguments load : simpl never.
#[local] Arguments store : simpl never.
#[local] Arguments combine : simpl never.
#[local] Arguments lockAddress : simpl never.
#[local] Arguments referredAddress : simpl never.
#[local] Arguments counterCacheAddress : simpl never.
#[local] Arguments associatedObjectAddress : simpl never.
#[local] Arguments upper : simpl never.
#[local] Arguments lo_word : simpl never.
#[local] Arguments hi_word : simpl never.

(** With threads and the lock word free, a materialization takes the
    lock, reads the two words, gives the lock back and returns the slot. *)
Lemma get_threads_free (rt : Runtime) (fuel : nat) (c : Z) (sh : Shared) :
  KONAN_NO_THREADS rt = false ->
  flag sh c = 0 ->
  exec_call rt (5 + fuel) (entry rt (call_get c)) sh =
    ([EvCAS (lockAddress c) 0 1 0;
      EvLoad (referredAddress c) (load (mem sh) (referredAddress c));
      EvLoad (upper (referredAddress c)) (load (mem sh) (upper (referredAddress c)));
      EvCAS (lockAddress c) 1 0 1],
     Returned (RObj (slot sh c))
       (set_mem sh (store (lockAddress c) 0 (store (lockAddress c) 1 (mem sh))))).
Proof.
  intros Hrt Hfree. unfold flag in Hfree.
  simpl. rewrite Hrt. simpl. rewrite Hfree. simpl.
  rewrite Hrt. simpl. mem_simpl. simpl.
  reflexivity.
Qed.

(** Without threads it reads the two words and returns the slot. *)
Lemma get_no_threads (rt : Runtime) (fuel : nat) (c : Z) (sh : Shared) :
  KONAN_NO_THREADS rt = true ->
  exec_call rt (3 + fuel) (entry rt (call_get c)) sh =
    ([EvLoad (referredAddress c) (load (mem sh) (referredAddress c));
      EvLoad (upper (referredAddress c)) (load (mem sh) (upper (referredAddress c)))],
     Returned (RObj (slot sh c)) sh).
Proof.
  intros Hrt. simpl. rewrite Hrt. simpl. rewrite Hrt. reflexivity.
Qed.

Lemma clear_threads_free (rt : Runtime) (fuel : nat) (c : Z) (sh : Shared) :
  KONAN_NO_THREADS rt = false ->
  flag sh c = 0 ->
  exec_call rt (5 + fuel) (entry rt (call_clear c)) sh =
    ([EvCAS (lockAddress c) 0 1 0;
      EvStore (referredAddress c) (lo_word nullptr);
      EvStore (upper (referredAddress c)) (hi_word nullptr);
      EvCAS (lockAddress c) 1 0 1],
     Returned RVoid
       (set_mem sh (store (lockAddress c) 0
                      (cleared c (store (lockAddress c) 1 (mem sh)))))).
Proof.
  intros Hrt Hfree. unfold flag in Hfree.
  simpl. rewrite Hrt. simpl. rewrite Hfree. simpl.
  rewrite Hrt. simpl. mem_simpl. simpl.
  reflexivity.
Qed.

Lemma clear_no_threads (rt : Runtime) (fuel : nat) (c : Z) (sh : Shared) :
  KONAN_NO_THREADS rt = true ->
  exec_call rt (3 + fuel) (entry rt (call_clear c)) sh =
    ([EvStore (referredAddress c) (lo_word nullptr);
      EvStore (upper (referredAddress c)) (hi_word nullptr)],
     Returned RVoid (set_mem sh (cleared c (mem sh)))).
Proof.
  intros Hrt. simpl. rewrite Hrt. simpl. rewrite Hrt. reflexivity.
Qed.

(** Alone in front of a held lock a thread spins until the fuel is gone. *)
Lemma get_spins (rt : Runtime) (fuel : nat) (c : Z) (sh : Shared) :
  flag sh c = 1 ->
  snd (exec_call rt fuel (InGet c get_lock) sh) = OutOfFuel.
Proof.
  intros Hheld. induction fuel as [| fuel IH]; [done |].
  cbn [exec_call thread_step pc todo Konan_WeakReferenceCounter_get].
  rewrite lock_iteration_held by done. cbn [continue pc].
  replace (set_mem sh (mem sh)) with sh by (by destruct sh).
  destruct (exec_call rt fuel (InGet c get_lock) sh). by cbn in *.
Qed.

Lemma clear_spins (rt : Runtime) (fuel : nat) (c : Z) (sh : Shared) :
  flag sh c = 1 ->
  snd (exec_call rt fuel (InClear c clear_lock) sh) = OutOfFuel.
Proof.
  intros Hheld. induction fuel as [| fuel IH]; [done |].
  cbn [exec_call thread_step pc todo WeakReferenceCounterClear].
  rewrite lock_iteration_held by done. cbn [continue pc].
  replace (set_mem sh (mem sh)) with sh by (by destruct sh).
  destruct (exec_call rt fuel (InClear c clear_lock) sh). by cbn in *.
Qed.

(** Case on the tests a hypothesis makes, simplifying as it goes. *)
Ltac split_tests H :=
  repeat match type of H with
    | context [load (store ?l _ _) ?l'] =>
        rewrite !load_store_ne in H by loc_neq; simpl in H
    | context [?a =? ?b] => destruct (Z.eqb_spec a b); try done; simpl in H
    end.

(** With threads, a materialization or a clear that returns found the
    lock word free: on a held word it spins, on any other value it trips
    the assertion of [unlock]. *)
Lemma get_returned_free (rt : Runtime) (fuel : nat) (c : Z) (sh sh' : Shared) (r : Result) :
  KONAN_NO_THREADS rt = false ->
  call rt fuel (call_get c) sh = Returned r sh' ->
  flag sh c = 0.
Proof.
  intros Hrt Hcall. unfold call in Hcall. cbn [entry] in Hcall. rewrite Hrt in Hcall.
  destruct (Z.eq_dec (flag sh c) 1) as [Hone | Hnone].
  { rewrite get_spins in Hcall by done. discriminate. }
  destruct (Z.eq_dec (flag sh c) 0) as [Hzero | Hnzero]; [done |].
  exfalso. unfold flag in *.
  destruct fuel as [| [| [| [| [| fuel]]]]]; simpl in Hcall;
    unfold RuntimeAssert in Hcall; split_tests Hcall;
    rewrite ?Hrt in Hcall; simpl in Hcall;
    unfold RuntimeAssert in Hcall; split_tests Hcall;
    try discriminate Hcall.
Qed.

Lemma clear_returned_free (rt : Runtime) (fuel : nat) (c : Z) (sh sh' : Shared) (r : Result) :
  KONAN_NO_THREADS rt = false ->
  call rt fuel (call_clear c) sh = Returned r sh' ->
  flag sh c = 0.
Proof.
  intros Hrt Hcall. unfold call in Hcall. cbn [entry] in Hcall. rewrite Hrt in Hcall.
  destruct (Z.eq_dec (flag sh c) 1) as [Hone | Hnone].
  { rewrite clear_spins in Hcall by done. discriminate. }
  destruct (Z.eq_dec (flag sh c) 0) as [Hzero | Hnzero]; [done |].
  exfalso. unfold flag in *.
  destruct fuel as [| [| [| [| [| fuel]]]]]; simpl in Hcall;
    unfold RuntimeAssert in Hcall; split_tests Hcall;
    rewrite ?Hrt in Hcall; simpl in Hcall;
    unfold RuntimeAssert in Hcall; split_tests Hcall;
    try discriminate Hcall.
Qed.

(** ** Materialization and clear as sequential code *)

(** C3: clear is idempotent. In either build and from any state: when a
    clear of [c] returns, a second clear from the state it leaves returns
    too and leaves that same state, in which the slot is null; and a
    clear does return when the build has no threads or the lock word is
    free. *)
Theorem clear_idempotent (rt : Runtime) (c : Z) (sh : Shared) (fuel : nat) :
  (forall r sh1,
     call rt (5 + fuel) (call_clear c) sh = Returned r sh1 ->
     call rt (5 + fuel) (call_clear c) sh1 = Returned r sh1 /\ slot_null sh1 c) /\
  (KONAN_NO_THREADS rt = true \/ flag sh c = 0 ->
   exists sh1, call rt (5 + fuel) (call_clear c) sh = Returned RVoid sh1).
Proof.
  split.
  - intros r sh1 Hcall.
    destruct (KONAN_NO_THREADS rt) eqn:Hrt.
    + unfold call in *. change (5 + fuel)%nat with (3 + (2 + fuel))%nat in *.
      rewrite clear_no_threads in * by done. cbn [snd] in *.
      injection Hcall as <- <-. cbn [set_mem mem next].
      rewrite cleared_idem. split; [done |].
      apply (slot_null_cleared c _ (mem sh)). done.
    + pose proof (clear_returned_free _ _ _ _ _ _ Hrt Hcall) as Hfree.
      unfold call in *. rewrite clear_threads_free in Hcall by done.
      cbn [snd] in Hcall. injection Hcall as <- <-.
      rewrite clear_threads_free;
        [| done | unfold flag; cbn [set_mem mem]; apply load_store_eq].
      cbn [snd set_mem mem next]. rewrite locked_clear_idem. split; [done |].
      unfold slot_null. cbn [mem set_mem]. rewrite !load_store_ne by loc_neq.
      rewrite !load_cleared. split; case_decide; tauto.
  - intros Hfree. unfold call.
    destruct (KONAN_NO_THREADS rt) eqn:Hrt.
    + change (5 + fuel)%nat with (3 + (2 + fuel))%nat.
      rewrite clear_no_threads by done. by eexists.
    + destruct Hfree as [? | Hfree]; [done |].
      rewrite clear_threads_free by done. by eexists.
Qed.

Lemma clear_idempotent_witness :
  exists sh1,
    call example_runtime 5 (call_clear 100) example_heap = Returned RVoid sh1 /\
    call example_runtime 5 (call_clear 100) sh1 = Returned RVoid sh1 /\
    slot_null sh1 100.
Proof.
  destruct (clear_idempotent example_runtime 100 example_heap 0) as [Htwice Honce].
  destruct Honce as [sh1 Hcall]; [right; reflexivity |].
  exists sh1. split; [exact Hcall |]. exact (Htwice RVoid sh1 Hcall).
Defined.

(** C4: build-mode equivalence. From any state in which the lock word of
    [c] is free, with one thread running alone: without threads a
    materialization of [c] is two word loads of the slot, returns the
    slot and leaves the state as it is, and a clear is two word stores
    of zero and leaves the state with the slot null; with threads the
    materialization returns the same and the clear returns too, and each
    leaves a memory that agrees at every location with the one the build
    without threads leaves, and the allocator as it was. *)
Theorem build_mode_equivalence
    (rtN rtT : Runtime) (c : Z) (sh : Shared) (fuel : nat) :
  KONAN_NO_THREADS rtN = true ->
  KONAN_NO_THREADS rtT = false ->
  flag sh c = 0 ->
  (call rtN (5 + fuel) (call_get c) sh = Returned (RObj (slot sh c)) sh /\
   call_events rtN (5 + fuel) (call_get c) sh =
     [EvLoad (referredAddress c) (load (mem sh) (referredAddress c));
      EvLoad (upper (referredAddress c)) (load (mem sh) (upper (referredAddress c)))] /\
   exists shT,
     call rtT (5 + fuel) (call_get c) sh = Returned (RObj (slot sh c)) shT /\
     (forall l, load (mem shT) l = load (mem sh) l) /\
     slot shT c = slot sh c /\
     next shT = next sh) /\
  (call rtN (5 + fuel) (call_clear c) sh =
     Returned RVoid (set_mem sh (cleared c (mem sh))) /\
   call_events rtN (5 + fuel) (call_clear c) sh =
     [EvStore (referredAddress c) 0; EvStore (upper (referredAddress c)) 0] /\
   exists shT,
     call rtT (5 + fuel) (call_clear c) sh = Returned RVoid shT /\
     (forall l, load (mem shT) l = load (cleared c (mem sh)) l) /\
     slot shT c = nullptr /\
     slot (set_mem sh (cleared c (mem sh))) c = nullptr /\
     next shT = next sh).
Proof.
  intros HN HT Hfree. unfold call, call_events. split.
  - change (5 + fuel)%nat with (3 + (2 + fuel))%nat at 1 2.
    rewrite get_no_threads, get_threads_free by done.
    split; [reflexivity |]. split; [reflexivity |].
    eexists. split; [reflexivity |].
    cbn [mem set_mem next].
    assert (forall l, load (store (lockAddress c) 0 (store (lockAddress c) 1 (mem sh))) l =
                      load (mem sh) l) as Hsame
      by (intros l; by apply load_relocked).
    split; [done |]. split; [| done].
    unfold slot, load_ptr. cbn [mem]. by rewrite !Hsame.
  - change (5 + fuel)%nat with (3 + (2 + fuel))%nat at 1 2.
    rewrite clear_no_threads, clear_threads_free by done.
    split; [reflexivity |]. split; [reflexivity |].
    eexists. split; [reflexivity |].
    cbn [mem set_mem next].
    assert (forall l,
              load (store (lockAddress c) 0
                      (cleared c (store (lockAddress c) 1 (mem sh)))) l =
              load (cleared c (mem sh)) l) as Hsame
      by (intros l; by apply load_unlocked_cleared).
    split; [done |]. split; [| split; [| done]].
    + apply slot_null_slot. by apply (slot_null_cleared c _ (mem sh)).
    + apply slot_null_slot. by apply (slot_null_cleared c _ (mem sh)).
Qed.

Lemma build_mode_equivalence_witness :
  (call (with_no_threads true example_runtime) 5 (call_get 100) example_heap =
     Returned (RObj (slot example_heap 100)) example_heap /\
   call_events (with_no_threads true example_runtime) 5 (call_get 100) example_heap =
     [EvLoad (referredAddress 100) (load (mem example_heap) (referredAddress 100));
      EvLoad (upper (referredAddress 100))
        (load (mem example_heap) (upper (referredAddress 100)))] /\
   exists shT,
     call example_runtime 5 (call_get 100) example_heap =
       Returned (RObj (slot example_heap 100)) shT /\
     (forall l, load (mem shT) l = load (mem example_heap) l) /\
     slot shT 100 = slot example_heap 100 /\
     next shT = next example_heap) /\
  (call (with_no_threads true example_runtime) 5 (call_clear 100) example_heap =
     Returned RVoid (set_mem example_heap (cleared 100 (mem example_heap))) /\
   call_events (with_no_threads true example_runtime) 5 (call_clear 100) example_heap =
     [EvStore (referredAddress 100) 0; EvStore (upper (referredAddress 100)) 0] /\
   exists shT,
     call example_runtime 5 (call_clear 100) example_heap = Returned RVoid shT /\
     (forall l, load (mem shT) l = load (cleared 100 (mem example_heap)) l) /\
     slot shT 100 = nullptr /\
     slot (set_mem example_heap (cleared 100 (mem example_heap))) 100 = nullptr /\
     next shT = next example_heap).
Proof.
  apply (build_mode_equivalence (with_no_threads true example_runtime) example_runtime
           100 example_heap 0).
  - reflexivity.
  - reflexivity.
  - reflexivity.
Defined.

(** C9: materialization is a pure read of the Counter. In either build
    and from any state: no step of [Konan_WeakReferenceCounter_get] on
    [c] changes the allocator or any location other than [c]'s lock word,
    so the slot stays as it is, and each step is a compare-and-swap on
    the lock word or a load of a word of the slot; when the call
    returns, what it returns is the slot, and the memory is at every
    location what it was; and the call does return when the build has no
    threads or the lock word is free. *)
Theorem get_pure_read (rt : Runtime) (c : Z) (sh : Shared) :
  (forall p e n sh',
     Konan_WeakReferenceCounter_get rt c p sh = (e, n, sh') ->
     next sh' = next sh /\
     (forall l, l ≠ lockAddress c -> load (mem sh') l = load (mem sh) l) /\
     slot sh' c = slot sh c /\
     get_event c e = true) /\
  (forall fuel r sh',
     call rt (5 + fuel) (call_get c) sh = Returned r sh' ->
     r = RObj (slot sh c) /\
     slot sh' c = slot sh c /\
     (forall l, load (mem sh') l = load (mem sh) l) /\
     next sh' = next sh) /\
  (forall fuel,
     KONAN_NO_THREADS rt = true \/ flag sh c = 0 ->
     exists sh', call rt (5 + fuel) (call_get c) sh = Returned (RObj (slot sh c)) sh').
Proof.
  split; [| split].
  - intros p e n sh' Hs.
    assert (next sh' = next sh /\
            (forall l, l ≠ lockAddress c -> load (mem sh') l = load (mem sh) l) /\
            get_event c e = true) as (Hn & Hframe & Hev).
    { destruct p; cbn in Hs; unfold RuntimeAssert in Hs.
      all: repeat match type of Hs with
             | context [if ?b then _ else _] => destruct b
             end.
      all: injection Hs as <- <- <-; cbn [next mem set_mem get_event].
      all: repeat match goal with
             | |- context [if ?b then _ else _] => destruct b
             end.
      all: repeat split; try done.
      all: try (intros l Hl; by rewrite ?load_store_ne).
      all: try (by rewrite bool_decide_eq_true_2).
      all: apply orb_true_iff; right; by apply bool_decide_eq_true_2. }
    repeat split; try done.
    unfold slot, load_ptr.
    rewrite !Hframe; [done | |];
      intros H; symmetry in H;
      [by apply lock_ne_upper_referred in H | by apply lock_ne_referred in H].
  - intros fuel r sh' Hcall.
    destruct (KONAN_NO_THREADS rt) eqn:Hrt.
    + unfold call in Hcall. change (5 + fuel)%nat with (3 + (2 + fuel))%nat in Hcall.
      rewrite get_no_threads in Hcall by done. cbn [snd] in Hcall.
      by injection Hcall as <- <-.
    + pose proof (get_returned_free _ _ _ _ _ _ Hrt Hcall) as Hfree.
      unfold call in Hcall. rewrite get_threads_free in Hcall by done.
      cbn [snd] in Hcall. injection Hcall as <- <-. cbn [mem set_mem next].
      assert (forall l, load (store (lockAddress c) 0 (store (lockAddress c) 1 (mem sh))) l =
                        load (mem sh) l) as Hsame
        by (intros l; by apply load_relocked).
      repeat split; try done.
      unfold slot, load_ptr. cbn [mem]. by rewrite !Hsame.
  - intros fuel Hfree. unfold call.
    destruct (KONAN_NO_THREADS rt) eqn:Hrt.
    + change (5 + fuel)%nat with (3 + (2 + fuel))%nat.
      rewrite get_no_threads by done. by eexists.
    + destruct Hfree as [? | Hfree]; [done |].
      rewrite get_threads_free by done. by eexists.
Qed.

Lemma get_pure_read_witness :
  exists sh',
    call example_runtime 5 (call_get 100) example_heap = Returned (RObj 5) sh' /\
    slot sh' 100 = slot example_heap 100 /\
    (forall l, load (mem sh') l = load (mem example_heap) l) /\
    next sh' = next example_heap.
Proof.
  destruct (get_pure_read example_runtime 100 example_heap) as (_ & Hret & Hdoes).
  destruct (Hdoes 0%nat) as [sh' Hcall]; [right; reflexivity |].
  exists sh'. split; [exact Hcall |].
  destruct (Hret 0%nat _ _ Hcall) as (_ & Hslot & Hmem & Hnext). by repeat split.
Defined.

(** C6: clear is non-owning and frame-limited. In either build and from
    any state: every step of [WeakReferenceCounterClear] on [c] is a
    compare-and-swap on [c]'s lock word or a plain store of zero into a
    word of [c]'s slot, and changes neither the allocator nor any
    location other than those three words, so nothing of the previous
    referent is read or written; when the call returns, the memory is at
    every location what it was with the slot null, the lock word being
    back to what it was; and the call does return when the build has no
    threads or the lock word is free. *)
Theorem clear_non_owning (rt : Runtime) (c : Z) (sh : Shared) :
  (forall p e n sh',
     WeakReferenceCounterClear rt c p sh = (e, n, sh') ->
     next sh' = next sh /\
     (forall l,
        l ≠ lockAddress c -> l ≠ referredAddress c -> l ≠ upper (referredAddress c) ->
        load (mem sh') l = load (mem sh) l) /\
     clear_event c e = true) /\
  (forall fuel r sh',
     call rt (5 + fuel) (call_clear c) sh = Returned r sh' ->
     (forall l, load (mem sh') l = load (cleared c (mem sh)) l) /\
     next sh' = next sh /\
     Forall (fun e => clear_event c e = true)
            (call_events rt (5 + fuel) (call_clear c) sh)) /\
  (forall fuel,
     KONAN_NO_THREADS rt = true \/ flag sh c = 0 ->
     exists sh', call rt (5 + fuel) (call_clear c) sh = Returned RVoid sh').
Proof.
  split; [| split].
  - intros p e n sh' Hs.
    destruct p; cbn in Hs; unfold RuntimeAssert in Hs.
    all: repeat match type of Hs with
           | context [if ?b then _ else _] => destruct b
           end.
    all: injection Hs as <- <- <-; cbn [next mem set_mem clear_event].
    all: repeat match goal with
           | |- context [if ?b then _ else _] => destruct b
           end.
    all: rewrite ?lo_word_nullptr, ?hi_word_nullptr.
    all: repeat split; try done.
    all: try (intros l Hl1 Hl2 Hl3; by rewrite ?load_store_ne).
    all: try (by rewrite bool_decide_eq_true_2).
    all: apply andb_true_iff; split; [| done].
    all: apply orb_true_iff; right; by apply bool_decide_eq_true_2.
  - intros fuel r sh' Hcall.
    destruct (KONAN_NO_THREADS rt) eqn:Hrt.
    + unfold call, call_events in *.
      change (5 + fuel)%nat with (3 + (2 + fuel))%nat in *.
      rewrite clear_no_threads in * by done. cbn [fst snd] in *.
      injection Hcall as <- <-. cbn [mem set_mem next].
      repeat split; try done.
      rewrite lo_word_nullptr, hi_word_nullptr. repeat constructor.
      * cbn. by rewrite bool_decide_eq_true_2.
      * cbn. apply andb_true_iff. split; [| done].
        apply orb_true_iff. right. by apply bool_decide_eq_true_2.
    + pose proof (clear_returned_free _ _ _ _ _ _ Hrt Hcall) as Hfree.
      unfold call, call_events in *.
      rewrite clear_threads_free in * by done. cbn [fst snd] in *.
      injection Hcall as <- <-. cbn [mem set_mem next].
      split; [intros l; by apply load_unlocked_cleared |]. split; [done |].
      rewrite lo_word_nullptr, hi_word_nullptr. repeat constructor.
      * cbn. by rewrite bool_decide_eq_true_2.
      * cbn. by rewrite bool_decide_eq_true_2.
      * cbn. apply andb_true_iff. split; [| done].
        apply orb_true_iff. right. by apply bool_decide_eq_true_2.
      * cbn. by rewrite bool_decide_eq_true_2.
  - intros fuel Hfree. unfold call.
    destruct (KONAN_NO_THREADS rt) eqn:Hrt.
    + change (5 + fuel)%nat with (3 + (2 + fuel))%nat.
      rewrite clear_no_threads by done. by eexists.
    + destruct Hfree as [? | Hfree]; [done |].
      rewrite clear_threads_free by done. by eexists.
Qed.

Lemma clear_non_owning_witness :
  exists sh',
    call example_runtime 5 (call_clear 100) example_heap = Returned RVoid sh' /\
    (forall l, load (mem sh') l = load (cleared 100 (mem example_heap)) l) /\
    next sh' = next example_heap /\
    Forall (fun e => clear_event 100 e = true)
           (call_events example_runtime 5 (call_clear 100) example_heap).
Proof.
  destruct (clear_non_owning example_runtime 100 example_heap) as (_ & Hret & Hdoes).
  destruct (Hdoes 0%nat) as [sh' Hcall]; [right; reflexivity |].
  exists sh'. split; [exact Hcall |]. exact (Hret 0%nat _ _ Hcall).
Defined.

(** ** Interleavings: stepping and running *)

Lemma step_inv (rt : Runtime) (i : nat) (cfg : Config) (e : Event) (cfg' : Config) :
  step rt i cfg = Some (e, cfg') ->
  exists t t' sh',
    threads cfg !! i = Some t /\
    thread_step rt t (shared cfg) = Some (e, t', sh') /\
    cfg' = {| shared := sh'; threads := <[i := t']> (threads cfg) |}.
Proof.
  unfold step. intros H.
  destruct (threads cfg !! i) as [t |] eqn:Ht; [| discriminate].
  destruct (thread_step rt t (shared cfg)) as [[[e0 t'] sh'] |] eqn:Hs; [| discriminate].
  injection H as <- <-. by exists t, t', sh'.
Qed.

(** After thread [i] moved from [t] to [t'], who is at index [j]. *)
Lemma lookup_moved (ts : list Thread) (i j : nat) (t t' tj : Thread) :
  ts !! i = Some t ->
  <[i := t']> ts !! j = Some tj ->
  (j = i /\ tj = t') \/ (j ≠ i /\ ts !! j = Some tj).
Proof.
  intros Hi Hj. destruct (decide (j = i)) as [-> | Hne].
  - left. split; [done |].
    rewrite list_lookup_insert_eq in Hj by (by eapply lookup_lt_Some).
    congruence.
  - right. split; [done |]. by rewrite list_lookup_insert_ne in Hj.
Qed.

Lemma lookup_mover (ts : list Thread) (i : nat) (t t' : Thread) :
  ts !! i = Some t -> <[i := t']> ts !! i = Some t'.
Proof. intros Hi. apply list_lookup_insert_eq. by eapply lookup_lt_Some. Qed.

Lemma lookup_bystander (ts : list Thread) (i j : nat) (t' tj : Thread) :
  j ≠ i -> ts !! j = Some tj -> <[i := t']> ts !! j = Some tj.
Proof. intros Hne Hj. by rewrite list_lookup_insert_ne. Qed.

Lemma run_cons (rt : Runtime) (i : nat) (sched : list nat) (cfg : Config) :
  run rt (i :: sched) cfg =
    match step rt i cfg with
    | Some (e, cfg') =>
        ((i, e) :: trace rt sched cfg', final rt sched cfg')
    | None => run rt sched cfg
    end.
Proof.
  unfold trace, final. simpl.
  destruct (step rt i cfg) as [[e cfg'] |]; [| done].
  by destruct (run rt sched cfg').
Qed.

(** A property kept by every step holds along every schedule, and what
    every step from such a configuration emits holds of the whole trace. *)
Lemma run_invariant (rt : Runtime) (P : Config -> Prop) (Q : nat -> Event -> Prop) :
  (forall i cfg e cfg', P cfg -> step rt i cfg = Some (e, cfg') -> P cfg' /\ Q i e) ->
  forall sched cfg, P cfg ->
    P (final rt sched cfg) /\
    forall i e, In (i, e) (trace rt sched cfg) -> Q i e.
Proof.
  intros Hstep sched. induction sched as [| i sched IH]; intros cfg HP.
  - split; [done |]. intros i e [].
  - unfold final, trace. rewrite run_cons.
    destruct (step rt i cfg) as [[e cfg'] |] eqn:Hs.
    + destruct (Hstep _ _ _ _ HP Hs) as [HP' HQ].
      destruct (IH _ HP') as [IH1 IH2]. simpl. split; [done |].
      intros j e' [Heq | Hin]; [by injection Heq as <- <- | eauto].
    + apply IH, HP.
Qed.

(** Inside a call, a step does not look at what the thread has left to do. *)
Lemma thread_step_busy (rt : Runtime) (p : PC) (td : list Call) (sh : Shared) :
  p ≠ Idle ->
  thread_step rt {| pc := p; todo := td |} sh =
    match thread_step rt {| pc := p; todo := [] |} sh with
    | Some (e, t', sh') => Some (e, {| pc := pc t'; todo := td |}, sh')
    | None => None
    end.
Proof.
  intros Hp. destruct p; try done; unfold thread_step; cbn [pc todo].
  - by destruct (Konan_getWeakReferenceImpl rt referred p sh) as [[e n] sh'].
  - by destruct (Konan_WeakReferenceCounter_get rt counter p sh) as [[e n] sh'].
  - by destruct (WeakReferenceCounterClear rt counter p sh) as [[e n] sh'].
Qed.

Lemma thread_step_not_idle (rt : Runtime) (p : PC) (sh sh' : Shared) (e : Event) (t' : Thread) :
  p ≠ Idle ->
  (forall c r, p ≠ Returning c r) ->
  thread_step rt {| pc := p; todo := [] |} sh = Some (e, t', sh') ->
  pc t' ≠ Idle.
Proof.
  intros Hp Hr Hs. destruct p; try done; unfold thread_step in Hs; cbn [pc todo] in Hs.
  - destruct (Konan_getWeakReferenceImpl rt referred p sh) as [[e0 n] sh0].
    injection Hs as _ <- _. by destruct n.
  - destruct (Konan_WeakReferenceCounter_get rt counter p sh) as [[e0 n] sh0].
    injection Hs as _ <- _. by destruct n.
  - destruct (WeakReferenceCounterClear rt counter p sh) as [[e0 n] sh0].
    injection Hs as _ <- _. by destruct n.
  - by destruct (Hr c r).
Qed.

(** The sequential reading is the interleaving semantics with one thread:
    a call that returns is the run in which that thread takes every step. *)
Lemma call_is_a_run (rt : Runtime) (fuel : nat) (p : PC) (sh sh' : Shared)
    (es : list Event) (r : Result) (td : list Call) :
  p ≠ Idle ->
  exec_call rt fuel p sh = (es, Returned r sh') ->
  exists c,
    run rt (repeat 0%nat (S (length es)))
        {| shared := sh; threads := [ {| pc := p; todo := td |} ] |} =
      (map (pair 0%nat) es ++ [(0%nat, EvReturn c r)],
       {| shared := sh'; threads := [ {| pc := Idle; todo := td |} ] |}).
Proof.
  revert p sh es. induction fuel as [| fuel IH]; intros p sh es Hp Hcall; [done |].
  destruct p as [| referred ip | counter gp | counter cp | c r0 | c]; try done.
  4: { injection Hcall as <- <- <-. by exists c. }
  all: cbn [exec_call] in Hcall.
  all: match type of Hcall with
       | context [thread_step ?rt0 ?t ?sh0] =>
           destruct (thread_step rt0 t sh0) as [[[e t'] sh1] |] eqn:Hs; [| done]
       end.
  all: destruct (exec_call rt fuel (pc t') sh1) as [es' o] eqn:Hrest.
  all: injection Hcall as <- ->.
  all: pose proof (thread_step_not_idle _ _ _ _ _ _ Hp ltac:(done) Hs) as Hp'.
  all: destruct (IH _ _ _ Hp' Hrest) as [c Hrun]; exists c.
  all: cbn [length repeat]; rewrite run_cons; unfold step; cbn [threads shared lookup].
  all: cbn [list_lookup]; rewrite thread_step_busy, Hs by done.
  all: unfold trace, final; cbn [list_insert insert threads].
  all: cbn [length repeat] in Hrun; by rewrite Hrun.
Qed.

Lemma all_idle_lookup (cfg : Config) (i : nat) (t : Thread) :
  all_idle cfg -> threads cfg !! i = Some t -> pc t = Idle.
Proof.
  intros Hall Hi. unfold all_idle in Hall.
  rewrite Forall_lookup in Hall. eauto.
Qed.

(** Split a thread step by control point. *)
Ltac thread_cases H :=
  match type of H with
  | thread_step _ ?t _ = Some _ =>
      let p := fresh "p" in
      let td := fresh "td" in
      destruct t as [p td]; unfold thread_step in H; cbn [pc todo] in H;
      destruct p as [| ? [] | ? [] | ? [] | ? ? | ?];
      [ destruct td as [| [] ?]; [discriminate H | | | ] | .. ];
      try discriminate H;
      simpl in H; unfold RuntimeAssert in H
  end.

(** A return event is made by a thread that was about to return just that. *)
Lemma return_event_cases (rt : Runtime) (t t' : Thread) (sh sh' : Shared)
    (e : Event) (cl : Call) (r : Result) :
  thread_step rt t sh = Some (e, t', sh') ->
  e = EvReturn cl r ->
  pc t = Returning cl r /\ sh' = sh.
Proof.
  intros Hs ->.
  thread_cases Hs.
  all: repeat match type of Hs with
         | context [if ?b then _ else _] => destruct b
         end.
  all: try discriminate Hs.
  by injection Hs as -> -> _ ->.
Qed.

(** ** Invalidation is for good *)

(** No step of any thread turns a zero word of an allocated Counter's
    slot into something else. *)
Lemma slot_words_step (rt : Runtime) (c : Z) (t t' : Thread) (sh sh' : Shared) (e : Event) :
  thread_step rt t sh = Some (e, t', sh') ->
  c < next sh ->
  c < next sh' /\
  (load (mem sh) (referredAddress c) = 0 -> load (mem sh') (referredAddress c) = 0) /\
  (load (mem sh) (upper (referredAddress c)) = 0 ->
   load (mem sh') (upper (referredAddress c)) = 0).
Proof.
  intros Hs Hc.
  thread_cases Hs.
  all: repeat match type of Hs with
         | context [if ?b then _ else _] => destruct b
         end.
  all: injection Hs as <- <- <-.
  all: cbn [pc next set_mem mem]; unfold store_ptr.
  all: split; [simpl; lia |].
  all: split; intros Hz.
  all: repeat match goal with
         | |- context [load (store ?l _ _) ?l'] =>
             rewrite (load_store _ l l'); case_decide
         end.
  all: try done.
  all: match goal with
       | H : referredAddress _ = referredAddress _ |- _ =>
           apply referredAddress_inj in H; lia
       | H : upper (referredAddress _) = upper (referredAddress _) |- _ =>
           apply upper_referredAddress_inj in H; lia
       end.
Qed.

Lemma slot_null_step (rt : Runtime) (c : Z) (i : nat) (cfg cfg' : Config) (e : Event) :
  step rt i cfg = Some (e, cfg') ->
  c < next (shared cfg) /\ slot_null (shared cfg) c ->
  c < next (shared cfg') /\ slot_null (shared cfg') c.
Proof.
  intros Hs [Hc [Hlo Hhi]].
  destruct (step_inv _ _ _ _ _ Hs) as (t & t' & sh' & Hi & Hts & ->).
  destruct (slot_words_step rt c _ _ _ _ _ Hts Hc) as (Hc' & Hlo' & Hhi').
  cbn [shared]. split; [done |]. split; eauto.
Qed.

Lemma slot_null_run (rt : Runtime) (c : Z) (sched : list nat) (cfg : Config) :
  c < next (shared cfg) -> slot_null (shared cfg) c ->
  c < next (shared (final rt sched cfg)) /\ slot_null (shared (final rt sched cfg)) c.
Proof.
  intros Hc Hnull.
  apply (run_invariant rt
           (fun cfg => c < next (shared cfg) /\ slot_null (shared cfg) c)
           (fun _ _ => True)); [| done].
  intros i cfg0 e cfg1 H0 Hs. split; [| done]. by eapply slot_null_step.
Qed.

Lemma clear_progress_mover (rt : Runtime) (c : Z) (t t' : Thread) (sh sh' : Shared)
    (e : Event) :
  thread_step rt t sh = Some (e, t', sh') ->
  clear_progress c sh (pc t) ->
  clear_progress c sh' (pc t').
Proof.
  intros Hs Hp.
  thread_cases Hs.
  all: repeat match type of Hs with
         | context [if ?b then _ else _] => destruct b
         end.
  all: injection Hs as <- <- <-.
  all: cbn [pc clear_progress continue set_mem mem] in *; try done.
  all: unfold slot_null in *; cbn [mem] in *.
  all: intros ->; try specialize (Hp eq_refl).
  all: cbn [mem set_mem]; rewrite ?lo_word_nullptr, ?hi_word_nullptr.
  all: try split; mem_simpl; try done; apply Hp.
Qed.

Lemma clear_progress_bystander (c : Z) (sh sh' : Shared) (p : PC) :
  (load (mem sh) (referredAddress c) = 0 -> load (mem sh') (referredAddress c) = 0) ->
  (load (mem sh) (upper (referredAddress c)) = 0 ->
   load (mem sh') (upper (referredAddress c)) = 0) ->
  clear_progress c sh p ->
  clear_progress c sh' p.
Proof.
  intros Hlo Hhi Hp.
  destruct p as [| ? ? | ? ? | ? [] | [] ? | ?]; cbn [clear_progress] in *; try done.
  all: unfold slot_null in *; intros Heq; specialize (Hp Heq).
  all: try destruct Hp; eauto.
Qed.

(** Where every thread stands with the clears of [c]. *)
Lemma clear_progress_step (rt : Runtime) (c : Z) (i : nat) (cfg cfg' : Config) (e : Event) :
  step rt i cfg = Some (e, cfg') ->
  c < next (shared cfg) /\
  (forall j t, threads cfg !! j = Some t -> clear_progress c (shared cfg) (pc t)) ->
  c < next (shared cfg') /\
  (forall j t, threads cfg' !! j = Some t -> clear_progress c (shared cfg') (pc t)).
Proof.
  intros Hs [Hc Hall].
  destruct (step_inv _ _ _ _ _ Hs) as (t & t' & sh' & Hi & Hts & ->).
  destruct (slot_words_step rt c _ _ _ _ _ Hts Hc) as (Hc' & Hlo' & Hhi').
  cbn [shared threads]. split; [done |].
  intros j tj Hj.
  destruct (lookup_moved _ _ _ _ _ _ Hi Hj) as [[-> ->] | [Hne Hj']].
  - eapply clear_progress_mover; eauto.
  - eapply clear_progress_bystander; eauto.
Qed.

(** Once a clear of [c] has returned, the slot is null. *)
Lemma clear_returned_slot_null (rt : Runtime) (c : Z) (sched : list nat) (cfg : Config)
    (j : nat) (r : Result) :
  c < next (shared cfg) ->
  (forall i t, threads cfg !! i = Some t -> clear_progress c (shared cfg) (pc t)) ->
  In (j, EvReturn (call_clear c) r) (trace rt sched cfg) ->
  c < next (shared (final rt sched cfg)) /\ slot_null (shared (final rt sched cfg)) c.
Proof.
  revert cfg. induction sched as [| i sched IH]; intros cfg Hc Hall Hin; [destruct Hin |].
  unfold trace, final in *. rewrite run_cons in *.
  destruct (step rt i cfg) as [[e cfg'] |] eqn:Hs; [| by apply IH].
  destruct (clear_progress_step _ c _ _ _ _ Hs (conj Hc Hall)) as [Hc' Hall'].
  cbn [fst snd] in *. destruct Hin as [Heq | Hin]; [| by apply IH].
  injection Heq as -> ->.
  destruct (step_inv _ _ _ _ _ Hs) as (t & t' & sh' & Hi & Hts & ->).
  destruct (return_event_cases _ _ _ _ _ _ _ _ Hts eq_refl) as [Hpc ->].
  specialize (Hall _ _ Hi). rewrite Hpc in Hall. cbn [clear_progress] in Hall.
  apply slot_null_run; cbn [shared]; auto.
Qed.

(** A thread that carries nothing stale and finds the slot null carries
    nothing stale after its step, and what it returns from a
    materialization is [nullptr]. *)
Lemma stale_mover (rt : Runtime) (c : Z) (t t' : Thread) (sh sh' : Shared) (e : Event) :
  thread_step rt t sh = Some (e, t', sh') ->
  slot_null sh c ->
  stale c (pc t) = false ->
  stale c (pc t') = false /\
  (forall r, e = EvReturn (call_get c) r -> r = RObj nullptr).
Proof.
  intros Hs [Hlo Hhi] Hst.
  thread_cases Hs.
  all: repeat match type of Hs with
         | context [if ?b then _ else _] => destruct b
         end.
  all: injection Hs as <- <- <-.
  all: cbn [pc stale continue] in *; rewrite ?Hlo, ?Hhi.
  all: split; [| try (intros r' [=]) ]; try done.
  all: repeat match goal with
         | |- context [?a =? ?b] => destruct (Z.eqb_spec a b)
         | H : context [?a =? ?b] |- _ => destruct (Z.eqb_spec a b)
         end.
  all: subst; rewrite ?Hlo, ?Hhi in *; cbn in *; try done; try congruence.
  all: try (exfalso; match goal with n : _ ≠ _ |- _ => apply n; reflexivity end).
  rewrite Z.eqb_refl in Hst. destruct r' as [obj |]; [| done].
  cbn in Hst. destruct (Z.eqb_spec obj nullptr); by subst.
Qed.

(** C1: monotonic invalidation. From a configuration where Counter [c] is
    allocated and every thread is between calls, once some schedule [s1]
    has let a clear of [c] return: the slot is null; along any further
    schedule [s2] it stays null; whatever a thread that was not then in
    the middle of a materialization of [c] with a referent already in
    hand returns from materializing [c] is [nullptr]; and a
    materialization run alone on a null slot (with the lock free, when
    there are threads) does return, [nullptr]. *)
Theorem monotonic_invalidation
    (rt : Runtime) (c : Z) (cfg : Config) (s1 s2 : list nat) (j : nat) (r0 : Result) :
  c < next (shared cfg) ->
  all_idle cfg ->
  In (j, EvReturn (call_clear c) r0) (trace rt s1 cfg) ->
  let cfg1 := final rt s1 cfg in
  slot_null (shared cfg1) c /\
  slot_null (shared (final rt s2 cfg1)) c /\
  (forall i t r,
     threads cfg1 !! i = Some t -> stale c (pc t) = false ->
     In (i, EvReturn (call_get c) r) (trace rt s2 cfg1) -> r = RObj nullptr) /\
  (forall fuel sh,
     slot_null sh c -> KONAN_NO_THREADS rt = true \/ flag sh c = 0 ->
     exists sh', call rt (5 + fuel) (call_get c) sh = Returned (RObj nullptr) sh' /\
                 slot_null sh' c).
Proof.
  intros Hc Hidle Hin cfg1.
  destruct (clear_returned_slot_null rt c s1 cfg j r0 Hc) as [Hc1 Hnull1]; [| done |].
  { intros i t Hi. by rewrite (all_idle_lookup _ _ _ Hidle Hi). }
  fold cfg1 in Hc1, Hnull1.
  split; [done |]. split; [by apply slot_null_run |]. split.
  - intros i t r Hi Hst Hret.
    destruct (run_invariant rt
                (fun cfg => (c < next (shared cfg) /\ slot_null (shared cfg) c) /\
                            forall t, threads cfg !! i = Some t -> stale c (pc t) = false)
                (fun k e => k = i -> forall r, e = EvReturn (call_get c) r -> r = RObj nullptr))
      with (sched := s2) (cfg := cfg1) as [_ Htr].
    + intros k cfg0 e cfg0' [H0 Hfresh] Hs.
      pose proof (slot_null_step _ c _ _ _ _ Hs H0) as H0'.
      destruct (step_inv _ _ _ _ _ Hs) as (tk & tk' & sh' & Hk & Hts & ->).
      cbn [shared threads].
      destruct (decide (k = i)) as [-> | Hne].
      * destruct (stale_mover _ c _ _ _ _ _ Hts (proj2 H0) (Hfresh _ Hk)) as [Hst' Hev].
        split; [split; [done |] | done].
        intros t0 Ht0. rewrite (lookup_mover _ _ _ _ Hk) in Ht0. by injection Ht0 as <-.
      * split; [split; [done |] | done].
        intros t0 Ht0. rewrite list_lookup_insert_ne in Ht0 by done. eauto.
    + split; [done |]. intros t0 Ht0. congruence.
    + by eapply Htr.
  - intros fuel sh Hnull Hfree. unfold call.
    destruct (KONAN_NO_THREADS rt) eqn:Hrt.
    + change (5 + fuel)%nat with (3 + (2 + fuel))%nat.
      rewrite get_no_threads by done.
      exists sh. by rewrite (slot_null_slot _ _ Hnull).
    + destruct Hfree as [? | Hfree]; [done |].
      rewrite get_threads_free by done.
      eexists. rewrite (slot_null_slot _ _ Hnull). split; [reflexivity |].
      destruct Hnull as [Hlo Hhi].
      split; cbn [mem set_mem]; by mem_simpl.
Qed.


Lemma monotonic_invalidation_witness :
  let cfg1 := final example_runtime example_schedule example_config in
  slot_null (shared cfg1) 100 /\
  slot_null (shared (final example_runtime [1; 1; 1; 1; 1; 1]%nat cfg1)) 100 /\
  (forall i t r,
     threads cfg1 !! i = Some t -> stale 100 (pc t) = false ->
     In (i, EvReturn (call_get 100) r) (trace example_runtime [1; 1; 1; 1; 1; 1]%nat cfg1) ->
     r = RObj nullptr) /\
  (forall fuel sh,
     slot_null sh 100 -> KONAN_NO_THREADS example_runtime = true \/ flag sh 100 = 0 ->
     exists sh',
       call example_runtime (5 + fuel) (call_get 100) sh = Returned (RObj nullptr) sh' /\
       slot_null sh' 100).
Proof.
  apply (monotonic_invalidation example_runtime 100 example_config example_schedule
           [1; 1; 1; 1; 1; 1]%nat 0%nat RVoid).
  - reflexivity.
  - repeat constructor.
  - vm_compute. do 16 right. left. reflexivity.
Defined.

(** ** The spin lock *)

Lemma lock_inv_init (c : Z) (cfg : Config) :
  c < next (shared cfg) ->
  flag (shared cfg) c = 0 ->
  all_idle cfg ->
  lock_inv c cfg.
Proof.
  intros Hal Hfree Hidle.
  split; try done.
  - by left.
  - intros i t Hi. by rewrite (all_idle_lookup _ _ _ Hidle Hi).
  - intros i j ti tj Hi _. by rewrite (all_idle_lookup _ _ _ Hidle Hi).
  - intros Hone. rewrite Hfree in Hone. done.
  - intros i t Hi. by rewrite (all_idle_lookup _ _ _ Hidle Hi).
Qed.

(** The compare-and-swap of an [unlock] on [c]'s lock word is made by a
    thread that holds the lock, and sees the word as it is. *)
Lemma unlock_event_cases (rt : Runtime) (c : Z) (t t' : Thread) (sh sh' : Shared)
    (e : Event) (seen : Z) :
  thread_step rt t sh = Some (e, t', sh') ->
  e = EvCAS (lockAddress c) 1 0 seen ->
  holds c (pc t) = true /\ seen = flag sh c.
Proof.
  intros Hs ->.
  thread_cases Hs.
  all: repeat match type of Hs with
         | context [if ?b then _ else _] => destruct b
         end.
  all: try discriminate Hs.
  all: injection Hs as -> <- _ _.
  all: simpl; by rewrite Z.eqb_refl.
Qed.

(** A step of a thread that does not hold [c]'s lock leaves the words of
    [c]'s slot alone. *)
Lemma slot_words_frame (rt : Runtime) (c : Z) (t t' : Thread) (sh sh' : Shared) (e : Event) :
  thread_step rt t sh = Some (e, t', sh') ->
  c < next sh ->
  holds c (pc t) = false ->
  load (mem sh') (referredAddress c) = load (mem sh) (referredAddress c) /\
  load (mem sh') (upper (referredAddress c)) = load (mem sh) (upper (referredAddress c)).
Proof.
  intros Hs Hc Hh.
  thread_cases Hs.
  all: repeat match type of Hs with
         | context [if ?b then _ else _] => destruct b
         end.
  all: injection Hs as <- <- <-.
  all: cbn [pc holds set_mem mem] in *; unfold store_ptr.
  all: split.
  all: repeat match goal with
         | |- context [load (store ?l _ _) ?l'] =>
             rewrite (load_store _ l l'); case_decide
         end.
  all: try done.
  all: match goal with
       | H : referredAddress _ = referredAddress _ |- _ =>
           apply referredAddress_inj in H
       | H : upper (referredAddress _) = upper (referredAddress _) |- _ =>
           apply upper_referredAddress_inj in H
       end.
  all: try lia.
  all: subst; by rewrite Z.eqb_refl in Hh.
Qed.

Section WithThreads.

Variable rt : Runtime.
Hypothesis threads_on : KONAN_NO_THREADS rt = false.
Variable c : Z.

(** What a step of any thread does to [c]'s lock word and to the thread's
    standing with respect to it: it keeps both, or takes the lock, or
    gives it back. *)
Lemma lock_step_cases (t t' : Thread) (sh sh' : Shared) (e : Event) :
  thread_step rt t sh = Some (e, t', sh') ->
  c < next sh ->
  c < next sh' /\
  ( (holds c (pc t') = holds c (pc t) /\ flag sh' c = flag sh c /\
     aborted c (pc t') = aborted c (pc t))
  \/ (holds c (pc t) = false /\ holds c (pc t') = true /\
      aborted c (pc t') = aborted c (pc t) /\
      flag sh c ≠ 1 /\ (flag sh c = 0 -> flag sh' c = 1))
  \/ (holds c (pc t) = true /\ holds c (pc t') = false /\ aborted c (pc t) = false /\
      (flag sh c = 1 -> flag sh' c = 0 /\ aborted c (pc t') = false)) ).
Proof.
  intros Hs Hc.
  thread_cases Hs; rewrite ?threads_on in Hs; simpl in Hs.
  all: injection Hs as <- <- <-.
  all: cbn [pc next set_mem mem].
  all: unfold flag; cbn [mem set_mem]; unfold store_ptr.
  all: repeat match goal with
         | |- context [?a =? ?b] => destruct (Z.eqb_spec a b)
         | |- context [if ?b then _ else _] => destruct b eqn:?
         end.
  all: split; [simpl; lia |].
  all: subst; simpl; rewrite ?Z.eqb_refl; mem_simpl.
  all: repeat match goal with
         | |- context [?a =? ?b] => destruct (Z.eqb_spec a b)
         end.
  all: subst; mem_simpl.
  all: first
    [ left; by repeat split
    | right; left; repeat split; (done || lia)
    | right; right; repeat split; (done || lia) ].
Qed.

Lemma lock_inv_step (i : nat) (cfg cfg' : Config) (e : Event) :
  lock_inv c cfg ->
  step rt i cfg = Some (e, cfg') ->
  lock_inv c cfg'.
Proof.
  intros [Hal Hfl Hheld Hexcl Hown Hok] Hstep.
  destruct (step_inv _ _ _ _ _ Hstep) as (t & t' & sh' & Hi & Hts & ->).
  destruct (lock_step_cases t t' _ sh' e Hts Hal)
    as [Hn [(Hh & Hf & Ha) | [(Hh & Hh' & Ha & Hne & Hf) | (Hh & Hh' & Ha & Hf)]]].
  - (* the step keeps the lock as it is *)
    split; cbn [shared threads]; rewrite ?Hf; try done.
    + intros j tj Hj Hhj.
      destruct (lookup_moved _ _ _ _ _ _ Hi Hj) as [[-> ->] | [Hne Hj']].
      * rewrite Hh in Hhj. eauto.
      * eauto.
    + intros j k tj tk Hj Hk Hhj Hhk.
      destruct (lookup_moved _ _ _ _ _ _ Hi Hj) as [[-> ->] | [Hnej Hj']];
        destruct (lookup_moved _ _ _ _ _ _ Hi Hk) as [[-> ->] | [Hnek Hk']];
        rewrite ?Hh in *; eauto.
    + intros Hone. destruct (Hown Hone) as (j & tj & Hj & Hhj).
      destruct (decide (j = i)) as [-> | Hne].
      * exists i, t'. split; [by eapply lookup_mover |].
        rewrite Hh. congruence.
      * exists j, tj. split; [by apply lookup_bystander | done].
    + intros j tj Hj.
      destruct (lookup_moved _ _ _ _ _ _ Hi Hj) as [[-> ->] | [Hne Hj']].
      * rewrite Ha. eauto.
      * eauto.
  - (* the step takes the lock: it was free, nobody held it *)
    assert (flag (shared cfg) c = 0) as Hzero by (destruct Hfl; done).
    assert (forall j tj, threads cfg !! j = Some tj -> holds c (pc tj) = false) as Hnone.
    { intros j tj Hj. destruct (holds c (pc tj)) eqn:Hhj; [| done].
      specialize (Hheld _ _ Hj Hhj). congruence. }
    specialize (Hf Hzero).
    split; cbn [shared threads]; try done.
    + by right.
    + intros j k tj tk Hj Hk Hhj Hhk.
      destruct (lookup_moved _ _ _ _ _ _ Hi Hj) as [[-> ->] | [Hnej Hj']];
        destruct (lookup_moved _ _ _ _ _ _ Hi Hk) as [[-> ->] | [Hnek Hk']];
        try done.
      * rewrite (Hnone _ _ Hk') in Hhk. done.
      * rewrite (Hnone _ _ Hj') in Hhj. done.
      * rewrite (Hnone _ _ Hj') in Hhj. done.
    + intros _. exists i, t'. split; [by eapply lookup_mover | done].
    + intros j tj Hj.
      destruct (lookup_moved _ _ _ _ _ _ Hi Hj) as [[-> ->] | [Hne' Hj']].
      * rewrite Ha. eauto.
      * eauto.
  - (* the step gives the lock back: the word was 1 *)
    destruct (Hf (Hheld _ _ Hi Hh)) as [Hzero Hfine].
    assert (forall j tj, j ≠ i -> threads cfg !! j = Some tj -> holds c (pc tj) = false)
      as Hnone.
    { intros j tj Hne Hj. destruct (holds c (pc tj)) eqn:Hhj; [| done].
      destruct Hne. by eapply Hexcl. }
    split; cbn [shared threads]; try done.
    + by left.
    + intros j tj Hj Hhj.
      destruct (lookup_moved _ _ _ _ _ _ Hi Hj) as [[-> ->] | [Hne Hj']].
      * congruence.
      * rewrite (Hnone _ _ Hne Hj') in Hhj. done.
    + intros j k tj tk Hj Hk Hhj Hhk.
      destruct (lookup_moved _ _ _ _ _ _ Hi Hj) as [[-> ->] | [Hnej Hj']].
      * congruence.
      * rewrite (Hnone _ _ Hnej Hj') in Hhj. done.
    + intros Hone. rewrite Hzero in Hone. done.
    + intros j tj Hj.
      destruct (lookup_moved _ _ _ _ _ _ Hi Hj) as [[-> ->] | [Hne Hj']]; eauto.
Qed.

Lemma lock_inv_run (sched : list nat) (cfg : Config) :
  lock_inv c cfg ->
  lock_inv c (final rt sched cfg).
Proof.
  intros Hinv.
  apply (run_invariant rt (lock_inv c) (fun _ _ => True)); [| done].
  intros i cfg0 e cfg1 H0 Hs. split; [| done]. by eapply lock_inv_step.
Qed.

(** C7: unlock assertion validity. With threads, from a configuration
    where Counter [c] is allocated, its lock word is free and every thread
    is between calls, along any schedule: no thread ever fails the
    [RuntimeAssert] of an [unlock] on [c]'s lock word, and the
    compare-and-swap of every such [unlock] sees 1. And any number of
    [lock]/[unlock] pairs on a free word that nobody else touches go
    through with every assertion holding and leave the word free. *)
Theorem unlock_assert_never_fails (cfg : Config) (sched : list nat) :
  c < next (shared cfg) ->
  flag (shared cfg) c = 0 ->
  all_idle cfg ->
  (forall i t, threads (final rt sched cfg) !! i = Some t -> aborted c (pc t) = false) /\
  (forall i seen,
     In (i, EvCAS (lockAddress c) 1 0 seen) (trace rt sched cfg) -> seen = 1) /\
  (forall n fuel m a, load m a = 0 ->
     exists m', lock_unlock_pairs n (S fuel) m a = Some (true, m') /\ load m' a = 0).
Proof.
  intros Hal Hfree Hidle.
  pose proof (lock_inv_init c cfg Hal Hfree Hidle) as Hinv.
  destruct (run_invariant rt (lock_inv c)
              (fun _ e => forall seen, e = EvCAS (lockAddress c) 1 0 seen -> seen = 1))
    with (sched := sched) (cfg := cfg) as [Hfin Htr]; [| done |].
  { intros i cfg0 e cfg1 H0 Hs. split; [by eapply lock_inv_step |].
    intros seen He.
    destruct (step_inv _ _ _ _ _ Hs) as (t & t' & sh' & Hi & Hts & _).
    destruct (unlock_event_cases _ _ _ _ _ _ _ _ Hts He) as [Hh ->].
    by eapply li_held. }
  split; [| split].
  - intros i t Hi. by eapply li_ok.
  - intros i seen Hin. by eapply Htr.
  - intros n fuel m a. apply lock_unlock_pairs_ok.
Qed.

(** C10: lock-flag invariant. With threads, from a configuration where
    Counter [c] is allocated, its lock word is free and every thread is
    between calls, along any schedule: the word is 0 or 1; it is 0
    whenever no thread is between [lock] and [unlock] on it; the step by
    which a thread leaves that section leaves it 0; and a materialization
    or a clear run alone from there returns with the word 0. *)
Theorem lock_flag_invariant (cfg : Config) (sched : list nat) :
  c < next (shared cfg) ->
  flag (shared cfg) c = 0 ->
  all_idle cfg ->
  let cfg' := final rt sched cfg in
  (flag (shared cfg') c = 0 \/ flag (shared cfg') c = 1) /\
  ((forall i t, threads cfg' !! i = Some t -> holds c (pc t) = false) ->
   flag (shared cfg') c = 0) /\
  (forall i t e cfg'' t',
     threads cfg' !! i = Some t -> holds c (pc t) = true ->
     step rt i cfg' = Some (e, cfg'') ->
     threads cfg'' !! i = Some t' -> holds c (pc t') = false ->
     flag (shared cfg'') c = 0) /\
  (forall fuel sh, flag sh c = 0 ->
     exists r sh', call rt (5 + fuel) (call_get c) sh = Returned r sh' /\ flag sh' c = 0) /\
  (forall fuel sh, flag sh c = 0 ->
     exists r sh', call rt (5 + fuel) (call_clear c) sh = Returned r sh' /\ flag sh' c = 0).
Proof.
  intros Hal Hfree Hidle cfg'.
  assert (lock_inv c cfg') as Hinv.
  { apply lock_inv_run. by apply lock_inv_init. }
  split; [apply Hinv |]. split; [| split; [| split]].
  - intros Hnone. destruct (li_flag _ _ Hinv) as [H0 | H1]; [done |].
    destruct (li_owner _ _ Hinv H1) as (i & t & Hi & Hh).
    rewrite (Hnone _ _ Hi) in Hh. done.
  - intros i t e cfg'' t' Hi Hh Hs Hi' Hh'.
    destruct (step_inv _ _ _ _ _ Hs) as (t0 & t1 & sh' & Hi0 & Hts & ->).
    cbn [shared threads] in *.
    assert (t0 = t) as -> by congruence.
    rewrite (lookup_mover _ _ _ _ Hi) in Hi'. injection Hi' as ->.
    destruct (lock_step_cases t t' _ sh' e Hts (li_alloc _ _ Hinv))
      as [_ [(Hk & _) | [(Hk & _) | (_ & _ & _ & Hf)]]]; [congruence | congruence |].
    apply Hf. by eapply li_held.
  - intros fuel sh Hsh. unfold call.
    rewrite get_threads_free by done. eexists _, _. split; [reflexivity |].
    unfold flag. cbn [mem set_mem]. apply load_store_eq.
  - intros fuel sh Hsh. unfold call.
    rewrite clear_threads_free by done. eexists _, _. split; [reflexivity |].
    unfold flag. cbn [mem set_mem]. apply load_store_eq.
Qed.

(** *** No torn reads *)

Variable R : Z.

Lemma consistent_frame (sh sh' : Shared) :
  load (mem sh') (referredAddress c) = load (mem sh) (referredAddress c) ->
  load (mem sh') (upper (referredAddress c)) = load (mem sh) (upper (referredAddress c)) ->
  consistent c R sh -> consistent c R sh'.
Proof.
  unfold consistent, slot_holds, slot_null. intros -> ->. done.
Qed.

Lemma tear_local_frame (sh sh' : Shared) (p : PC) :
  load (mem sh') (referredAddress c) = load (mem sh) (referredAddress c) ->
  load (mem sh') (upper (referredAddress c)) = load (mem sh) (upper (referredAddress c)) ->
  tear_local c R sh p -> tear_local c R sh' p.
Proof.
  intros Hlo Hhi Hp.
  destruct p as [| ? ? | ? [] | ? [] | [] ? | ?]; cbn [tear_local] in *; try done.
  all: intros Heq; specialize (Hp Heq); rewrite ?Hlo.
  all: try done.
  all: first
    [ by eapply consistent_frame
    | destruct Hp as [Hp1 Hp2]; split; [done | by eapply consistent_frame] ].
Qed.

(** What a thread outside the lock knows does not depend on the memory. *)
Lemma tear_local_outsider (sh sh' : Shared) (p : PC) :
  holds c p = false ->
  tear_local c R sh p -> tear_local c R sh' p.
Proof.
  intros Hh Hp.
  destruct p as [| ? ? | ? [] | ? [] | [] ? | ?]; cbn [tear_local holds] in *; try done.
  all: intros ->; by rewrite Z.eqb_refl in Hh.
Qed.

(** A thread that did not hold [c]'s lock knows, after its step, at most
    that the slot is whole, and that only when the step took the lock. *)
Lemma tear_local_entering (t t' : Thread) (sh sh' sh'' : Shared) (e : Event) :
  thread_step rt t sh = Some (e, t', sh') ->
  holds c (pc t) = false ->
  (holds c (pc t') = true -> consistent c R sh'') ->
  tear_local c R sh'' (pc t').
Proof.
  intros Hs Hh Hc.
  thread_cases Hs.
  all: repeat match type of Hs with
         | context [if ?b then _ else _] => destruct b
         end.
  all: injection Hs as <- <- <-.
  all: cbn [pc tear_local holds continue] in *; try done.
  all: intros ->; rewrite Z.eqb_refl in *; auto; discriminate.
Qed.

(** The thread that moves: what it knows after its step, and that the
    slot is whole whenever the step leaves the lock free. *)
Lemma tear_mover (t t' : Thread) (sh sh' : Shared) (e : Event) :
  thread_step rt t sh = Some (e, t', sh') ->
  c < next sh ->
  flag sh c = 0 \/ flag sh c = 1 ->
  (holds c (pc t) = true -> flag sh c = 1) ->
  (flag sh c = 0 -> consistent c R sh) ->
  tear_local c R sh (pc t) ->
  tear_local c R sh' (pc t') /\ (flag sh' c = 0 -> consistent c R sh').
Proof.
  intros Hs Hc Hfl Hheld Hfree Hp.
  destruct (holds c (pc t)) eqn:Hh.
  - (* the mover holds the lock of [c] *)
    specialize (Hheld eq_refl). clear Hfl Hfree.
    thread_cases Hs; cbn [pc holds] in Hh; try discriminate Hh.
    all: apply Z.eqb_eq in Hh; subst.
    all: rewrite ?threads_on in Hs; unfold flag in *.
    all: rewrite ?Hheld in Hs; cbn [Z.eqb Pos.eqb] in Hs.
    all: injection Hs as <- <- <-.
    all: cbn [pc tear_local continue set_mem mem] in *.
    all: specialize (Hp eq_refl).
    all: split; [try intros _ | intros Hz].
    all: unfold consistent, slot_holds, slot_null in *; cbn [mem set_mem] in *.
    all: rewrite ?lo_word_nullptr, ?hi_word_nullptr; mem_simpl.
    all: try (rewrite ?load_store_ne in Hz by loc_neq; rewrite Hheld in Hz;
              discriminate Hz).
    all: try solve [intuition (subst; rewrite ?combine_words; auto)].
    destruct Hp as [-> [[Hlo Hhi] | [Hlo Hhi]]]; rewrite Hlo, Hhi, ?combine_words; auto.
  - (* the mover does not hold the lock of [c] *)
    clear Hheld.
    destruct (slot_words_frame rt c _ _ _ _ _ Hs Hc Hh) as [Hlo Hhi].
    assert (consistent c R sh -> consistent c R sh') as Hcons
      by (by apply consistent_frame).
    destruct (lock_step_cases t t' sh sh' e Hs Hc)
      as [_ [(Hk & Hf & _) | [(_ & Hk & _ & Hne & Hf) | (Hk & _)]]];
      [| | congruence].
    + split.
      * eapply tear_local_entering; [done | done |]. congruence.
      * rewrite Hf. auto.
    + assert (flag sh c = 0) as Hzero by (destruct Hfl; done).
      split.
      * eapply tear_local_entering; [done | done |]. auto.
      * rewrite (Hf Hzero). discriminate.
Qed.

Lemma tear_inv_step (i : nat) (cfg cfg' : Config) (e : Event) :
  tear_inv c R cfg ->
  step rt i cfg = Some (e, cfg') ->
  tear_inv c R cfg' /\
  (forall r, e = EvReturn (call_get c) r -> r = RObj R \/ r = RObj nullptr).
Proof.
  intros [Hlock Hfree Hlocal] Hstep.
  pose proof (lock_inv_step _ _ _ _ Hlock Hstep) as Hlock'.
  destruct (step_inv _ _ _ _ _ Hstep) as (t & t' & sh' & Hi & Hts & ->).
  destruct (tear_mover t t' _ sh' e Hts (li_alloc _ _ Hlock)
              (li_flag _ _ Hlock) (li_held _ _ Hlock _ _ Hi) Hfree (Hlocal _ _ Hi))
    as [Hmine Hfree'].
  split; [split; cbn [shared threads]; try done |].
  - intros j tj Hj.
    destruct (lookup_moved _ _ _ _ _ _ Hi Hj) as [[-> ->] | [Hne Hj']]; [done |].
    destruct (holds c (pc t)) eqn:Hh.
    + apply tear_local_outsider with (sh := shared cfg); [| by eapply Hlocal].
      destruct (holds c (pc tj)) eqn:Hhj; [| done].
      destruct Hne. by eapply (li_excl _ _ Hlock).
    + destruct (slot_words_frame rt c _ _ _ _ _ Hts (li_alloc _ _ Hlock) Hh) as [Hlo Hhi].
      apply tear_local_frame with (sh := shared cfg); eauto.
  - intros r ->.
    destruct (return_event_cases _ _ _ _ _ _ _ _ Hts eq_refl) as [Hpc _].
    specialize (Hlocal _ _ Hi). rewrite Hpc in Hlocal. by apply Hlocal.
Qed.

Lemma tear_inv_init (cfg : Config) :
  c < next (shared cfg) ->
  flag (shared cfg) c = 0 ->
  all_idle cfg ->
  slot_holds (shared cfg) c R ->
  tear_inv c R cfg.
Proof.
  intros Hal Hfree Hidle Hslot. split.
  - by apply lock_inv_init.
  - intros _. by left.
  - intros i t Hi. by rewrite (all_idle_lookup _ _ _ Hidle Hi).
Qed.

(** C8: tear-freedom under concurrent clear. With threads, from a
    configuration where Counter [c] is allocated, its lock word is free,
    its slot holds the referent [R] and every thread is between calls,
    along any schedule of materializations and clears: every
    materialization of [c] returns [R] or [nullptr]; a reader that has
    read one word of the slot and not yet the other holds the lock and is
    the only thread to hold it, the word it read is the one still in
    memory, and the slot holds [R] or [nullptr] whole. And a
    materialization run alone with the lock free returns the slot. *)
Theorem tear_freedom (cfg : Config) (sched : list nat) :
  c < next (shared cfg) ->
  flag (shared cfg) c = 0 ->
  all_idle cfg ->
  slot_holds (shared cfg) c R ->
  let cfg' := final rt sched cfg in
  (forall i r,
     In (i, EvReturn (call_get c) r) (trace rt sched cfg) ->
     r = RObj R \/ r = RObj nullptr) /\
  (forall i t lo,
     threads cfg' !! i = Some t -> pc t = InGet c (get_read_hi lo) ->
     flag (shared cfg') c = 1 /\
     (forall j tj, threads cfg' !! j = Some tj -> holds c (pc tj) = true -> j = i) /\
     lo = load (mem (shared cfg')) (referredAddress c) /\
     consistent c R (shared cfg')) /\
  (forall fuel sh, flag sh c = 0 ->
     exists sh', call rt (5 + fuel) (call_get c) sh = Returned (RObj (slot sh c)) sh').
Proof.
  intros Hal Hfree Hidle Hslot cfg'.
  destruct (run_invariant rt (tear_inv c R)
              (fun _ e => forall r, e = EvReturn (call_get c) r ->
                                    r = RObj R \/ r = RObj nullptr))
    with (sched := sched) (cfg := cfg) as [Hfin Htr].
  { intros i cfg0 e cfg1 H0 Hs. by eapply tear_inv_step. }
  { by apply tear_inv_init. }
  fold cfg' in Hfin. split; [| split].
  - intros i r Hin. by eapply Htr.
  - intros i t lo Hi Hpc.
    pose proof (ti_local _ _ _ Hfin _ _ Hi) as Hloc.
    rewrite Hpc in Hloc. destruct (Hloc eq_refl) as [Hlo Hcons].
    assert (holds c (pc t) = true) as Hh
      by (rewrite Hpc; cbn; apply Z.eqb_refl).
    split; [by eapply (li_held _ _ (ti_lock _ _ _ Hfin)) |].
    split; [| done].
    intros j tj Hj Hhj. by eapply (li_excl _ _ (ti_lock _ _ _ Hfin)).
  - intros fuel sh Hsh. unfold call. rewrite get_threads_free by done. by eexists.
Qed.

End WithThreads.

Lemma unlock_assert_never_fails_witness :
  (forall i t,
     threads (final example_runtime example_schedule example_config) !! i = Some t ->
     aborted 100 (pc t) = false) /\
  (forall i seen,
     In (i, EvCAS (lockAddress 100) 1 0 seen)
        (trace example_runtime example_schedule example_config) -> seen = 1) /\
  (forall n fuel m a, load m a = 0 ->
     exists m', lock_unlock_pairs n (S fuel) m a = Some (true, m') /\ load m' a = 0).
Proof.
  apply (unlock_assert_never_fails example_runtime eq_refl 100
           example_config example_schedule).
  - reflexivity.
  - reflexivity.
  - repeat constructor.
Defined.

Lemma lock_flag_invariant_witness :
  let cfg' := final example_runtime example_schedule example_config in
  (flag (shared cfg') 100 = 0 \/ flag (shared cfg') 100 = 1) /\
  ((forall i t, threads cfg' !! i = Some t -> holds 100 (pc t) = false) ->
   flag (shared cfg') 100 = 0) /\
  (forall i t e cfg'' t',
     threads cfg' !! i = Some t -> holds 100 (pc t) = true ->
     step example_runtime i cfg' = Some (e, cfg'') ->
     threads cfg'' !! i = Some t' -> holds 100 (pc t') = false ->
     flag (shared cfg'') 100 = 0) /\
  (forall fuel sh, flag sh 100 = 0 ->
     exists r sh',
       call example_runtime (5 + fuel) (call_get 100) sh = Returned r sh' /\
       flag sh' 100 = 0) /\
  (forall fuel sh, flag sh 100 = 0 ->
     exists r sh',
       call example_runtime (5 + fuel) (call_clear 100) sh = Returned r sh' /\
       flag sh' 100 = 0).
Proof.
  apply (lock_flag_invariant example_runtime eq_refl 100
           example_config example_schedule).
  - reflexivity.
  - reflexivity.
  - repeat constructor.
Defined.

Lemma tear_freedom_witness :
  let cfg' := final example_runtime example_schedule example_config in
  (forall i r,
     In (i, EvReturn (call_get 100) r)
        (trace example_runtime example_schedule example_config) ->
     r = RObj 5 \/ r = RObj nullptr) /\
  (forall i t lo,
     threads cfg' !! i = Some t -> pc t = InGet 100 (get_read_hi lo) ->
     flag (shared cfg') 100 = 1 /\
     (forall j tj, threads cfg' !! j = Some tj -> holds 100 (pc tj) = true -> j = i) /\
     lo = load (mem (shared cfg')) (referredAddress 100) /\
     consistent 100 5 (shared cfg')) /\
  (forall fuel sh, flag sh 100 = 0 ->
     exists sh',
       call example_runtime (5 + fuel) (call_get 100) sh =
         Returned (RObj (slot sh 100)) sh').
Proof.
  apply (tear_freedom example_runtime eq_refl 100 5 example_config example_schedule).
  - reflexivity.
  - reflexivity.
  - repeat constructor.
  - split; reflexivity.
Defined.

(** What the lock is for: the build without threads, run with two threads
    all the same, lets a materialization return a pointer that is neither
    the referent nor [nullptr]. With threads the same schedule cannot do
    that. *)
Example torn_read_without_lock :
  In (0%nat, EvReturn (call_get 200) (RObj 5))
     (trace (with_no_threads true example_runtime) racy_schedule racy_config) /\
  slot racy_heap 200 = 2 ^ 32 + 5 /\
  ~ In (0%nat, EvReturn (call_get 200) (RObj 5))
       (trace example_runtime (racy_schedule ++ [0; 1; 0; 1; 0; 1; 0; 1; 0; 1]%nat)
          racy_config).
Proof.
  split; [| split].
  - vm_compute. do 6 right. left. reflexivity.
  - reflexivity.
  - vm_compute. intros H.
    repeat (destruct H as [H | H]; [discriminate H |]). exact H.
Qed.

(** ** One Counter per referent *)

(** A step leaves the words of [r]'s Cache entry alone, unless it is an
    install that finds the entry null. *)
Lemma cache_words_cases (rt : Runtime) (r : Z) (t t' : Thread) (sh sh' : Shared) (e : Event) :
  thread_step rt t sh = Some (e, t', sh') ->
  (load (mem sh') (counterCacheAddress r) = load (mem sh) (counterCacheAddress r) /\
   load (mem sh') (upper (counterCacheAddress r)) =
     load (mem sh) (upper (counterCacheAddress r)) /\
   installs r e = false) \/
  (exists counter,
     pc t = InImpl r (impl_install counter) /\
     cache sh r = nullptr /\ cache sh' r = counter /\ installs r e = true).
Proof.
  intros Hs.
  thread_cases Hs.
  all: try match type of Hs with
         | context [UpdateRefIfNull] => idtac
         | _ =>
             repeat match type of Hs with
               | context [if ?b then _ else _] => destruct b
               end;
             injection Hs as <- <- <-; left;
             cbn [set_mem mem]; unfold store_ptr; mem_simpl; by repeat split
         end.
  injection Hs as <- <- <-. cbn [pc set_mem mem installs].
  destruct (decide (referred = r)) as [-> | Hne].
  - fold (cache sh r). destruct (Z.eqb_spec (cache sh r) nullptr) as [Hnull | Hset].
    + right. exists counter. repeat split; [done | |].
      * unfold cache. cbn [mem]. apply load_ptr_store_ptr.
      * by rewrite bool_decide_eq_true_2.
    + left. repeat split. apply andb_false_r.
  - left.
    assert (counterCacheAddress referred ≠ counterCacheAddress r) as Hl
      by (unfold counterCacheAddress; intros [=]; done).
    rewrite (bool_decide_eq_false_2 _ Hl).
    destruct (load_ptr (mem sh) (counterCacheAddress referred) =? nullptr);
      unfold store_ptr; mem_simpl; by repeat split.
Qed.

(** Once set, the Cache entry is never written again. *)
Lemma cache_stable_step (rt : Runtime) (r : Z) (i : nat) (cfg cfg' : Config) (e : Event) :
  step rt i cfg = Some (e, cfg') ->
  cache (shared cfg) r ≠ nullptr ->
  load (mem (shared cfg')) (counterCacheAddress r) =
    load (mem (shared cfg)) (counterCacheAddress r) /\
  load (mem (shared cfg')) (upper (counterCacheAddress r)) =
    load (mem (shared cfg)) (upper (counterCacheAddress r)) /\
  installs r e = false.
Proof.
  intros Hs Hset.
  destruct (step_inv _ _ _ _ _ Hs) as (t & t' & sh' & Hi & Hts & ->).
  destruct (cache_words_cases rt r _ _ _ _ _ Hts) as [H | (counter & _ & Hnull & _)];
    [done | congruence].
Qed.

Lemma cache_stable_run (rt : Runtime) (r : Z) (sched : list nat) (cfg : Config) :
  cache (shared cfg) r ≠ nullptr ->
  cache (shared (final rt sched cfg)) r = cache (shared cfg) r /\
  count_installs r (trace rt sched cfg) = 0%nat.
Proof.
  revert cfg. induction sched as [| i sched IH]; intros cfg Hset; [done |].
  unfold trace, final in *. rewrite run_cons.
  destruct (step rt i cfg) as [[e cfg'] |] eqn:Hs; [| by apply IH].
  destruct (cache_stable_step _ r _ _ _ _ Hs Hset) as (Hlo & Hhi & Hno).
  pose proof (cache_frame _ _ _ Hlo Hhi) as Heq.
  destruct (IH cfg') as [IH1 IH2]; [congruence |].
  cbn [fst snd]. unfold trace, final. split; [congruence |].
  unfold count_installs in *. rewrite filter_cons_False; [done |].
  cbn [snd]. congruence.
Qed.

Lemma cache_mover (rt : Runtime) (r : Z) (t t' : Thread) (sh sh' : Shared) (e : Event) :
  thread_step rt t sh = Some (e, t', sh') ->
  foreign rt r = false ->
  0 < next sh ->
  cache_local rt r sh (pc t) ->
  cache_local rt r sh' (pc t') /\ 0 < next sh'.
Proof.
  intros Hs Hnat Hn Hp. unfold foreign in Hnat.
  thread_cases Hs.
  all: repeat match type of Hs with
         | context [if ?b then _ else _] => destruct b eqn:?
         end.
  all: injection Hs as <- <- <-.
  all: cbn [pc cache_local continue set_mem mem next] in *.
  all: split; [| lia].
  all: try done.
  all: intros ->; try specialize (Hp eq_refl).
  - rewrite Hp, Heqb in Hnat. discriminate.
  - done.
  - intros Hnull. rewrite (Hp Hnull) in *.
    unfold cache, load_ptr in Hnull. rewrite Hnull in *. done.
  - unfold nullptr. lia.
  - unfold cache. cbn [mem set_mem]. by rewrite load_ptr_store_ptr.
  - unfold cache. cbn [mem set_mem]. by apply Z.eqb_neq.
  - by split.
  - destruct Hp as [Hset ->]. by split.
Qed.

Lemma cache_bystander (rt : Runtime) (r : Z) (sh sh' : Shared) (p : PC) :
  (load (mem sh') (counterCacheAddress r) = load (mem sh) (counterCacheAddress r) /\
   load (mem sh') (upper (counterCacheAddress r)) =
     load (mem sh) (upper (counterCacheAddress r))) \/
  (cache sh r = nullptr /\ cache sh' r ≠ nullptr) ->
  cache_local rt r sh p -> cache_local rt r sh' p.
Proof.
  intros Hch Hp.
  destruct p as [| ? [] | ? ? | ? ? | [] ? | ?]; cbn [cache_local] in *; try done.
  all: intros Heq; specialize (Hp Heq).
  all: destruct Hch as [[Hlo Hhi] | [Hnull Hset]];
    [rewrite (cache_frame _ _ _ Hlo Hhi), ?Hlo; done |].
  all: try done.
  all: by destruct Hp.
Qed.

Lemma cache_inv_step (rt : Runtime) (r : Z) (i : nat) (cfg cfg' : Config) (e : Event) :
  foreign rt r = false ->
  cache_inv rt r cfg ->
  step rt i cfg = Some (e, cfg') ->
  cache_inv rt r cfg' /\
  (forall res, e = EvReturn (call_getWeakReferenceImpl r) res ->
     cache (shared cfg') r ≠ nullptr /\ res = RObj (cache (shared cfg') r)) /\
  (installs r e = true -> cache (shared cfg') r ≠ nullptr).
Proof.
  intros Hnat [Hal Hlocal] Hstep.
  destruct (step_inv _ _ _ _ _ Hstep) as (t & t' & sh' & Hi & Hts & ->).
  destruct (cache_mover rt r _ _ _ _ _ Hts Hnat Hal (Hlocal _ _ Hi)) as [Hmine Hal'].
  cbn [shared threads].
  assert ((load (mem sh') (counterCacheAddress r) =
             load (mem (shared cfg)) (counterCacheAddress r) /\
           load (mem sh') (upper (counterCacheAddress r)) =
             load (mem (shared cfg)) (upper (counterCacheAddress r))) \/
          (cache (shared cfg) r = nullptr /\ cache sh' r ≠ nullptr)) as Hch.
  { destruct (cache_words_cases rt r _ _ _ _ _ Hts)
      as [(Hlo & Hhi & _) | (counter & Hpc & Hnull & Hnew & _)]; [by left |].
    right. split; [done |]. rewrite Hnew.
    specialize (Hlocal _ _ Hi). rewrite Hpc in Hlocal. by apply Hlocal. }
  split; [split; cbn [shared threads]; [done |] | split].
  - intros j tj Hj.
    destruct (lookup_moved _ _ _ _ _ _ Hi Hj) as [[-> ->] | [Hne Hj']]; [done |].
    eapply cache_bystander; eauto.
  - intros res ->.
    destruct (return_event_cases _ _ _ _ _ _ _ _ Hts eq_refl) as [Hpc ->].
    specialize (Hlocal _ _ Hi). rewrite Hpc in Hlocal. by apply Hlocal.
  - intros Hwin.
    destruct (cache_words_cases rt r _ _ _ _ _ Hts)
      as [(_ & _ & Hno) | (counter & Hpc & Hnull & Hnew & _)]; [congruence |].
    rewrite Hnew. specialize (Hlocal _ _ Hi). rewrite Hpc in Hlocal. by apply Hlocal.
Qed.

Lemma cache_inv_init (rt : Runtime) (r : Z) (cfg : Config) :
  0 < next (shared cfg) -> all_idle cfg -> cache_inv rt r cfg.
Proof.
  intros Hal Hidle. split; [done |].
  intros i t Hi. by rewrite (all_idle_lookup _ _ _ Hidle Hi).
Qed.

(** Every return of an acquisition for [r] is the entry the Cache ends
    with, and at most one install writes that entry. *)
Lemma cache_inv_run (rt : Runtime) (r : Z) (sched : list nat) (cfg : Config) :
  foreign rt r = false ->
  cache_inv rt r cfg ->
  cache_inv rt r (final rt sched cfg) /\
  (forall i res,
     In (i, EvReturn (call_getWeakReferenceImpl r) res) (trace rt sched cfg) ->
     cache (shared (final rt sched cfg)) r ≠ nullptr /\
     res = RObj (cache (shared (final rt sched cfg)) r)) /\
  (count_installs r (trace rt sched cfg) <= 1)%nat.
Proof.
  intros Hnat. revert cfg.
  induction sched as [| i sched IH]; intros cfg Hinv.
  - split; [done |]. split; [intros i res [] | cbn; lia].
  - unfold trace, final in *. rewrite run_cons.
    destruct (step rt i cfg) as [[e cfg'] |] eqn:Hs; [| by apply IH].
    destruct (cache_inv_step _ r _ _ _ _ Hnat Hinv Hs) as (Hinv' & Hret & Hwin).
    destruct (IH _ Hinv') as (IH1 & IH2 & IH3).
    cbn [fst snd]. unfold trace, final. split; [done |]. split.
    + intros j res [Heq | Hin]; [| by eapply IH2].
      injection Heq as -> ->.
      destruct (Hret _ eq_refl) as [Hset ->].
      destruct (cache_stable_run rt r sched cfg' Hset) as [Hsame _].
      unfold final in Hsame. rewrite Hsame. done.
    + unfold count_installs in *.
      destruct (installs r e) eqn:He.
      * rewrite filter_cons_True by done.
        destruct (cache_stable_run rt r sched cfg' (Hwin eq_refl)) as [_ Hzero].
        unfold count_installs, trace in Hzero. cbn [length]. lia.
      * rewrite filter_cons_False by (cbn [snd]; congruence). done.
Qed.

(** From the test of l.56 on, alone: the function returns the Counter in
    the Cache entry; it makes one, and installs it, when there is none. *)
Lemma getWeakReferenceImpl_from_check (rt : Runtime) (fuel : nat) (r : Z) (sh : Shared) :
  0 < next sh ->
  exists sh',
    snd (exec_call rt (7 + fuel) (InImpl r impl_check_lo) sh) =
      Returned (RObj (cache sh' r)) sh' /\
    cache sh' r ≠ nullptr /\
    (cache sh r ≠ nullptr -> sh' = sh) /\
    (cache sh r = nullptr -> cache sh' r = next sh).
Proof.
  intros Hn.
  cbn -[Z.eqb]. fold (load_ptr (mem sh) (counterCacheAddress r)). fold (cache sh r).
  destruct (Z.eqb_spec (cache sh r) nullptr) as [Hnull | Hset].
  - cbn -[Z.eqb].
    rewrite UpdateRefIfNull_null by (by rewrite load_ptr_make_counter).
    cbn -[Z.eqb]. unfold store_ptr at 1 2 3. mem_simpl. rewrite combine_words.
    match goal with |- context [Returned _ ?s] => set (sh' := s) end.
    assert (cache sh' r = next sh) as Hnew
      by (unfold cache; apply load_ptr_store_ptr).
    exists sh'. rewrite Hnew. repeat split; [unfold nullptr; lia | done].
  - cbn -[Z.eqb]. exists sh. repeat split; done.
Qed.

(** An acquisition for a native referent, run alone. *)
Lemma getWeakReferenceImpl_alone (rt : Runtime) (fuel : nat) (r : Z) (sh : Shared) :
  foreign rt r = false ->
  0 < next sh ->
  exists sh',
    call rt (8 + fuel) (call_getWeakReferenceImpl r) sh = Returned (RObj (cache sh' r)) sh' /\
    cache sh' r ≠ nullptr /\
    (cache sh r ≠ nullptr -> sh' = sh) /\
    (cache sh r = nullptr -> cache sh' r = next sh).
Proof.
  intros Hnat Hn. unfold foreign in Hnat. unfold call. cbn [entry].
  destruct (KONAN_OBJC_INTEROP rt).
  - cbn [andb] in Hnat.
    change (8 + fuel)%nat with (S (7 + fuel)).
    cbn [exec_call thread_step pc todo Konan_getWeakReferenceImpl continue].
    rewrite Hnat.
    destruct (getWeakReferenceImpl_from_check rt fuel r sh Hn) as (sh' & Hcall & Hrest).
    exists sh'. split; [| done].
    destruct (exec_call rt (7 + fuel) (InImpl r impl_check_lo) sh). by cbn in *.
  - change (8 + fuel)%nat with (7 + (1 + fuel))%nat.
    apply getWeakReferenceImpl_from_check, Hn.
Qed.

(** C2: canonical single Counter per referent. For a native referent [r],
    from a configuration where the allocator hands out non-null addresses
    and every thread is between calls, along any schedule: every
    [Konan_getWeakReferenceImpl] for [r] returns what the Cache entry
    holds at the end, which is not null, so any two of them return the
    same Counter; at most one [UpdateRefIfNull] writes the entry; once the
    entry is set no further schedule changes it or writes it; and the
    function run alone returns, the Counter in the entry. *)
Theorem canonical_counter
    (rt : Runtime) (r : Z) (cfg : Config) (sched : list nat) :
  foreign rt r = false ->
  0 < next (shared cfg) ->
  all_idle cfg ->
  let cfg' := final rt sched cfg in
  (forall i res,
     In (i, EvReturn (call_getWeakReferenceImpl r) res) (trace rt sched cfg) ->
     cache (shared cfg') r ≠ nullptr /\ res = RObj (cache (shared cfg') r)) /\
  (forall i j res res',
     In (i, EvReturn (call_getWeakReferenceImpl r) res) (trace rt sched cfg) ->
     In (j, EvReturn (call_getWeakReferenceImpl r) res') (trace rt sched cfg) ->
     res = res') /\
  (count_installs r (trace rt sched cfg) <= 1)%nat /\
  (forall s2,
     cache (shared cfg') r ≠ nullptr ->
     cache (shared (final rt s2 cfg')) r = cache (shared cfg') r /\
     count_installs r (trace rt s2 cfg') = 0%nat) /\
  (forall fuel sh, 0 < next sh ->
     exists sh',
       call rt (8 + fuel) (call_getWeakReferenceImpl r) sh =
         Returned (RObj (cache sh' r)) sh' /\
       cache sh' r ≠ nullptr).
Proof.
  intros Hnat Hal Hidle cfg'.
  destruct (cache_inv_run rt r sched cfg Hnat (cache_inv_init rt r cfg Hal Hidle))
    as (_ & Hret & Hcount).
  fold cfg' in Hret.
  split; [done |]. split; [| split; [done |]; split].
  - intros i j res res' Hi Hj.
    destruct (Hret _ _ Hi) as [_ ->]. destruct (Hret _ _ Hj) as [_ ->]. done.
  - intros s2 Hset. by apply cache_stable_run.
  - intros fuel sh Hn.
    destruct (getWeakReferenceImpl_alone rt fuel r sh Hnat Hn) as (sh' & Hcall & Hset & _).
    by exists sh'.
Qed.

Lemma canonical_counter_witness :
  let cfg' := final example_runtime acquire_schedule acquire_config in
  (forall i res,
     In (i, EvReturn (call_getWeakReferenceImpl 6) res)
        (trace example_runtime acquire_schedule acquire_config) ->
     cache (shared cfg') 6 ≠ nullptr /\ res = RObj (cache (shared cfg') 6)) /\
  (forall i j res res',
     In (i, EvReturn (call_getWeakReferenceImpl 6) res)
        (trace example_runtime acquire_schedule acquire_config) ->
     In (j, EvReturn (call_getWeakReferenceImpl 6) res')
        (trace example_runtime acquire_schedule acquire_config) ->
     res = res') /\
  (count_installs 6 (trace example_runtime acquire_schedule acquire_config) <= 1)%nat /\
  (forall s2,
     cache (shared cfg') 6 ≠ nullptr ->
     cache (shared (final example_runtime s2 cfg')) 6 = cache (shared cfg') 6 /\
     count_installs 6 (trace example_runtime s2 cfg') = 0%nat) /\
  (forall fuel sh, 0 < next sh ->
     exists sh',
       call example_runtime (8 + fuel) (call_getWeakReferenceImpl 6) sh =
         Returned (RObj (cache sh' 6)) sh' /\
       cache sh' 6 ≠ nullptr).
Proof.
  apply (canonical_counter example_runtime 6 acquire_config acquire_schedule).
  - reflexivity.
  - reflexivity.
  - repeat constructor.
Defined.

(** ** Foreign referents *)

Lemma foreign_mover (rt : Runtime) (r a b : Z) (t t' : Thread) (sh sh' : Shared) (e : Event) :
  thread_step rt t sh = Some (e, t', sh') ->
  foreign rt r = true ->
  load (mem sh) (associatedObjectAddress r) = a ->
  load (mem sh) (upper (associatedObjectAddress r)) = b ->
  foreign_local rt r a b (pc t) ->
  foreign_local rt r a b (pc t') /\
  load (mem sh') (associatedObjectAddress r) = a /\
  load (mem sh') (upper (associatedObjectAddress r)) = b /\
  touches_cache r e = false /\
  (forall res, e = EvReturn (call_getWeakReferenceImpl r) res ->
     res = RObj (makeObjCWeakReferenceImpl rt (combine a b))).
Proof.
  intros Hs Hfor Ha Hb Hp. unfold foreign in Hfor.
  apply andb_true_iff in Hfor as [Hinterop Hwrap].
  thread_cases Hs.
  all: repeat match type of Hs with
         | context [if ?b then _ else _] => destruct b eqn:?
         end.
  all: injection Hs as <- <- <-.
  all: cbn [pc foreign_local continue set_mem mem touches_cache] in *.
  all: unfold store_ptr; mem_simpl.
  all: repeat split; try done.
  all: try (intros ->; congruence).
  all: try (intros res [=]; subst; auto).
  all: try (rewrite !bool_decide_eq_false_2 by loc_neq; reflexivity).
  all: try (by apply Z.eqb_neq).
  all: intros ->; specialize (Hp eq_refl); by subst.
Qed.

Lemma foreign_inv_step (rt : Runtime) (r a b : Z) (i : nat) (cfg cfg' : Config) (e : Event) :
  foreign rt r = true ->
  foreign_inv rt r a b cfg ->
  step rt i cfg = Some (e, cfg') ->
  foreign_inv rt r a b cfg' /\
  (touches_cache r e = false /\
   forall res, e = EvReturn (call_getWeakReferenceImpl r) res ->
     res = RObj (makeObjCWeakReferenceImpl rt (combine a b))).
Proof.
  intros Hfor [Ha Hb Hlocal] Hstep.
  destruct (step_inv _ _ _ _ _ Hstep) as (t & t' & sh' & Hi & Hts & ->).
  destruct (foreign_mover rt r a b _ _ _ _ _ Hts Hfor Ha Hb (Hlocal _ _ Hi))
    as (Hmine & Ha' & Hb' & Hev & Hret).
  split; [split; cbn [shared threads]; try done | done].
  intros j tj Hj.
  destruct (lookup_moved _ _ _ _ _ _ Hi Hj) as [[-> ->] | [Hne Hj']]; eauto.
Qed.

(** An acquisition for a foreign referent, run alone: the type test, two
    loads of the wrapped handle, the call to the adapter, and the heap as
    it was. *)
Lemma getWeakReferenceImpl_foreign_alone (rt : Runtime) (fuel : nat) (r : Z) (sh : Shared) :
  foreign rt r = true ->
  exec_call rt (5 + fuel) (entry rt (call_getWeakReferenceImpl r)) sh =
    ([EvIsInstance r true;
      EvLoad (associatedObjectAddress r) (load (mem sh) (associatedObjectAddress r));
      EvLoad (upper (associatedObjectAddress r))
        (load (mem sh) (upper (associatedObjectAddress r)));
      EvMakeObjC (load_ptr (mem sh) (associatedObjectAddress r))
        (makeObjCWeakReferenceImpl rt (load_ptr (mem sh) (associatedObjectAddress r)))],
     Returned
       (RObj (makeObjCWeakReferenceImpl rt (load_ptr (mem sh) (associatedObjectAddress r))))
       sh).
Proof.
  intros Hfor. unfold foreign in Hfor.
  apply andb_true_iff in Hfor as [Hinterop Hwrap].
  cbn [entry]. rewrite Hinterop. simpl. rewrite Hwrap. reflexivity.
Qed.

(** C5: foreign routing. For a referent [r] that the build classifies as
    wrapping a foreign object, from a configuration where every thread is
    between calls, along any schedule: every [Konan_getWeakReferenceImpl]
    for [r] returns what [makeObjCWeakReferenceImpl] gives for the handle
    stored in [meta->associatedObject_]; no step of any thread reads or
    writes the Cache entry of [r] or makes a Counter for [r]; the Cache
    entry of [r] ends as it started. And run alone the function tests the
    type, loads the handle, calls the adapter, returns its result and
    leaves the heap, the allocator included, as it was. *)
Theorem foreign_routing
    (rt : Runtime) (r : Z) (cfg : Config) (sched : list nat) :
  foreign rt r = true ->
  all_idle cfg ->
  let handle := load_ptr (mem (shared cfg)) (associatedObjectAddress r) in
  (forall i res,
     In (i, EvReturn (call_getWeakReferenceImpl r) res) (trace rt sched cfg) ->
     res = RObj (makeObjCWeakReferenceImpl rt handle)) /\
  (forall i e, In (i, e) (trace rt sched cfg) -> touches_cache r e = false) /\
  cache (shared (final rt sched cfg)) r = cache (shared cfg) r /\
  (forall fuel sh,
     call rt (5 + fuel) (call_getWeakReferenceImpl r) sh =
       Returned
         (RObj (makeObjCWeakReferenceImpl rt
                  (load_ptr (mem sh) (associatedObjectAddress r)))) sh /\
     call_events rt (5 + fuel) (call_getWeakReferenceImpl r) sh =
       [EvIsInstance r true;
        EvLoad (associatedObjectAddress r) (load (mem sh) (associatedObjectAddress r));
        EvLoad (upper (associatedObjectAddress r))
          (load (mem sh) (upper (associatedObjectAddress r)));
        EvMakeObjC (load_ptr (mem sh) (associatedObjectAddress r))
          (makeObjCWeakReferenceImpl rt (load_ptr (mem sh) (associatedObjectAddress r)))]).
Proof.
  intros Hfor Hidle handle.
  set (a := load (mem (shared cfg)) (associatedObjectAddress r)).
  set (b := load (mem (shared cfg)) (upper (associatedObjectAddress r))).
  destruct (run_invariant rt
              (fun cfg0 => foreign_inv rt r a b cfg0 /\
                           cache (shared cfg0) r = cache (shared cfg) r)
              (fun _ e => touches_cache r e = false /\
                 forall res, e = EvReturn (call_getWeakReferenceImpl r) res ->
                   res = RObj (makeObjCWeakReferenceImpl rt (combine a b))))
    with (sched := sched) (cfg := cfg) as [[_ Hcache] Htr].
  { intros i cfg0 e cfg1 [H0 Hc0] Hs.
    destruct (foreign_inv_step _ _ _ _ _ _ _ _ Hfor H0 Hs) as [H1 Hev].
    split; [split; [done |] | done].
    destruct (step_inv _ _ _ _ _ Hs) as (t & t' & sh' & Hi & Hts & ->).
    cbn [shared]. rewrite <- Hc0.
    destruct (cache_words_cases rt r _ _ _ _ _ Hts)
      as [(Hlo & Hhi & _) | (counter & Hpc & _)]; [by apply cache_frame |].
    pose proof (fi_local _ _ _ _ _ H0 _ _ Hi) as Hloc.
    rewrite Hpc in Hloc. cbn in Hloc. done. }
  { split; [| done]. split; try done.
    intros i t Hi. by rewrite (all_idle_lookup _ _ _ Hidle Hi). }
  split; [| split; [| split; [done |]]].
  - intros i res Hin. by eapply Htr.
  - intros i e Hin. by eapply Htr.
  - intros fuel sh. unfold call, call_events.
    by rewrite getWeakReferenceImpl_foreign_alone.
Qed.

Lemma foreign_routing_witness :
  let handle := load_ptr (mem (shared foreign_config)) (associatedObjectAddress 7) in
  (forall i res,
     In (i, EvReturn (call_getWeakReferenceImpl 7) res)
        (trace example_runtime foreign_schedule foreign_config) ->
     res = RObj (makeObjCWeakReferenceImpl example_runtime handle)) /\
  (forall i e,
     In (i, e) (trace example_runtime foreign_schedule foreign_config) ->
     touches_cache 7 e = false) /\
  cache (shared (final example_runtime foreign_schedule foreign_config)) 7 =
    cache (shared foreign_config) 7 /\
  (forall fuel sh,
     call example_runtime (5 + fuel) (call_getWeakReferenceImpl 7) sh =
       Returned
         (RObj (makeObjCWeakReferenceImpl example_runtime
                  (load_ptr (mem sh) (associatedObjectAddress 7)))) sh /\
     call_events example_runtime (5 + fuel) (call_getWeakReferenceImpl 7) sh =
       [EvIsInstance 7 true;
        EvLoad (associatedObjectAddress 7) (load (mem sh) (associatedObjectAddress 7));
        EvLoad (upper (associatedObjectAddress 7))
          (load (mem sh) (upper (associatedObjectAddress 7)));
        EvMakeObjC (load_ptr (mem sh) (associatedObjectAddress 7))
          (makeObjCWeakReferenceImpl example_runtime
             (load_ptr (mem sh) (associatedObjectAddress 7)))]).
Proof.
  apply (foreign_routing example_runtime 7 foreign_config foreign_schedule).
  - reflexivity.
  - repeat constructor.
Defined.

(** ** More on the spin lock *)

(** X1: mutual exclusion. With threads, from a configuration where
    Counter [c] is allocated, its lock word is free and every thread is
    between calls, along any schedule: no two threads are between [lock]
    and [unlock] of [c] at once; while a thread is there the lock word is
    1, and whenever the word is 1 some thread is there; and a step of a
    thread that is not there leaves both words of [c]'s slot as they
    are, so the slot is only ever written under the lock. *)
Theorem mutual_exclusion (rt : Runtime) (c : Z) (cfg : Config) (sched : list nat) :
  KONAN_NO_THREADS rt = false ->
  c < next (shared cfg) ->
  flag (shared cfg) c = 0 ->
  all_idle cfg ->
  let cfg' := final rt sched cfg in
  (forall i j ti tj,
     threads cfg' !! i = Some ti -> threads cfg' !! j = Some tj ->
     holds c (pc ti) = true -> holds c (pc tj) = true -> i = j) /\
  (forall i t,
     threads cfg' !! i = Some t -> holds c (pc t) = true -> flag (shared cfg') c = 1) /\
  (flag (shared cfg') c = 1 ->
   exists i t, threads cfg' !! i = Some t /\ holds c (pc t) = true) /\
  (forall i t e cfg'',
     threads cfg' !! i = Some t -> holds c (pc t) = false ->
     step rt i cfg' = Some (e, cfg'') ->
     load (mem (shared cfg'')) (referredAddress c) =
       load (mem (shared cfg')) (referredAddress c) /\
     load (mem (shared cfg'')) (upper (referredAddress c)) =
       load (mem (shared cfg')) (upper (referredAddress c))).
Proof.
  intros Hrt Hal Hfree Hidle cfg'.
  assert (lock_inv c cfg') as Hinv.
  { apply lock_inv_run; [done |]. by apply lock_inv_init. }
  split; [apply Hinv |]. split; [apply Hinv |]. split; [apply Hinv |].
  intros i t e cfg'' Hi Hh Hs.
  destruct (step_inv _ _ _ _ _ Hs) as (t0 & t1 & sh' & Hi0 & Hts & ->).
  assert (t0 = t) as -> by congruence.
  cbn [shared]. eapply slot_words_frame; eauto. apply Hinv.
Qed.

Lemma mutual_exclusion_witness :
  let cfg' := final example_runtime example_schedule example_config in
  (forall i j ti tj,
     threads cfg' !! i = Some ti -> threads cfg' !! j = Some tj ->
     holds 100 (pc ti) = true -> holds 100 (pc tj) = true -> i = j) /\
  (forall i t,
     threads cfg' !! i = Some t -> holds 100 (pc t) = true -> flag (shared cfg') 100 = 1) /\
  (flag (shared cfg') 100 = 1 ->
   exists i t, threads cfg' !! i = Some t /\ holds 100 (pc t) = true) /\
  (forall i t e cfg'',
     threads cfg' !! i = Some t -> holds 100 (pc t) = false ->
     step example_runtime i cfg' = Some (e, cfg'') ->
     load (mem (shared cfg'')) (referredAddress 100) =
       load (mem (shared cfg')) (referredAddress 100) /\
     load (mem (shared cfg'')) (upper (referredAddress 100)) =
       load (mem (shared cfg')) (upper (referredAddress 100))).
Proof.
  apply (mutual_exclusion example_runtime 100 example_config example_schedule).
  - reflexivity.
  - reflexivity.
  - reflexivity.
  - repeat constructor.
Defined.

(** On a lock word that holds neither 0 nor 1 the loop of [lock] ends at
    its first turn, the word as it was. *)
Lemma lock_iteration_other (m : gmap Loc Z) (a : Loc) :
  load m a ≠ 0 -> load m a ≠ 1 -> lock_iteration m a = (load m a, false, m).
Proof.
  intros H0 H1. unfold lock_iteration, sync_val_compare_and_swap.
  destruct (Z.eqb_spec (load m a) 0); [done |].
  by destruct (Z.eqb_spec (load m a) 1).
Qed.

Lemma set_mem_same (sh : Shared) : set_mem sh (mem sh) = sh.
Proof. by destruct sh. Qed.

(** X2: a lock word that is neither 0 nor 1. [lock] loops only while it
    sees 1, so on any other value than 0 it comes back at once without
    having written the word: the caller goes on without the lock. A
    materialization then reads the slot and stops on the assertion of
    [unlock], the heap as it was; a clear stops there too, after it has
    set the slot to [nullptr]. *)
Theorem corrupt_flag_fails_assert (rt : Runtime) (c : Z) (sh : Shared) (fuel : nat) :
  KONAN_NO_THREADS rt = false ->
  flag sh c ≠ 0 ->
  flag sh c ≠ 1 ->
  lock (S fuel) (mem sh) (lockAddress c) = Some (mem sh) /\
  call rt (5 + fuel) (call_get c) sh = AssertFailed sh /\
  call_events rt (5 + fuel) (call_get c) sh =
    [EvCAS (lockAddress c) 0 1 (flag sh c);
     EvLoad (referredAddress c) (load (mem sh) (referredAddress c));
     EvLoad (upper (referredAddress c)) (load (mem sh) (upper (referredAddress c)));
     EvCAS (lockAddress c) 1 0 (flag sh c)] /\
  call rt (5 + fuel) (call_clear c) sh = AssertFailed (set_mem sh (cleared c (mem sh))) /\
  call_events rt (5 + fuel) (call_clear c) sh =
    [EvCAS (lockAddress c) 0 1 (flag sh c);
     EvStore (referredAddress c) 0;
     EvStore (upper (referredAddress c)) 0;
     EvCAS (lockAddress c) 1 0 (flag sh c)].
Proof.
  intros Hrt H0 H1. unfold flag in *.
  split; [| split; [| split; [| split]]].
  - cbn [lock]. by rewrite lock_iteration_other.
  - unfold call. cbn [entry]. rewrite Hrt.
    cbn [plus exec_call thread_step pc todo Konan_WeakReferenceCounter_get].
    rewrite lock_iteration_other by done. rewrite set_mem_same.
    cbn [continue pc thread_step todo Konan_WeakReferenceCounter_get]. rewrite Hrt.
    cbn [continue pc thread_step todo Konan_WeakReferenceCounter_get].
    rewrite unlock_not_held by done. rewrite set_mem_same. reflexivity.
  - unfold call_events. cbn [entry]. rewrite Hrt.
    cbn [plus exec_call thread_step pc todo Konan_WeakReferenceCounter_get].
    rewrite lock_iteration_other by done. rewrite set_mem_same.
    cbn [continue pc thread_step todo Konan_WeakReferenceCounter_get]. rewrite Hrt.
    cbn [continue pc thread_step todo Konan_WeakReferenceCounter_get].
    rewrite unlock_not_held by done. rewrite set_mem_same. reflexivity.
  - unfold call. cbn [entry]. rewrite Hrt.
    cbn [plus exec_call thread_step pc todo WeakReferenceCounterClear].
    rewrite lock_iteration_other by done. rewrite set_mem_same.
    cbn [continue pc thread_step todo WeakReferenceCounterClear]. rewrite Hrt.
    cbn [continue pc thread_step todo WeakReferenceCounterClear mem set_mem].
    rewrite unlock_not_held by (by mem_simpl). reflexivity.
  - unfold call_events. cbn [entry]. rewrite Hrt.
    cbn [plus exec_call thread_step pc todo WeakReferenceCounterClear].
    rewrite lock_iteration_other by done. rewrite set_mem_same.
    cbn [continue pc thread_step todo WeakReferenceCounterClear]. rewrite Hrt.
    cbn [continue pc thread_step todo WeakReferenceCounterClear mem set_mem].
    rewrite unlock_not_held by (by mem_simpl). mem_simpl. reflexivity.
Qed.

Lemma corrupt_flag_fails_assert_witness :
  lock 1 (mem corrupt_heap) (lockAddress 300) = Some (mem corrupt_heap) /\
  call example_runtime 5 (call_get 300) corrupt_heap = AssertFailed corrupt_heap /\
  call_events example_runtime 5 (call_get 300) corrupt_heap =
    [EvCAS (lockAddress 300) 0 1 (flag corrupt_heap 300);
     EvLoad (referredAddress 300) (load (mem corrupt_heap) (referredAddress 300));
     EvLoad (upper (referredAddress 300))
       (load (mem corrupt_heap) (upper (referredAddress 300)));
     EvCAS (lockAddress 300) 1 0 (flag corrupt_heap 300)] /\
  call example_runtime 5 (call_clear 300) corrupt_heap =
    AssertFailed (set_mem corrupt_heap (cleared 300 (mem corrupt_heap))) /\
  call_events example_runtime 5 (call_clear 300) corrupt_heap =
    [EvCAS (lockAddress 300) 0 1 (flag corrupt_heap 300);
     EvStore (referredAddress 300) 0;
     EvStore (upper (referredAddress 300)) 0;
     EvCAS (lockAddress 300) 1 0 (flag corrupt_heap 300)].
Proof.
  apply (corrupt_flag_fails_assert example_runtime 300 corrupt_heap 0).
  - reflexivity.
  - vm_compute. discriminate.
  - vm_compute. discriminate.
Defined.

Lemma exec_get_spins (rt : Runtime) (fuel : nat) (c : Z) (sh : Shared) :
  flag sh c = 1 ->
  exec_call rt fuel (InGet c get_lock) sh =
    (repeat (EvCAS (lockAddress c) 0 1 1) fuel, OutOfFuel).
Proof.
  intros Hheld. induction fuel as [| fuel IH]; [done |].
  cbn [exec_call thread_step pc todo Konan_WeakReferenceCounter_get].
  rewrite lock_iteration_held by done. cbn [continue pc].
  rewrite set_mem_same, IH. reflexivity.
Qed.

Lemma exec_clear_spins (rt : Runtime) (fuel : nat) (c : Z) (sh : Shared) :
  flag sh c = 1 ->
  exec_call rt fuel (InClear c clear_lock) sh =
    (repeat (EvCAS (lockAddress c) 0 1 1) fuel, OutOfFuel).
Proof.
  intros Hheld. induction fuel as [| fuel IH]; [done |].
  cbn [exec_call thread_step pc todo WeakReferenceCounterClear].
  rewrite lock_iteration_held by done. cbn [continue pc].
  rewrite set_mem_same, IH. reflexivity.
Qed.

(** X3: the lock is not reentrant and has no way out. With threads, a
    materialization or a clear of [c] that finds the lock word at 1 and
    runs with nobody there to give the lock back never returns: however
    many steps it is given, every one of them is a compare-and-swap of
    [lock] that sees 1, and nothing is read from or written to the
    slot. *)
Theorem held_lock_spins (rt : Runtime) (c : Z) (sh : Shared) (fuel : nat) :
  KONAN_NO_THREADS rt = false ->
  flag sh c = 1 ->
  lock fuel (mem sh) (lockAddress c) = None /\
  call rt fuel (call_get c) sh = OutOfFuel /\
  call_events rt fuel (call_get c) sh = repeat (EvCAS (lockAddress c) 0 1 1) fuel /\
  call rt fuel (call_clear c) sh = OutOfFuel /\
  call_events rt fuel (call_clear c) sh = repeat (EvCAS (lockAddress c) 0 1 1) fuel.
Proof.
  intros Hrt Hheld.
  split; [by apply lock_held |].
  unfold call, call_events. cbn [entry]. rewrite Hrt.
  by rewrite exec_get_spins, exec_clear_spins.
Qed.

Lemma held_lock_spins_witness :
  lock 50 (mem held_heap) (lockAddress 100) = None /\
  call example_runtime 50 (call_get 100) held_heap = OutOfFuel /\
  call_events example_runtime 50 (call_get 100) held_heap =
    repeat (EvCAS (lockAddress 100) 0 1 1) 50 /\
  call example_runtime 50 (call_clear 100) held_heap = OutOfFuel /\
  call_events example_runtime 50 (call_clear 100) held_heap =
    repeat (EvCAS (lockAddress 100) 0 1 1) 50.
Proof.
  apply (held_lock_spins example_runtime 100 held_heap 50).
  - reflexivity.
  - reflexivity.
Defined.

(** ** Progress *)

Lemma step_bystander (rt : Runtime) (i j : nat) (cfg cfg' : Config) (e : Event) :
  step rt j cfg = Some (e, cfg') -> j ≠ i -> threads cfg' !! i = threads cfg !! i.
Proof.
  intros Hs Hne. destruct (step_inv _ _ _ _ _ Hs) as (t & t' & sh' & Hj & Hts & ->).
  cbn [threads]. by apply list_lookup_insert_ne.
Qed.

Lemma step_mover (rt : Runtime) (i : nat) (cfg : Config) (t t' : Thread)
    (e : Event) (sh' : Shared) :
  threads cfg !! i = Some t ->
  thread_step rt t (shared cfg) = Some (e, t', sh') ->
  step rt i cfg = Some (e, {| shared := sh'; threads := <[i := t']> (threads cfg) |}).
Proof. intros Hi Hs. unfold step. by rewrite Hi, Hs. Qed.

Lemma final_app (rt : Runtime) (s1 s2 : list nat) (cfg : Config) :
  final rt (s1 ++ s2) cfg = final rt s2 (final rt s1 cfg).
Proof.
  revert cfg. induction s1 as [| i s1 IH]; intros cfg; [done |].
  unfold final in *. cbn [app]. rewrite !run_cons.
  destruct (step rt i cfg) as [[e cfg'] |]; [| apply IH].
  cbn [snd]. unfold final. apply IH.
Qed.

(** Bounded progress. [Phase n] says that thread [i] is at most [n + 1]
    of its own steps away from an event in [Target]: the steps of the
    others keep the phase, and a step of [i] makes the event or brings
    the phase down by one. Then a schedule that gives [i] more than [n]
    turns has the event in its trace. *)
Lemma run_progress (rt : Runtime) (i : nat)
    (Phase : nat -> Config -> Prop) (Target : Event -> Prop) :
  (forall n j cfg e cfg',
     j ≠ i -> Phase n cfg -> step rt j cfg = Some (e, cfg') -> Phase n cfg') ->
  (forall n cfg, Phase n cfg ->
     exists e cfg', step rt i cfg = Some (e, cfg') /\
       (Target e \/ exists m, n = S m /\ Phase m cfg')) ->
  forall sched n cfg,
    Phase n cfg -> (n < turns i sched)%nat ->
    exists e, Target e /\ In (i, e) (trace rt sched cfg).
Proof.
  intros Hothers Hmine sched. induction sched as [| j sched IH]; intros n cfg HP Hn.
  - cbn in Hn. lia.
  - unfold trace. rewrite run_cons. cbn [turns] in Hn.
    destruct (Nat.eqb_spec j i) as [-> | Hne].
    + destruct (Hmine _ _ HP) as (e & cfg' & Hs & Hcase). rewrite Hs. cbn [fst].
      destruct Hcase as [Ht | (m & -> & HP')].
      * exists e. split; [done | by left].
      * destruct (IH m cfg' HP') as (e' & Ht & Hin); [lia |].
        exists e'. split; [done | by right].
    + destruct (step rt j cfg) as [[e cfg'] |] eqn:Hs.
      * cbn [fst]. destruct (IH n cfg') as (e' & Ht & Hin); [by eapply Hothers | lia |].
        exists e'. split; [done | by right].
      * apply (IH n cfg HP). lia.
Qed.

(** *** The critical section is short *)

Lemma holds_section (c : Z) (p : PC) :
  holds c p = true -> (1 <= section_left p <= 3)%nat.
Proof.
  destruct p as [| ? ? | ? [] | ? [] | ? ? | ?]; cbn; try done; lia.
Qed.

Lemma waits_not_holds (c : Z) (p : PC) : waits c p = true -> holds c p = false.
Proof. by destruct p as [| ? ? | ? [] | ? [] | ? ? | ?]. Qed.

(** A step of the thread that holds [c]'s lock: it stays in the section,
    one step nearer to its end, or it is the compare-and-swap of
    [unlock], which sees 1 and frees the word. *)
Lemma section_step (rt : Runtime) (c : Z) (t : Thread) (sh : Shared) :
  KONAN_NO_THREADS rt = false ->
  holds c (pc t) = true ->
  flag sh c = 1 ->
  exists e t' sh',
    thread_step rt t sh = Some (e, t', sh') /\
    ((holds c (pc t') = true /\ section_left (pc t) = S (section_left (pc t'))) \/
     (e = EvCAS (lockAddress c) 1 0 1 /\ section_left (pc t) = 1%nat /\
      flag sh' c = 0 /\ holds c (pc t') = false)).
Proof.
  intros Hrt Hh Hf. destruct t as [p td]. cbn [pc] in *. unfold flag in *.
  destruct p as [| ? ? | c' [] | c' [] | ? ? | ?]; cbn [holds] in Hh; try discriminate Hh.
  all: apply Z.eqb_eq in Hh; subst c'.
  all: unfold thread_step;
    cbn [pc todo Konan_WeakReferenceCounter_get WeakReferenceCounterClear].
  all: rewrite ?Hrt, ?unlock_held by done.
  all: eexists _, _, _; split; [reflexivity |].
  all: cbn [continue pc holds section_left mem set_mem]; rewrite ?Z.eqb_refl.
  all: first [ left; by split | right; repeat split; by mem_simpl ].
Qed.

(** A step of a thread in the loop of [lock] that finds the word free
    takes the lock. *)
Lemma acquire_step (rt : Runtime) (c : Z) (t : Thread) (sh : Shared) :
  waits c (pc t) = true ->
  flag sh c = 0 ->
  exists e t' sh', thread_step rt t sh = Some (e, t', sh') /\ holds c (pc t') = true.
Proof.
  intros Hw Hf. destruct t as [p td]. cbn [pc] in *. unfold flag in *.
  destruct p as [| ? ? | c' [] | c' [] | ? ? | ?]; cbn [waits] in Hw; try discriminate Hw.
  all: apply Z.eqb_eq in Hw; subst c'.
  all: unfold thread_step;
    cbn [pc todo Konan_WeakReferenceCounter_get WeakReferenceCounterClear].
  all: rewrite lock_iteration_free by done.
  all: eexists _, _, _; split; [reflexivity |].
  all: cbn [continue pc holds]; apply Z.eqb_refl.
Qed.

(** X4: the critical section is bounded. With threads, from a
    configuration where Counter [c] is allocated, its lock word is free
    and every thread is between calls, after any schedule: a thread that
    is between [lock] and [unlock] of [c] is at most three of its own
    steps away from the compare-and-swap of its [unlock], which sees 1.
    Whatever the other threads do in between, any further schedule that
    gives the thread that many turns has that [unlock] in its trace. *)
Theorem critical_section_bounded
    (rt : Runtime) (c : Z) (cfg : Config) (sched s2 : list nat) (i : nat) (t : Thread) :
  KONAN_NO_THREADS rt = false ->
  c < next (shared cfg) ->
  flag (shared cfg) c = 0 ->
  all_idle cfg ->
  let cfg' := final rt sched cfg in
  threads cfg' !! i = Some t ->
  holds c (pc t) = true ->
  (section_left (pc t) <= turns i s2)%nat ->
  (section_left (pc t) <= 3)%nat /\
  In (i, EvCAS (lockAddress c) 1 0 1) (trace rt s2 cfg').
Proof.
  intros Hrt Hal Hfree Hidle cfg' Hi Hh Hturns.
  pose proof (holds_section _ _ Hh) as Hsec.
  split; [lia |].
  assert (lock_inv c cfg') as Hinv.
  { apply lock_inv_run; [done |]. by apply lock_inv_init. }
  destruct (run_progress rt i
              (fun n cfg0 =>
                 lock_inv c cfg0 /\
                 exists t0, threads cfg0 !! i = Some t0 /\ holds c (pc t0) = true /\
                            (section_left (pc t0) <= S n)%nat)
              (fun e => e = EvCAS (lockAddress c) 1 0 1))
    with (sched := s2) (n := pred (section_left (pc t))) (cfg := cfg')
    as (e & -> & Hin); [| | | lia | done].
  - intros n j cfg0 e cfg1 Hne [Hinv0 (t0 & Hi0 & Hh0 & Hn)] Hs.
    split; [by eapply lock_inv_step |].
    exists t0. by rewrite (step_bystander _ _ _ _ _ _ Hs Hne).
  - intros n cfg0 [Hinv0 (t0 & Hi0 & Hh0 & Hn)].
    destruct (section_step rt c t0 (shared cfg0) Hrt Hh0
                (li_held _ _ Hinv0 _ _ Hi0 Hh0)) as (e & t' & sh' & Hts & Hcase).
    pose proof (step_mover _ _ _ _ _ _ _ Hi0 Hts) as Hs.
    eexists _, _. split; [exact Hs |].
    destruct Hcase as [[Hh' Hl] | (-> & _)]; [right | by left].
    pose proof (holds_section _ _ Hh') as Hsec'.
    destruct n as [| m]; [lia |].
    exists m. split; [done |]. split; [by eapply lock_inv_step |].
    exists t'. split; [by eapply lookup_mover |]. split; [done | lia].
  - split; [done |]. exists t. repeat split; try done. lia.
Qed.

Lemma critical_section_bounded_witness :
  (section_left (InClear 100 clear_write_lo) <= 3)%nat /\
  In (0%nat, EvCAS (lockAddress 100) 1 0 1)
     (trace example_runtime [1; 0; 2; 0; 1; 0]%nat
        (final example_runtime [0; 1; 0; 2]%nat example_config)).
Proof.
  apply (critical_section_bounded example_runtime 100 example_config
           [0; 1; 0; 2]%nat [1; 0; 2; 0; 1; 0]%nat 0%nat
           {| pc := InClear 100 clear_write_lo; todo := [] |}).
  - reflexivity.
  - reflexivity.
  - reflexivity.
  - repeat constructor.
  - reflexivity.
  - reflexivity.
  - vm_compute. lia.
Defined.

(** *** No deadlock *)

(** Left to itself, the thread that holds [c]'s lock gives it back, and
    no other thread has moved. *)
Lemma holder_releases (rt : Runtime) (c : Z) (k : nat) :
  KONAN_NO_THREADS rt = false ->
  forall (cfg : Config) (i : nat) (t : Thread),
    lock_inv c cfg ->
    threads cfg !! i = Some t ->
    holds c (pc t) = true ->
    section_left (pc t) = k ->
    flag (shared (final rt (repeat i k) cfg)) c = 0 /\
    lock_inv c (final rt (repeat i k) cfg) /\
    forall j, j ≠ i -> threads (final rt (repeat i k) cfg) !! j = threads cfg !! j.
Proof.
  intros Hrt. induction k as [| k IH]; intros cfg i t Hinv Hi Hh Hk.
  - pose proof (holds_section _ _ Hh). lia.
  - destruct (section_step rt c t (shared cfg) Hrt Hh (li_held _ _ Hinv _ _ Hi Hh))
      as (e & t' & sh' & Hts & Hcase).
    pose proof (step_mover _ _ _ _ _ _ _ Hi Hts) as Hs.
    pose proof (lock_inv_step rt Hrt c _ _ _ _ Hinv Hs) as Hinv'.
    cbn [repeat]. unfold final. rewrite run_cons, Hs. cbn [snd].
    destruct Hcase as [[Hh' Hl] | (-> & Hone & Hz & Hh')].
    + edestruct (IH _ i t' Hinv') as (H1 & H2 & H3);
        [by eapply lookup_mover | done | lia |].
      split; [done |]. split; [done |].
      intros j Hne. rewrite H3 by done. cbn [threads]. by apply list_lookup_insert_ne.
    + assert (k = 0%nat) as -> by lia. cbn [repeat]. unfold final. cbn [run snd shared].
      split; [done |]. split; [done |].
      intros j Hne. cbn [threads]. by apply list_lookup_insert_ne.
Qed.

(** X5: no deadlock. With threads, from a configuration where Counter
    [c] is allocated, its lock word is free and every thread is between
    calls, after any schedule: for a thread that is in the loop of
    [lock] on [c] there is a further schedule of at most four steps
    after which it holds the lock. The steps are those of the thread
    that holds the lock, up to its [unlock], and one turn of the loop. *)
Theorem waiting_thread_can_acquire
    (rt : Runtime) (c : Z) (cfg : Config) (sched : list nat) (j : nat) (tj : Thread) :
  KONAN_NO_THREADS rt = false ->
  c < next (shared cfg) ->
  flag (shared cfg) c = 0 ->
  all_idle cfg ->
  let cfg' := final rt sched cfg in
  threads cfg' !! j = Some tj ->
  waits c (pc tj) = true ->
  exists s2 tj',
    (length s2 <= 4)%nat /\
    threads (final rt s2 cfg') !! j = Some tj' /\
    holds c (pc tj') = true.
Proof.
  intros Hrt Hal Hfree Hidle cfg' Hj Hw.
  assert (lock_inv c cfg') as Hinv.
  { apply lock_inv_run; [done |]. by apply lock_inv_init. }
  assert (forall cfg0, threads cfg0 !! j = Some tj -> flag (shared cfg0) c = 0 ->
            exists tj', threads (final rt [j] cfg0) !! j = Some tj' /\
                        holds c (pc tj') = true) as Htake.
  { intros cfg0 Hj0 Hz.
    destruct (acquire_step rt c tj (shared cfg0) Hw Hz) as (e & t' & sh' & Hts & Hh').
    exists t'. unfold final. rewrite run_cons, (step_mover _ _ _ _ _ _ _ Hj0 Hts).
    cbn [snd]. unfold final. cbn [run snd threads].
    split; [by eapply lookup_mover | done]. }
  destruct (li_flag _ _ Hinv) as [Hz | Hone].
  - destruct (Htake cfg' Hj Hz) as (tj' & Hj' & Hh').
    exists [j], tj'. cbn [length]. split; [lia | done].
  - destruct (li_owner _ _ Hinv Hone) as (i & t & Hi & Hh).
    assert (i ≠ j) as Hne.
    { intros ->. assert (t = tj) as -> by congruence.
      rewrite (waits_not_holds _ _ Hw) in Hh. done. }
    pose proof (holds_section _ _ Hh) as Hsec.
    destruct (holder_releases rt c _ Hrt cfg' i t Hinv Hi Hh eq_refl) as (Hz & _ & Hsame).
    destruct (Htake (final rt (repeat i (section_left (pc t))) cfg')) as (tj' & Hj' & Hh');
      [by rewrite Hsame | done |].
    exists (repeat i (section_left (pc t)) ++ [j]), tj'.
    rewrite final_app, length_app, repeat_length. cbn [length].
    split; [lia | done].
Qed.

Lemma waiting_thread_can_acquire_witness :
  exists s2 tj',
    (length s2 <= 4)%nat /\
    threads (final example_runtime s2
               (final example_runtime [0; 0; 1; 1]%nat example_config)) !! 1%nat =
      Some tj' /\
    holds 100 (pc tj') = true.
Proof.
  apply (waiting_thread_can_acquire example_runtime 100 example_config
           [0; 0; 1; 1]%nat 1%nat
           {| pc := InGet 100 get_lock; todo := [call_get 100; call_get 100] |}).
  - reflexivity.
  - reflexivity.
  - reflexivity.
  - repeat constructor.
  - reflexivity.
  - reflexivity.
Defined.

(** *** Calls that cannot be held up *)

(** A step of a thread inside a call that has no [lock] and no [unlock]
    ahead of it, an acquisition or any call of the build without
    threads: it is the return, or it brings the return one step nearer,
    whatever the heap holds. *)
Lemma free_step_progress (rt : Runtime) (cl : Call) (t : Thread) (sh : Shared) :
  KONAN_NO_THREADS rt = true \/ (exists r, cl = call_getWeakReferenceImpl r) ->
  making cl (pc t) ->
  at_lock (pc t) = false ->
  exists e t' sh',
    thread_step rt t sh = Some (e, t', sh') /\
    ((exists res, e = EvReturn cl res) \/
     (making cl (pc t') /\ at_lock (pc t') = false /\
      (return_left rt (pc t') < return_left rt (pc t))%nat)).
Proof.
  intros Hfree Hm Hl. destruct t as [p td]. cbn [pc] in *.
  destruct p as [| r [] | c [] | c [] | cl' res | ?];
    cbn [making at_lock] in Hm, Hl; try done; subst.
  all: try (destruct Hfree as [Hrt | [r0 Hany]]; [| discriminate Hany]).
  all: unfold thread_step;
    cbn [pc todo Konan_getWeakReferenceImpl Konan_WeakReferenceCounter_get
           WeakReferenceCounterClear].
  all: rewrite ?Hrt.
  all: repeat match goal with
         | |- context [makeWeakReferenceCounter ?a ?b] =>
             destruct (makeWeakReferenceCounter a b) as [? ?]
         | |- context [UpdateRefIfNull ?a ?b ?d] =>
             destruct (UpdateRefIfNull a b d) as [? ?]
         end.
  all: eexists _, _, _; split; [reflexivity |].
  all: try (left; by eexists).
  all: right; cbn [continue pc making at_lock return_left impl_left].
  all: rewrite ?Hrt.
  all: repeat match goal with
         | |- context [if ?b then _ else _] => destruct b
         end.
  all: cbn [continue pc making at_lock return_left impl_left].
  all: repeat split; try done; lia.
Qed.

Lemma free_call_returns (rt : Runtime) (cl : Call) (cfg : Config) (i : nat) (t : Thread)
    (sched : list nat) :
  KONAN_NO_THREADS rt = true \/ (exists r, cl = call_getWeakReferenceImpl r) ->
  threads cfg !! i = Some t ->
  making cl (pc t) ->
  at_lock (pc t) = false ->
  (return_left rt (pc t) <= turns i sched)%nat ->
  exists res, In (i, EvReturn cl res) (trace rt sched cfg).
Proof.
  intros Hfree Hi Hm Hl Hturns.
  assert (1 <= return_left rt (pc t))%nat as Hpos.
  { destruct (pc t) as [| ? [] | ? [] | ? [] | ? ? | ?]; cbn in *; try done;
      try destruct (KONAN_NO_THREADS rt); lia. }
  destruct (run_progress rt i
              (fun n cfg0 =>
                 exists t0, threads cfg0 !! i = Some t0 /\ making cl (pc t0) /\
                            at_lock (pc t0) = false /\
                            (return_left rt (pc t0) <= S n)%nat)
              (fun e => exists res, e = EvReturn cl res))
    with (sched := sched) (n := pred (return_left rt (pc t))) (cfg := cfg)
    as (e & [res ->] & Hin); [| | | lia | by exists res].
  - intros n j cfg0 e cfg1 Hne (t0 & Hi0 & Hrest) Hs.
    exists t0. by rewrite (step_bystander _ _ _ _ _ _ Hs Hne).
  - intros n cfg0 (t0 & Hi0 & Hm0 & Hl0 & Hn).
    destruct (free_step_progress rt cl t0 (shared cfg0) Hfree Hm0 Hl0)
      as (e & t' & sh' & Hts & Hcase).
    eexists _, _. split; [exact (step_mover _ _ _ _ _ _ _ Hi0 Hts) |].
    destruct Hcase as [Hret | (Hm' & Hl' & Hlt)]; [by left | right].
    destruct n as [| m].
    { exfalso.
      destruct (pc t') as [| ? [] | ? [] | ? [] | ? ? | ?]; cbn in *; try done;
        try destruct (KONAN_NO_THREADS rt); lia. }
    exists m. split; [done |]. exists t'.
    split; [by eapply lookup_mover |]. repeat split; try done. lia.
  - exists t. repeat split; try done. lia.
Qed.

(** X6: acquisition cannot be held up. In either build, from any
    configuration, whatever the heap holds and the other threads do: a
    thread inside [Konan_getWeakReferenceImpl] returns from it within
    [impl_left] of its own steps, which is at most eight; the function
    has no loop and waits for nobody. *)
Theorem acquisition_wait_free
    (rt : Runtime) (r : Z) (cfg : Config) (i : nat) (t : Thread) (p : ImplPC)
    (sched : list nat) :
  threads cfg !! i = Some t ->
  pc t = InImpl r p ->
  (impl_left p <= turns i sched)%nat ->
  (impl_left p <= 8)%nat /\
  exists res, In (i, EvReturn (call_getWeakReferenceImpl r) res) (trace rt sched cfg).
Proof.
  intros Hi Hpc Hturns. split; [destruct p; cbn; lia |].
  apply (free_call_returns rt _ cfg i t); [right; by eexists | done | | |];
    rewrite Hpc; done.
Qed.

Lemma acquisition_wait_free_witness :
  (impl_left impl_classify <= 8)%nat /\
  exists res,
    In (1%nat, EvReturn (call_getWeakReferenceImpl 6) res)
       (trace example_runtime [0; 1; 2; 1; 0; 1; 1; 2; 1; 1; 1; 1]%nat
          (final example_runtime [0; 1]%nat acquire_config)).
Proof.
  apply (acquisition_wait_free example_runtime 6
           (final example_runtime [0; 1]%nat acquire_config) 1%nat
           {| pc := InImpl 6 impl_classify; todo := [] |}).
  - reflexivity.
  - reflexivity.
  - vm_compute. lia.
Defined.

(** *** The build without threads *)

(** A step in the build without threads, of a thread that is at no
    [lock] and no [unlock]: it comes to none, makes no compare-and-swap,
    and leaves the lock word of every allocated Counter as it is. *)
Lemma no_threads_mover (rt : Runtime) (c : Z) (t t' : Thread) (sh sh' : Shared) (e : Event) :
  KONAN_NO_THREADS rt = true ->
  thread_step rt t sh = Some (e, t', sh') ->
  at_lock (pc t) = false ->
  at_lock (pc t') = false /\ is_cas e = false /\
  (c < next sh -> c < next sh' /\ flag sh' c = flag sh c).
Proof.
  intros Hrt Hs Hl.
  thread_cases Hs; cbn [pc at_lock] in Hl; try discriminate Hl.
  all: rewrite ?Hrt in Hs; simpl in Hs.
  all: repeat match type of Hs with
         | context [if ?b then _ else _] => destruct b
         end.
  all: injection Hs as <- <- <-.
  all: cbn [pc at_lock continue is_cas next set_mem mem].
  all: split; [done |]; split; [done |]; intros Hc.
  all: split; [simpl; lia |].
  all: unfold flag; cbn [mem set_mem]; unfold store_ptr; by mem_simpl.
Qed.

(** X7: the build without threads never locks. With [KONAN_NO_THREADS],
    from a configuration where every thread is between calls, along any
    schedule: no step is a compare-and-swap, no thread comes to a [lock]
    or an [unlock] or stops on a failed assertion, and the lock word of
    every Counter allocated at the start keeps its value. And a thread
    that is inside any of the three functions returns from it within
    [return_left] of its own steps, whatever the others do: at most
    three for a materialization or a clear. *)
Theorem no_threads_never_locks (rt : Runtime) (cfg : Config) (sched : list nat) :
  KONAN_NO_THREADS rt = true ->
  all_idle cfg ->
  let cfg' := final rt sched cfg in
  (forall i e, In (i, e) (trace rt sched cfg) -> is_cas e = false) /\
  (forall i t, threads cfg' !! i = Some t -> at_lock (pc t) = false) /\
  (forall c, c < next (shared cfg) -> flag (shared cfg') c = flag (shared cfg) c) /\
  (forall i t cl s2,
     threads cfg' !! i = Some t ->
     making cl (pc t) ->
     (return_left rt (pc t) <= turns i s2)%nat ->
     exists res, In (i, EvReturn cl res) (trace rt s2 cfg')) /\
  (forall i t,
     threads cfg' !! i = Some t ->
     (forall r p, pc t ≠ InImpl r p) ->
     (return_left rt (pc t) <= 3)%nat).
Proof.
  intros Hrt Hidle cfg'.
  destruct (run_invariant rt
              (fun cfg0 =>
                 (forall i t, threads cfg0 !! i = Some t -> at_lock (pc t) = false) /\
                 (forall c, c < next (shared cfg) ->
                    c < next (shared cfg0) /\
                    flag (shared cfg0) c = flag (shared cfg) c))
              (fun _ e => is_cas e = false))
    with (sched := sched) (cfg := cfg) as [[Hat Hflag] Htr].
  { intros i cfg0 e cfg1 [Hat0 Hfl0] Hs.
    destruct (step_inv _ _ _ _ _ Hs) as (t & t' & sh' & Hi & Hts & ->).
    cbn [shared threads].
    destruct (no_threads_mover rt 0 _ _ _ _ _ Hrt Hts (Hat0 _ _ Hi)) as (Hat' & Hev & _).
    split; [split |]; [| | done].
    - intros j tj Hj.
      destruct (lookup_moved _ _ _ _ _ _ Hi Hj) as [[-> ->] | [Hne Hj']]; eauto.
    - intros c Hc. destruct (Hfl0 c Hc) as [Hc0 Hf0].
      destruct (no_threads_mover rt c _ _ _ _ _ Hrt Hts (Hat0 _ _ Hi)) as (_ & _ & Hfr).
      destruct (Hfr Hc0) as [Hc1 Hf1]. split; [done | congruence]. }
  { split; [| done]. intros i t Hi. by rewrite (all_idle_lookup _ _ _ Hidle Hi). }
  fold cfg' in Hat, Hflag.
  split; [done |]. split; [done |]. split; [intros c Hc; by apply Hflag |]. split.
  - intros i t cl s2 Hi Hm Hturns.
    apply (free_call_returns rt cl cfg' i t); [by left | done | done | by eapply Hat | done].
  - intros i t Hi Hnot. pose proof (Hat _ _ Hi) as Hl.
    destruct (pc t) as [| r p | ? [] | ? [] | ? ? | ?];
      cbn in *; rewrite ?Hrt; try done; try lia.
    by destruct (Hnot r p).
Qed.

Lemma no_threads_never_locks_witness :
  let rt := with_no_threads true example_runtime in
  let cfg' := final rt example_schedule example_config in
  (forall i e, In (i, e) (trace rt example_schedule example_config) -> is_cas e = false) /\
  (forall i t, threads cfg' !! i = Some t -> at_lock (pc t) = false) /\
  (forall c, c < next (shared example_config) ->
     flag (shared cfg') c = flag (shared example_config) c) /\
  (forall i t cl s2,
     threads cfg' !! i = Some t ->
     making cl (pc t) ->
     (return_left rt (pc t) <= turns i s2)%nat ->
     exists res, In (i, EvReturn cl res) (trace rt s2 cfg')) /\
  (forall i t,
     threads cfg' !! i = Some t ->
     (forall r p, pc t ≠ InImpl r p) ->
     (return_left rt (pc t) <= 3)%nat).
Proof.
  apply (no_threads_never_locks (with_no_threads true example_runtime)
           example_config example_schedule).
  - reflexivity.
  - repeat constructor.
Defined.

(** *** Locking is per Counter *)

Lemma uses_holds (c : Z) (t : Thread) : uses c t = false -> holds c (pc t) = false.
Proof.
  unfold uses. intros Hu. apply orb_false_iff in Hu as [Hp _].
  by destruct (pc t) as [| ? ? | ? [] | ? [] | ? ? | ?].
Qed.

(** A thread that has nothing to do with [c] has nothing to do with it
    after its step either. *)
Lemma uses_step (rt : Runtime) (c : Z) (t t' : Thread) (sh sh' : Shared) (e : Event) :
  thread_step rt t sh = Some (e, t', sh') ->
  uses c t = false ->
  uses c t' = false.
Proof.
  intros Hs Hu. destruct t as [p td]. unfold uses, thread_step in *. cbn [pc todo] in *.
  apply orb_false_iff in Hu as [Hp Htd].
  destruct p as [| r ip | c' gp | c' cp | cl res | cl].
  - destruct td as [| cl rest]; [discriminate Hs |].
    injection Hs as <- <- <-. cbn [pc todo existsb] in *.
    apply orb_false_iff in Htd as [Hcl Hrest]. rewrite Hrest.
    by destruct cl; cbn in *; rewrite ?Hcl.
  - destruct (Konan_getWeakReferenceImpl rt r ip sh) as [[e0 n] sh0].
    injection Hs as <- <- <-. cbn [pc todo]. rewrite Htd. by destruct n.
  - destruct (Konan_WeakReferenceCounter_get rt c' gp sh) as [[e0 n] sh0].
    injection Hs as <- <- <-. cbn [pc todo]. rewrite Htd. destruct n; cbn; by rewrite ?Hp.
  - destruct (WeakReferenceCounterClear rt c' cp sh) as [[e0 n] sh0].
    injection Hs as <- <- <-. cbn [pc todo]. rewrite Htd. destruct n; cbn; by rewrite ?Hp.
  - injection Hs as <- <- <-. cbn [pc todo]. by rewrite Htd.
  - discriminate Hs.
Qed.

(** Its step leaves [c]'s lock word and the words of [c]'s slot alone. *)
Lemma unrelated_step (rt : Runtime) (c : Z) (t t' : Thread) (sh sh' : Shared) (e : Event) :
  KONAN_NO_THREADS rt = false ->
  thread_step rt t sh = Some (e, t', sh') ->
  c < next sh ->
  uses c t = false ->
  c < next sh' /\ uses c t' = false /\ flag sh' c = flag sh c /\
  load (mem sh') (referredAddress c) = load (mem sh) (referredAddress c) /\
  load (mem sh') (upper (referredAddress c)) = load (mem sh) (upper (referredAddress c)).
Proof.
  intros Hrt Hs Hc Hu.
  pose proof (uses_step _ _ _ _ _ _ _ Hs Hu) as Hu'.
  pose proof (uses_holds _ _ Hu) as Hh.
  pose proof (uses_holds _ _ Hu') as Hh'.
  destruct (slot_words_frame rt c _ _ _ _ _ Hs Hc Hh) as [Hlo Hhi].
  destruct (lock_step_cases rt Hrt c t t' sh sh' e Hs Hc)
    as [Hc' [(_ & Hf & _) | [(_ & Hk & _) | (Hk & _)]]]; [done | congruence | congruence].
Qed.

Lemma alone_local_frame (c lo0 hi0 : Z) (sh sh' : Shared) (p : PC) :
  flag sh' c = flag sh c ->
  load (mem sh') (referredAddress c) = load (mem sh) (referredAddress c) ->
  load (mem sh') (upper (referredAddress c)) = load (mem sh) (upper (referredAddress c)) ->
  alone_local c lo0 hi0 sh p ->
  alone_local c lo0 hi0 sh' p.
Proof.
  intros Hf Hlo Hhi.
  destruct p as [| ? ? | ? [] | ? [] | ? ? | ?]; cbn [alone_local];
    by rewrite ?Hf, ?Hlo, ?Hhi.
Qed.

(** A step of the thread that has [c] to itself: it is the return, of
    the slot for a materialization, or it brings the return one step
    nearer. *)
Lemma alone_step (rt : Runtime) (c lo0 hi0 : Z) (cl : Call) (t : Thread) (sh : Shared) :
  KONAN_NO_THREADS rt = false ->
  making cl (pc t) ->
  alone_local c lo0 hi0 sh (pc t) ->
  exists e t' sh',
    thread_step rt t sh = Some (e, t', sh') /\
    next sh' = next sh /\
    (e = EvReturn cl (expected cl lo0 hi0) \/
     (making cl (pc t') /\ alone_local c lo0 hi0 sh' (pc t') /\
      (return_left rt (pc t') < return_left rt (pc t))%nat)).
Proof.
  intros Hrt Hm Ha. destruct t as [p td]. cbn [pc] in *. unfold flag in *.
  destruct p as [| ? ? | c' [] | c' [] | cl' res | ?];
    cbn [making alone_local] in Hm, Ha; try done.
  all: try (destruct Ha as (-> & Hlo & Hhi & Ha)).
  all: try (destruct Ha as (-> & Ha)).
  all: try (destruct Ha as (Ha & ->)).
  all: subst.
  all: unfold thread_step;
    cbn [pc todo Konan_WeakReferenceCounter_get WeakReferenceCounterClear].
  all: rewrite ?Hrt, ?lock_iteration_free, ?unlock_held by done.
  all: eexists _, _, _; split; [reflexivity |].
  all: split; [done |].
  all: try (left; reflexivity).
  all: right; cbn [continue pc making alone_local return_left mem set_mem expected].
  all: rewrite ?Hrt; unfold flag; cbn [mem set_mem]; mem_simpl.
  all: repeat split; try done; lia.
Qed.

(** X8: locking is per Counter. With threads, from any configuration in
    which Counter [c] is allocated and its lock word free, a thread is
    entering a materialization or a clear of [c], and no other thread is
    in, or has still to make, a materialization or a clear of [c]:
    whatever the other threads do, be it spinning on or holding the lock
    of another Counter, the call returns within five steps of its own
    thread, and a materialization returns what the slot held. *)
Theorem uncontended_call_returns
    (rt : Runtime) (c : Z) (cl : Call) (cfg : Config) (i : nat) (t : Thread)
    (sched : list nat) :
  KONAN_NO_THREADS rt = false ->
  c < next (shared cfg) ->
  flag (shared cfg) c = 0 ->
  call_on c cl = true ->
  threads cfg !! i = Some t ->
  pc t = entry rt cl ->
  (forall j tj, j ≠ i -> threads cfg !! j = Some tj -> uses c tj = false) ->
  (5 <= turns i sched)%nat ->
  In (i, EvReturn cl (match cl with
                      | call_get _ => RObj (slot (shared cfg) c)
                      | _ => RVoid
                      end))
     (trace rt sched cfg).
Proof.
  intros Hrt Hal Hfree Hcl Hi Hpc Hothers Hturns.
  set (lo0 := load (mem (shared cfg)) (referredAddress c)).
  set (hi0 := load (mem (shared cfg)) (upper (referredAddress c))).
  destruct (run_progress rt i
              (fun n cfg0 =>
                 c < next (shared cfg0) /\
                 (forall j tj, j ≠ i -> threads cfg0 !! j = Some tj -> uses c tj = false) /\
                 exists t0, threads cfg0 !! i = Some t0 /\ making cl (pc t0) /\
                            alone_local c lo0 hi0 (shared cfg0) (pc t0) /\
                            (return_left rt (pc t0) <= S n)%nat)
              (fun e => e = EvReturn cl (expected cl lo0 hi0)))
    with (sched := sched) (n := 4%nat) (cfg := cfg)
    as (e & -> & Hin); [| | | lia |].
  - intros n j cfg0 e cfg1 Hne (Hc0 & Hoth0 & t0 & Hi0 & Hm0 & Ha0 & Hn) Hs.
    destruct (step_inv _ _ _ _ _ Hs) as (tj & tj' & sh' & Hj & Hts & ->).
    destruct (unrelated_step rt c _ _ _ _ _ Hrt Hts Hc0 (Hoth0 _ _ Hne Hj))
      as (Hc1 & Hu' & Hf & Hlo & Hhi).
    cbn [shared threads]. split; [done |]. split.
    + intros k tk Hk Hlk.
      destruct (lookup_moved _ _ _ _ _ _ Hj Hlk) as [[-> ->] | [Hnk Hk']]; eauto.
    + exists t0. split; [by rewrite list_lookup_insert_ne |].
      split; [done |]. split; [by eapply alone_local_frame | done].
  - intros n cfg0 (Hc0 & Hoth0 & t0 & Hi0 & Hm0 & Ha0 & Hn).
    destruct (alone_step rt c lo0 hi0 cl t0 (shared cfg0) Hrt Hm0 Ha0)
      as (e & t' & sh' & Hts & Hnext & Hcase).
    eexists _, _. split; [exact (step_mover _ _ _ _ _ _ _ Hi0 Hts) |].
    destruct Hcase as [Hret | (Hm' & Ha' & Hlt)]; [by left | right].
    destruct n as [| m].
    { exfalso.
      destruct (pc t') as [| ? ? | ? [] | ? [] | ? ? | ?]; cbn in *; try done;
        rewrite ?Hrt in *; lia. }
    exists m. split; [done |]. cbn [shared threads]. split; [by rewrite Hnext |]. split.
    + intros k tk Hk Hlk. rewrite list_lookup_insert_ne in Hlk by done. eauto.
    + exists t'. split; [by eapply lookup_mover |]. repeat split; try done. lia.
  - split; [done |]. split; [done |]. exists t. split; [done |].
    rewrite Hpc. destruct cl as [r | c' | c']; cbn in Hcl; [done | |].
    all: apply Z.eqb_eq in Hcl; subst c'.
    all: cbn [entry]; rewrite Hrt; cbn [making alone_local return_left].
    all: repeat split; try done; lia.
  - destruct cl as [r | c' | c']; cbn in Hcl; done.
Qed.

Lemma uncontended_call_returns_witness :
  In (0%nat, EvReturn (call_get 100) (RObj (slot (shared busy_config) 100)))
     (trace example_runtime busy_schedule busy_config).
Proof.
  apply (uncontended_call_returns example_runtime 100 (call_get 100) busy_config 0%nat
           {| pc := InGet 100 get_lock; todo := [] |} busy_schedule).
  - reflexivity.
  - reflexivity.
  - reflexivity.
  - reflexivity.
  - reflexivity.
  - reflexivity.
  - intros [| [| [| j]]] tj Hne Hj; [done | | | discriminate Hj];
      injection Hj as <-; reflexivity.
  - vm_compute. lia.
Defined.

(** ** More on the Counter Cache *)

(** With the Cache entry of [r] set, a step makes no Counter for [r] and
    is no [UpdateRefIfNull] on the entry. *)
Lemma hit_mover (rt : Runtime) (r : Z) (t t' : Thread) (sh sh' : Shared) (e : Event) :
  thread_step rt t sh = Some (e, t', sh') ->
  cache sh r ≠ nullptr ->
  hit_local r sh (pc t) ->
  hit_local r sh' (pc t') /\ allocates_for r e = false.
Proof.
  intros Hs Hset Hp.
  thread_cases Hs.
  all: repeat match type of Hs with
         | context [if ?b then _ else _] => destruct b eqn:?
         end.
  all: injection Hs as <- <- <-.
  all: cbn [pc hit_local continue set_mem mem allocates_for] in *.
  all: split; try done.
  all: try (intros ->; specialize (Hp eq_refl); subst;
            unfold cache, load_ptr in Hset; by apply Z.eqb_eq in Heqb).
  all: try (by apply Z.eqb_neq).
  all: try (by intros ->).
  all: apply bool_decide_eq_false_2; unfold counterCacheAddress; intros [=]; done.
Qed.

Lemma hit_bystander (r : Z) (sh sh' : Shared) (p : PC) :
  load (mem sh') (counterCacheAddress r) = load (mem sh) (counterCacheAddress r) ->
  hit_local r sh p -> hit_local r sh' p.
Proof.
  intros Hlo. destruct p as [| ? [] | ? ? | ? ? | ? ? | ?]; cbn [hit_local]; try done.
  by rewrite Hlo.
Qed.

(** An acquisition that finds the Cache entry set, from the test of l.56
    on and alone: four word loads, and the heap as it was. *)
Lemma getWeakReferenceImpl_hit (rt : Runtime) (fuel : nat) (r : Z) (sh : Shared) :
  cache sh r ≠ nullptr ->
  exec_call rt (5 + fuel) (InImpl r impl_check_lo) sh =
    ([EvLoad (counterCacheAddress r) (load (mem sh) (counterCacheAddress r));
      EvLoad (upper (counterCacheAddress r)) (load (mem sh) (upper (counterCacheAddress r)));
      EvLoad (counterCacheAddress r) (load (mem sh) (counterCacheAddress r));
      EvLoad (upper (counterCacheAddress r)) (load (mem sh) (upper (counterCacheAddress r)))],
     Returned (RObj (cache sh r)) sh).
Proof.
  intros Hset.
  cbn -[Z.eqb]. fold (load_ptr (mem sh) (counterCacheAddress r)). fold (cache sh r).
  destruct (Z.eqb_spec (cache sh r) nullptr) as [Hnull | _]; [done |].
  reflexivity.
Qed.

(** The same from the entry of the function, for a native referent. *)
Lemma getWeakReferenceImpl_hit_alone (rt : Runtime) (fuel : nat) (r : Z) (sh : Shared) :
  foreign rt r = false ->
  cache sh r ≠ nullptr ->
  exists es,
    exec_call rt (6 + fuel) (entry rt (call_getWeakReferenceImpl r)) sh =
      (es, Returned (RObj (cache sh r)) sh) /\
    Forall (fun e => allocates_for r e = false) es.
Proof.
  intros Hnat Hset. unfold foreign in Hnat.
  cbn [entry]. destruct (KONAN_OBJC_INTEROP rt).
  - cbn [andb] in Hnat. change (6 + fuel)%nat with (S (5 + fuel)).
    cbn [exec_call thread_step pc todo Konan_getWeakReferenceImpl continue].
    rewrite Hnat, getWeakReferenceImpl_hit by done.
    eexists. split; [reflexivity |]. repeat constructor.
  - change (6 + fuel)%nat with (5 + (1 + fuel))%nat.
    rewrite getWeakReferenceImpl_hit by done.
    eexists. split; [reflexivity |]. repeat constructor.
Qed.

(** X9: a Counter that is installed is reused. From a configuration
    where the Cache entry of [r] is set and every thread is between
    calls, along any schedule: no step makes a Counter for [r] or is an
    [UpdateRefIfNull] on the entry, and the entry stays what it was; for
    a native referent every acquisition returns that entry; and run
    alone on such a heap an acquisition for a native referent returns
    the entry and leaves the heap, the allocator included, as it was. *)
Theorem installed_counter_is_reused
    (rt : Runtime) (r : Z) (cfg : Config) (sched : list nat) :
  cache (shared cfg) r ≠ nullptr ->
  all_idle cfg ->
  (forall i e, In (i, e) (trace rt sched cfg) -> allocates_for r e = false) /\
  cache (shared (final rt sched cfg)) r = cache (shared cfg) r /\
  (foreign rt r = false -> 0 < next (shared cfg) ->
   forall i res,
     In (i, EvReturn (call_getWeakReferenceImpl r) res) (trace rt sched cfg) ->
     res = RObj (cache (shared cfg) r)) /\
  (foreign rt r = false ->
   forall fuel sh, cache sh r ≠ nullptr ->
     call rt (6 + fuel) (call_getWeakReferenceImpl r) sh = Returned (RObj (cache sh r)) sh /\
     Forall (fun e => allocates_for r e = false)
            (call_events rt (6 + fuel) (call_getWeakReferenceImpl r) sh)).
Proof.
  intros Hset Hidle.
  destruct (cache_stable_run rt r sched cfg Hset) as [Hsame _].
  split; [| split; [done |]; split].
  - destruct (run_invariant rt
                (fun cfg0 =>
                   cache (shared cfg0) r ≠ nullptr /\
                   forall i t, threads cfg0 !! i = Some t ->
                               hit_local r (shared cfg0) (pc t))
                (fun _ e => allocates_for r e = false))
      with (sched := sched) (cfg := cfg) as [_ Htr]; [| | done].
    + intros i cfg0 e cfg1 [Hset0 Hloc0] Hs.
      destruct (cache_stable_step _ r _ _ _ _ Hs Hset0) as (Hlo & Hhi & _).
      destruct (step_inv _ _ _ _ _ Hs) as (t & t' & sh' & Hi & Hts & ->).
      cbn [shared threads] in *.
      destruct (hit_mover rt r _ _ _ _ _ Hts Hset0 (Hloc0 _ _ Hi)) as [Hmine Hev].
      split; [split |]; [| | done].
      * by rewrite (cache_frame _ _ _ Hlo Hhi).
      * intros j tj Hj.
        destruct (lookup_moved _ _ _ _ _ _ Hi Hj) as [[-> ->] | [Hne Hj']]; [done |].
        eapply hit_bystander; eauto.
    + split; [done |]. intros i t Hi. by rewrite (all_idle_lookup _ _ _ Hidle Hi).
  - intros Hnat Hal i res Hin.
    destruct (cache_inv_run rt r sched cfg Hnat (cache_inv_init rt r cfg Hal Hidle))
      as (_ & Hret & _).
    destruct (Hret _ _ Hin) as [_ ->]. by rewrite Hsame.
  - intros Hnat fuel sh Hset'.
    destruct (getWeakReferenceImpl_hit_alone rt fuel r sh Hnat Hset') as (es & Hex & Hes).
    unfold call, call_events. by rewrite Hex.
Qed.

Lemma installed_counter_is_reused_witness :
  (forall i e,
     In (i, e) (trace example_runtime reuse_schedule reuse_config) ->
     allocates_for 5 e = false) /\
  cache (shared (final example_runtime reuse_schedule reuse_config)) 5 =
    cache (shared reuse_config) 5 /\
  (foreign example_runtime 5 = false -> 0 < next (shared reuse_config) ->
   forall i res,
     In (i, EvReturn (call_getWeakReferenceImpl 5) res)
        (trace example_runtime reuse_schedule reuse_config) ->
     res = RObj (cache (shared reuse_config) 5)) /\
  (foreign example_runtime 5 = false ->
   forall fuel sh, cache sh 5 ≠ nullptr ->
     call example_runtime (6 + fuel) (call_getWeakReferenceImpl 5) sh =
       Returned (RObj (cache sh 5)) sh /\
     Forall (fun e => allocates_for 5 e = false)
            (call_events example_runtime (6 + fuel) (call_getWeakReferenceImpl 5) sh)).
Proof.
  apply (installed_counter_is_reused example_runtime 5 reuse_config reuse_schedule).
  - vm_compute. discriminate.
  - repeat constructor.
Defined.

(** ** The build without ObjC interop *)

Lemma interop_off_mover (rt : Runtime) (t t' : Thread) (sh sh' : Shared) (e : Event) :
  KONAN_OBJC_INTEROP rt = false ->
  thread_step rt t sh = Some (e, t', sh') ->
  in_interop (pc t) = false ->
  in_interop (pc t') = false /\ interop_event e = false.
Proof.
  intros Hrt Hs Hp.
  thread_cases Hs; cbn [pc in_interop] in Hp; try discriminate Hp.
  all: rewrite ?Hrt in Hs.
  all: repeat match type of Hs with
         | context [if ?b then _ else _] => destruct b
         end.
  all: injection Hs as <- <- <-.
  all: by cbn.
Qed.

(** X10: without ObjC interop every referent is native. In a build
    without [KONAN_OBJC_INTEROP], from a configuration where every
    thread is between calls, along any schedule: no step is the type
    test, a load of [meta->associatedObject_] or a call of the adapter,
    whatever [IsInstance] would say of the referent; and an acquisition
    run alone takes the Counter path for every referent and returns the
    Counter in the Cache entry. *)
Theorem no_interop_all_native (rt : Runtime) (cfg : Config) (sched : list nat) :
  KONAN_OBJC_INTEROP rt = false ->
  all_idle cfg ->
  (forall i e, In (i, e) (trace rt sched cfg) -> interop_event e = false) /\
  (forall i t, threads (final rt sched cfg) !! i = Some t -> in_interop (pc t) = false) /\
  (forall r fuel sh, 0 < next sh ->
     exists sh',
       call rt (8 + fuel) (call_getWeakReferenceImpl r) sh =
         Returned (RObj (cache sh' r)) sh' /\
       cache sh' r ≠ nullptr).
Proof.
  intros Hrt Hidle.
  destruct (run_invariant rt
              (fun cfg0 => forall i t, threads cfg0 !! i = Some t -> in_interop (pc t) = false)
              (fun _ e => interop_event e = false))
    with (sched := sched) (cfg := cfg) as [Hfin Htr].
  { intros i cfg0 e cfg1 H0 Hs.
    destruct (step_inv _ _ _ _ _ Hs) as (t & t' & sh' & Hi & Hts & ->).
    destruct (interop_off_mover rt _ _ _ _ _ Hrt Hts (H0 _ _ Hi)) as [Hmine Hev].
    split; [| done]. cbn [threads]. intros j tj Hj.
    destruct (lookup_moved _ _ _ _ _ _ Hi Hj) as [[-> ->] | [Hne Hj']]; eauto. }
  { intros i t Hi. by rewrite (all_idle_lookup _ _ _ Hidle Hi). }
  split; [done |]. split; [done |].
  intros r fuel sh Hn.
  assert (foreign rt r = false) as Hnat by (unfold foreign; by rewrite Hrt).
  destruct (getWeakReferenceImpl_alone rt fuel r sh Hnat Hn) as (sh' & Hcall & Hset & _).
  by exists sh'.
Qed.

Lemma no_interop_all_native_witness :
  (forall i e,
     In (i, e) (trace native_runtime foreign_schedule foreign_config) ->
     interop_event e = false) /\
  (forall i t,
     threads (final native_runtime foreign_schedule foreign_config) !! i = Some t ->
     in_interop (pc t) = false) /\
  (forall r fuel sh, 0 < next sh ->
     exists sh',
       call native_runtime (8 + fuel) (call_getWeakReferenceImpl r) sh =
         Returned (RObj (cache sh' r)) sh' /\
       cache sh' r ≠ nullptr).
Proof.
  apply (no_interop_all_native native_runtime foreign_config foreign_schedule).
  - reflexivity.
  - repeat constructor.
Defined.

(** ** The life of a weak reference *)

(** A materialization alone, in either build. *)
Lemma get_alone (rt : Runtime) (fuel : nat) (c : Z) (sh : Shared) :
  KONAN_NO_THREADS rt = true \/ flag sh c = 0 ->
  exists sh',
    call rt (5 + fuel) (call_get c) sh = Returned (RObj (slot sh c)) sh' /\
    (forall l, load (mem sh') l = load (mem sh) l) /\
    next sh' = next sh.
Proof.
  intros Hfree. unfold call. destruct (KONAN_NO_THREADS rt) eqn:Hrt.
  - change (5 + fuel)%nat with (3 + (2 + fuel))%nat.
    rewrite get_no_threads by done. by exists sh.
  - destruct Hfree as [? | Hfree]; [done |].
    rewrite get_threads_free by done.
    eexists. split; [reflexivity |]. cbn [mem set_mem next].
    split; [| done]. intros l. by apply load_relocked.
Qed.

(** A clear alone, in either build. *)
Lemma clear_alone (rt : Runtime) (fuel : nat) (c : Z) (sh : Shared) :
  KONAN_NO_THREADS rt = true \/ flag sh c = 0 ->
  exists sh',
    call rt (5 + fuel) (call_clear c) sh = Returned RVoid sh' /\
    (forall l, load (mem sh') l = load (cleared c (mem sh)) l) /\
    next sh' = next sh.
Proof.
  intros Hfree. unfold call. destruct (KONAN_NO_THREADS rt) eqn:Hrt.
  - change (5 + fuel)%nat with (3 + (2 + fuel))%nat.
    rewrite clear_no_threads by done. by eexists.
  - destruct Hfree as [? | Hfree]; [done |].
    rewrite clear_threads_free by done.
    eexists. split; [reflexivity |]. cbn [mem set_mem next].
    split; [| done]. intros l. by apply load_unlocked_cleared.
Qed.

(** Neither word of a Cache entry is a word of a slot or a lock word. *)
Lemma load_cleared_cache (c r : Z) (m : gmap Loc Z) :
  load (cleared c m) (counterCacheAddress r) = load m (counterCacheAddress r) /\
  load (cleared c m) (upper (counterCacheAddress r)) = load m (upper (counterCacheAddress r)) /\
  load (cleared c m) (lockAddress c) = load m (lockAddress c).
Proof.
  unfold cleared. by mem_simpl.
Qed.

(** X11: the life of a weak reference, in one thread. In either build,
    for a native referent [r] whose Cache entry holds the Counter [c],
    with [c]'s lock word free when there are threads: an acquisition
    returns [c] and leaves the heap as it is; a materialization returns
    what the slot holds; after a clear a materialization returns
    [nullptr]; and an acquisition still returns the same Counter [c]:
    clearing and materializing leave the Cache entry alone, so the
    Counter outlives the referent. *)
Theorem weak_reference_lifecycle (rt : Runtime) (r c : Z) (sh : Shared) (fuel : nat) :
  foreign rt r = false ->
  cache sh r = c ->
  c ≠ nullptr ->
  KONAN_NO_THREADS rt = true \/ flag sh c = 0 ->
  exists sh1 sh2 sh3,
    call rt (6 + fuel) (call_getWeakReferenceImpl r) sh = Returned (RObj c) sh /\
    call rt (6 + fuel) (call_get c) sh = Returned (RObj (slot sh c)) sh1 /\
    call rt (6 + fuel) (call_clear c) sh1 = Returned RVoid sh2 /\
    call rt (6 + fuel) (call_get c) sh2 = Returned (RObj nullptr) sh3 /\
    call rt (6 + fuel) (call_getWeakReferenceImpl r) sh3 = Returned (RObj c) sh3 /\
    next sh3 = next sh.
Proof.
  intros Hnat Hc Hset Hfree. subst c.
  assert (forall sh', (forall l, load (mem sh') l = load (mem sh) l) ->
            KONAN_NO_THREADS rt = true \/ flag sh' (cache sh r) = 0) as Hfree'.
  { intros sh' Hsame. destruct Hfree as [? | Hz]; [by left | right].
    unfold flag in *. by rewrite Hsame. }
  change (6 + fuel)%nat with (5 + (1 + fuel))%nat at 2 3 4.
  destruct (get_alone rt (1 + fuel) (cache sh r) sh Hfree) as (sh1 & Hget1 & Hmem1 & Hn1).
  destruct (clear_alone rt (1 + fuel) (cache sh r) sh1 (Hfree' _ Hmem1))
    as (sh2 & Hclear & Hmem2 & Hn2).
  destruct (load_cleared_cache (cache sh r) r (mem sh1)) as (Hlo & Hhi & Hlk).
  assert (KONAN_NO_THREADS rt = true \/ flag sh2 (cache sh r) = 0) as Hfree2.
  { destruct Hfree as [? | Hz]; [by left | right].
    unfold flag in *. by rewrite Hmem2, Hlk, Hmem1. }
  destruct (get_alone rt (1 + fuel) (cache sh r) sh2 Hfree2) as (sh3 & Hget2 & Hmem3 & Hn3).
  assert (cache sh3 r = cache sh r) as Hcache.
  { unfold cache, load_ptr. by rewrite !Hmem3, !Hmem2, Hlo, Hhi, !Hmem1. }
  assert (slot sh2 (cache sh r) = nullptr) as Hnull.
  { apply slot_null_slot. by apply (slot_null_cleared _ _ (mem sh1)). }
  exists sh1, sh2, sh3.
  destruct (getWeakReferenceImpl_hit_alone rt fuel r sh Hnat Hset) as (es & Hex & _).
  destruct (getWeakReferenceImpl_hit_alone rt fuel r sh3 Hnat) as (es3 & Hex3 & _);
    [by rewrite Hcache |].
  rewrite Hnull in Hget2.
  unfold call at 1 5. rewrite Hex, Hex3. cbn [snd]. rewrite Hcache.
  repeat split; try done. congruence.
Qed.

Lemma weak_reference_lifecycle_witness :
  exists sh1 sh2 sh3,
    call example_runtime 6 (call_getWeakReferenceImpl 5) example_heap =
      Returned (RObj 100) example_heap /\
    call example_runtime 6 (call_get 100) example_heap =
      Returned (RObj (slot example_heap 100)) sh1 /\
    call example_runtime 6 (call_clear 100) sh1 = Returned RVoid sh2 /\
    call example_runtime 6 (call_get 100) sh2 = Returned (RObj nullptr) sh3 /\
    call example_runtime 6 (call_getWeakReferenceImpl 5) sh3 = Returned (RObj 100) sh3 /\
    next sh3 = next example_heap.
Proof.
  apply (weak_reference_lifecycle example_runtime 5 100 example_heap 0).
  - reflexivity.
  - reflexivity.
  - discriminate.
  - right. reflexivity.
Defined.

(** ** Candidates that lose the race *)

Lemma allocates_makes (r : Z) (e : Event) :
  allocates_for r e = false -> makes_for r e = false.
Proof. by destruct e. Qed.

(** Once a thread has made a Counter for [r], its steps make no other. *)
Lemma made_mover (rt : Runtime) (r : Z) (t t' : Thread) (sh sh' : Shared) (e : Event) :
  thread_step rt t sh = Some (e, t', sh') ->
  made_local r sh (pc t) ->
  made_local r sh' (pc t') /\ makes_for r e = false.
Proof.
  intros Hs [(counter & Hpc & Hnn) | [Hset Hhit]].
  - destruct t as [p td]. cbn [pc] in Hpc. subst p.
    unfold thread_step in Hs. cbn [pc todo Konan_getWeakReferenceImpl] in Hs.
    unfold UpdateRefIfNull in Hs. fold (cache sh r) in Hs.
    injection Hs as <- <- <-. cbn [pc continue makes_for].
    split; [| done]. right. split; [| done].
    destruct (Z.eqb_spec (cache sh r) nullptr) as [Hnull | Hset].
    + unfold cache. cbn [mem set_mem]. by rewrite load_ptr_store_ptr.
    + unfold cache in *. by cbn [mem set_mem].
  - destruct (hit_mover rt r _ _ _ _ _ Hs Hset Hhit) as [Hhit' Hev].
    split; [| by apply allocates_makes]. right. split; [| done].
    destruct (cache_words_cases rt r _ _ _ _ _ Hs)
      as [(Hlo & Hhi & _) | (counter & _ & Hnull & _)]; [| done].
    by rewrite (cache_frame _ _ _ Hlo Hhi).
Qed.

Lemma made_bystander (rt : Runtime) (r : Z) (t t' : Thread) (sh sh' : Shared) (e : Event)
    (p : PC) :
  thread_step rt t sh = Some (e, t', sh') ->
  made_local r sh p ->
  made_local r sh' p.
Proof.
  intros Hs [Hinst | [Hset Hhit]]; [by left | right].
  destruct (cache_words_cases rt r _ _ _ _ _ Hs)
    as [(Hlo & Hhi & _) | (counter & _ & Hnull & _)]; [| done].
  split; [by rewrite (cache_frame _ _ _ Hlo Hhi) | by eapply hit_bystander].
Qed.

(** A step that makes a Counter for [r], from an allocator that hands
    out no null address, leaves the thread about to install it. *)
Lemma make_mover (rt : Runtime) (r : Z) (t t' : Thread) (sh sh' : Shared) (e : Event) :
  thread_step rt t sh = Some (e, t', sh') ->
  0 < next sh ->
  makes_for r e = true ->
  made_local r sh' (pc t').
Proof.
  intros Hs Hn He.
  thread_cases Hs.
  all: repeat match type of Hs with
         | context [if ?b then _ else _] => destruct b eqn:?
         end.
  all: injection Hs as <- <- <-.
  all: cbn [pc continue makes_for] in *; try discriminate He.
  apply Z.eqb_eq in He as ->.
  left. exists (next sh). split; [done |]. unfold nullptr. lia.
Qed.

Lemma count_makes_by_none (i : nat) (r : Z) (tr : list (nat * Event)) :
  (forall k e, In (k, e) tr -> k = i -> makes_for r e = false) ->
  count_makes_by i r tr = 0%nat.
Proof.
  unfold count_makes_by. induction tr as [| [k e] tr IH]; intros H; [done |].
  rewrite filter_cons_False.
  - apply IH. intros k' e' Hin. apply H. by right.
  - cbn [fst snd]. intros [-> He]. rewrite (H i e) in He; [done | by left | done].
Qed.

Lemma made_run (rt : Runtime) (r : Z) (i : nat) (sched : list nat) (cfg : Config) :
  (forall t, threads cfg !! i = Some t -> made_local r (shared cfg) (pc t)) ->
  count_makes_by i r (trace rt sched cfg) = 0%nat.
Proof.
  intros Hmade. apply count_makes_by_none.
  destruct (run_invariant rt
              (fun cfg0 => forall t, threads cfg0 !! i = Some t ->
                                     made_local r (shared cfg0) (pc t))
              (fun k e => k = i -> makes_for r e = false))
    with (sched := sched) (cfg := cfg) as [_ Htr]; [| done | done].
  intros k cfg0 e cfg1 H0 Hs.
  destruct (step_inv _ _ _ _ _ Hs) as (tk & tk' & sh' & Hk & Hts & ->).
  cbn [shared threads].
  destruct (decide (k = i)) as [-> | Hne].
  - destruct (made_mover rt r _ _ _ _ _ Hts (H0 _ Hk)) as [Hmine Hev].
    split; [| done]. intros t Ht.
    rewrite (lookup_mover _ _ _ _ Hk) in Ht. by injection Ht as <-.
  - split; [| done]. intros t Ht. rewrite list_lookup_insert_ne in Ht by done.
    eapply made_bystander; eauto.
Qed.

Lemma make_run (rt : Runtime) (r : Z) (i : nat) (sched : list nat) (cfg : Config) :
  0 < next (shared cfg) ->
  (count_makes_by i r (trace rt sched cfg) <= 1)%nat.
Proof.
  revert cfg. induction sched as [| k sched IH]; intros cfg Hn; [cbn; lia |].
  unfold trace. rewrite run_cons.
  destruct (step rt k cfg) as [[e cfg'] |] eqn:Hs; [| by apply IH].
  destruct (step_inv _ _ _ _ _ Hs) as (tk & tk' & sh' & Hk & Hts & ->).
  destruct (slot_words_step rt 0 _ _ _ _ _ Hts Hn) as [Hn' _].
  cbn [fst]. unfold count_makes_by.
  destruct (decide (k = i /\ makes_for r e = true)) as [[-> Hev] | Hno].
  - rewrite filter_cons_True by done. cbn [length].
    fold (count_makes_by i r
            (trace rt sched {| shared := sh'; threads := <[i := tk']> (threads cfg) |})).
    rewrite made_run; [lia |].
    cbn [shared threads]. intros t Ht.
    rewrite (lookup_mover _ _ _ _ Hk) in Ht. injection Ht as <-.
    by eapply make_mover.
  - rewrite filter_cons_False by done. by apply IH.
Qed.

(** Only the threads there are make events. *)
Lemma trace_indices (rt : Runtime) (sched : list nat) (cfg : Config) (k : nat) (e : Event) :
  In (k, e) (trace rt sched cfg) -> (k < length (threads cfg))%nat.
Proof.
  revert cfg. induction sched as [| j sched IH]; intros cfg Hin; [destruct Hin |].
  unfold trace in *. rewrite run_cons in Hin.
  destruct (step rt j cfg) as [[e' cfg'] |] eqn:Hs; [| by apply IH].
  destruct (step_inv _ _ _ _ _ Hs) as (tj & tj' & sh' & Hj & Hts & ->).
  cbn [fst] in Hin. destruct Hin as [Heq | Hin].
  - injection Heq as -> ->. by eapply lookup_lt_Some.
  - apply IH in Hin. cbn [threads] in Hin. by rewrite length_insert in Hin.
Qed.

(** Counting the Counters made thread by thread. *)
Lemma count_makes_split (r : Z) (n : nat) (tr : list (nat * Event)) :
  count_makes r tr =
    (count_makes r (filter (fun ie => fst ie ≠ n) tr) + count_makes_by n r tr)%nat.
Proof.
  unfold count_makes, count_makes_by. induction tr as [| [k e] tr IH]; [done |].
  destruct (decide (k = n)) as [-> | Hne]; destruct (makes_for r e) eqn:He.
  - rewrite (filter_cons_True _ _ tr) by done.
    rewrite (filter_cons_False (fun ie => fst ie ≠ n)) by (cbn; intros H; by apply H).
    rewrite (filter_cons_True (fun ie => fst ie = n /\ _)) by done.
    cbn [length]. rewrite IH. lia.
  - rewrite (filter_cons_False _ _ tr) by (cbn; congruence).
    rewrite (filter_cons_False (fun ie => fst ie ≠ n)) by (cbn; intros H; by apply H).
    rewrite (filter_cons_False (fun ie => fst ie = n /\ _)) by (cbn; intros [_ H]; congruence).
    apply IH.
  - rewrite (filter_cons_True _ _ tr) by done.
    rewrite (filter_cons_True (fun ie => fst ie ≠ n)) by done.
    rewrite (filter_cons_True _ _ (filter _ tr)) by done.
    rewrite (filter_cons_False (fun ie => fst ie = n /\ _)) by (cbn; intros [H _]; done).
    cbn [length]. rewrite IH. lia.
  - rewrite (filter_cons_False _ _ tr) by (cbn; congruence).
    rewrite (filter_cons_True (fun ie => fst ie ≠ n)) by done.
    rewrite (filter_cons_False _ _ (filter _ tr)) by (cbn; congruence).
    rewrite (filter_cons_False (fun ie => fst ie = n /\ _)) by (cbn; intros [H _]; done).
    apply IH.
Qed.

Lemma count_makes_by_filter (r : Z) (i n : nat) (tr : list (nat * Event)) :
  (count_makes_by i r (filter (fun ie => fst ie ≠ n) tr) <= count_makes_by i r tr)%nat.
Proof.
  unfold count_makes_by. induction tr as [| [k e] tr IH]; [done |].
  destruct (decide (k = n)) as [-> | Hne].
  - rewrite (filter_cons_False (fun ie => fst ie ≠ n)) by (cbn; intros H; by apply H).
    etrans; [exact IH |].
    destruct (decide (n = i /\ makes_for r e = true)) as [Hy | Hno].
    + rewrite (filter_cons_True (fun ie => fst ie = i /\ _)) by done. cbn [length]. lia.
    + by rewrite (filter_cons_False (fun ie => fst ie = i /\ _)) by done.
  - rewrite (filter_cons_True (fun ie => fst ie ≠ n)) by done.
    destruct (decide (k = i /\ makes_for r e = true)) as [Hy | Hno].
    + rewrite !(filter_cons_True (fun ie => fst ie = i /\ _)) by done. cbn [length]. lia.
    + rewrite !(filter_cons_False (fun ie => fst ie = i /\ _)) by done. done.
Qed.

Lemma count_makes_bound (r : Z) (n : nat) :
  forall tr : list (nat * Event),
    (forall k e, In (k, e) tr -> (k < n)%nat) ->
    (forall i, (count_makes_by i r tr <= 1)%nat) ->
    (count_makes r tr <= n)%nat.
Proof.
  induction n as [| n IH]; intros tr Hidx Hone.
  - destruct tr as [| [k e] tr]; [done |].
    specialize (Hidx k e (or_introl eq_refl)). lia.
  - rewrite (count_makes_split r n tr).
    specialize (Hone n) as Hn.
    assert (count_makes r (filter (fun ie => fst ie ≠ n) tr) <= n)%nat; [| lia].
    apply IH.
    + intros k e Hin. apply list_elem_of_In, list_elem_of_filter in Hin as [Hne Hin].
      apply list_elem_of_In in Hin. specialize (Hidx _ _ Hin). cbn in Hne. lia.
    + intros i. etrans; [apply count_makes_by_filter | apply Hone].
Qed.

(** X12: the candidates that lose the race are few. From any
    configuration where the allocator hands out non-null addresses,
    along any schedule and however many acquisitions each thread makes:
    a thread makes at most one Counter for a referent [r], so no more
    Counters are made for [r] than there are threads, and all but the
    one installed are lost candidates. *)
Theorem one_candidate_per_thread
    (rt : Runtime) (r : Z) (cfg : Config) (sched : list nat) :
  0 < next (shared cfg) ->
  (forall i, (count_makes_by i r (trace rt sched cfg) <= 1)%nat) /\
  (count_makes r (trace rt sched cfg) <= length (threads cfg))%nat.
Proof.
  intros Hn.
  assert (forall i, (count_makes_by i r (trace rt sched cfg) <= 1)%nat) as Hone
    by (intros i; by apply make_run).
  split; [done |].
  apply count_makes_bound; [| done].
  intros k e. apply trace_indices.
Qed.

Lemma one_candidate_per_thread_witness :
  (forall i, (count_makes_by i 6 (trace example_runtime acquire_schedule acquire_config)
              <= 1)%nat) /\
  (count_makes 6 (trace example_runtime acquire_schedule acquire_config)
   <= length (threads acquire_config))%nat.
Proof.
  apply (one_candidate_per_thread example_runtime 6 acquire_config acquire_schedule).
  reflexivity.
Defined.
